(** * The debugger's expression evaluator (nemu/src/monitor/debug/expr.c)

    A shallow embedding of the tokenizer ([make_token]), the parenthesis
    check ([check_parentheses]), the recursive evaluator ([eval]) and the
    entry point ([expr]), with the static token array and the caller's
    success flag passed explicitly.

    The patterns of the rule table are regular expressions matched by
    derivatives, with the leftmost-longest rule of POSIX at the cursor.
    [init_regex] only compiles the patterns, all of which are well formed,
    and the [Log] lines print without changing any state: neither is part
    of the model.  The register lookup and the memory read belong to the
    simulator and are parameters. *)

From Stdlib Require Import ZArith List Ascii String Bool Lia.
Import ListNotations.

Local Open Scope Z_scope.

(** ** Outcomes of a C computation *)

(** A call either returns, or the process stops: [panic] prints a message
    and aborts, [assert(0)] aborts, and an access outside an array has no
    defined behaviour.  [OutOfFuel] belongs to the model only: the
    recursive functions below take a bound on their call depth. *)
Inductive outcome (A : Type) : Type :=
| Ret (a : A)
| Panic (msg : string)
| AssertFail
| Undefined
| OutOfFuel.

Arguments Ret {A} a.
Arguments Panic {A} msg.
Arguments AssertFail {A}.
Arguments Undefined {A}.
Arguments OutOfFuel {A}.

Definition bind {A B : Type} (m : outcome A) (k : A -> outcome B) : outcome B :=
  match m with
  | Ret a => k a
  | Panic msg => Panic msg
  | AssertFail => AssertFail
  | Undefined => Undefined
  | OutOfFuel => OutOfFuel
  end.

Declare Scope outcome_scope.
Delimit Scope outcome_scope with outcome.
Notation "x <- m ;; k" := (bind m (fun x => k))
  (at level 61, m at next level, right associativity) : outcome_scope.
Notation "' pat <- m ;; k" := (bind m (fun x => match x with pat => k end))
  (at level 61, pat pattern, m at next level, right associativity) : outcome_scope.
Local Open Scope outcome_scope.

(** ** Characters and C strings *)

Definition ch (c : ascii) : Z := Z.of_N (N_of_ascii c).

Definition NUL : ascii := Ascii.zero.

Definition is_nul (c : ascii) : bool := Ascii.eqb c NUL.

(** The characters of a [char] array up to its first NUL; [None] when the
    array holds no NUL, where [strlen] and [sscanf] would read past it. *)
Fixpoint c_string (buf : list ascii) : option (list ascii) :=
  match buf with
  | [] => None
  | c :: buf' =>
      if is_nul c then Some []
      else match c_string buf' with
           | Some s => Some (c :: s)
           | None => None
           end
  end.

(** The characters a [char *] argument denotes: those before the first NUL. *)
Fixpoint c_chars (s : list ascii) : list ascii :=
  match s with
  | [] => []
  | c :: s' => if is_nul c then [] else c :: c_chars s'
  end.

(** [strncpy(dst, src, n)]: exactly [n] bytes are written, the characters of
    [src] and then NULs when [src] is shorter than [n]; no NUL is added when
    [src] has [n] characters or more.  Writing past [dst] is undefined. *)
Definition strncpy (dst src : list ascii) (n : nat) : outcome (list ascii) :=
  if (n <=? List.length dst)%nat
  then Ret (firstn n (c_chars src ++ repeat NUL n) ++ skipn n dst)
  else Undefined.

(** ** Regular expressions (the POSIX extended patterns of the rule table) *)

Inductive regex : Type :=
| Void
| Eps
| Chr (c : ascii)
| Range (lo hi : ascii)
| Seq (r1 r2 : regex)
| Alt (r1 r2 : regex)
| Star (r : regex)
| Plus (r : regex).

Fixpoint nullable (r : regex) : bool :=
  match r with
  | Void => false
  | Eps => true
  | Chr _ => false
  | Range _ _ => false
  | Seq r1 r2 => nullable r1 && nullable r2
  | Alt r1 r2 => nullable r1 || nullable r2
  | Star _ => true
  | Plus r => nullable r
  end.

Definition seq (r1 r2 : regex) : regex :=
  match r1, r2 with
  | Void, _ => Void
  | _, Void => Void
  | Eps, _ => r2
  | _, _ => Seq r1 r2
  end.

Definition alt (r1 r2 : regex) : regex :=
  match r1, r2 with
  | Void, _ => r2
  | _, Void => r1
  | _, _ => Alt r1 r2
  end.

Definition in_range (lo hi c : ascii) : bool :=
  (N_of_ascii lo <=? N_of_ascii c)%N && (N_of_ascii c <=? N_of_ascii hi)%N.

(** Brzozowski derivative: what remains to be matched after reading [c]. *)
Fixpoint deriv (r : regex) (c : ascii) : regex :=
  match r with
  | Void => Void
  | Eps => Void
  | Chr c' => if Ascii.eqb c c' then Eps else Void
  | Range lo hi => if in_range lo hi c then Eps else Void
  | Seq r1 r2 =>
      alt (seq (deriv r1 c) r2) (if nullable r1 then deriv r2 c else Void)
  | Alt r1 r2 => alt (deriv r1 c) (deriv r2 c)
  | Star r1 => seq (deriv r1 c) (Star r1)
  | Plus r1 => seq (deriv r1 c) (Star r1)
  end.

(** Length of the longest prefix of [s] that [r] matches, counted from [n];
    [best] is the longest one seen so far. *)
Fixpoint longest (r : regex) (s : list ascii) (n : nat) (best : option nat)
  : option nat :=
  let best' := if nullable r then Some n else best in
  match s with
  | [] => best'
  | c :: s' =>
      match r with
      | Void => best'
      | _ => longest (deriv r c) s' (S n) best'
      end
  end.

(** [regexec(&re, s, 1, &pmatch, 0) == 0 && pmatch.rm_so == 0]: the leftmost
    match starts at offset 0 exactly when some prefix of [s] matches, and
    POSIX then reports the longest such prefix; the result is [rm_eo]. *)
Definition regexec_at0 (r : regex) (s : list ascii) : option nat :=
  longest r s 0%nat None.

(** ** Token types, binding levels and the rule table *)

Definition TK_NOTYPE : Z := 256.
Definition TK_EQ : Z := 257.
Definition TK_NUMBER : Z := 258.
Definition TK_REGISTER : Z := 259.
Definition TK_MINUS : Z := 260.
Definition TK_DEREFERENCE : Z := 261.
Definition TK_NOTEQ : Z := 262.
Definition TK_AND : Z := 263.
Definition TK_OR : Z := 264.

Definition OP_LV0 : Z := 0.
Definition OP_LV1 : Z := 10.
Definition OP_LV2_1 : Z := 21.
Definition OP_LV2_2 : Z := 22.
Definition OP_LV3 : Z := 30.
Definition OP_LV4 : Z := 40.
Definition OP_LV7 : Z := 70.
Definition OP_LV11 : Z := 110.
Definition OP_LV12 : Z := 120.

Record rule : Type := { regex_of : regex; token_type : Z }.

Definition lit2 (a b : ascii) : regex := Seq (Chr a) (Chr b).
Definition digit : regex := Range "0" "9".
Definition alnum : regex := Alt (Range "a" "z") (Alt (Range "A" "Z") digit).
Definition xdigit : regex := Alt digit (Alt (Range "a" "f") (Range "A" "F")).

Definition rules : list rule :=
  [ {| regex_of := Plus (Chr " ");  token_type := TK_NOTYPE |};
    {| regex_of := Chr "+";         token_type := ch "+" |};
    {| regex_of := Chr "-";         token_type := ch "-" |};
    {| regex_of := Chr "*";         token_type := ch "*" |};
    {| regex_of := Chr "/";         token_type := ch "/" |};
    {| regex_of := Chr "(";         token_type := ch "(" |};
    {| regex_of := Chr ")";         token_type := ch ")" |};
    {| regex_of := Seq (Chr "$") (Plus alnum); token_type := TK_REGISTER |};
    {| regex_of := Seq (Chr "0") (Seq (Alt (Chr "x") (Chr "X")) (Plus xdigit));
       token_type := TK_NUMBER |};
    {| regex_of := Alt (Chr "0") (Seq (Range "1" "9") (Star digit));
       token_type := TK_NUMBER |};
    {| regex_of := lit2 "!" "=";    token_type := TK_NOTEQ |};
    {| regex_of := lit2 "&" "&";    token_type := TK_AND |};
    {| regex_of := lit2 "|" "|";    token_type := TK_OR |};
    {| regex_of := lit2 "=" "=";    token_type := TK_EQ |} ].

(** The [for] loop over the rules: the first rule, in table order, that
    matches at the cursor, with the length of its match. *)
Fixpoint first_match (rs : list rule) (s : list ascii) : option (rule * nat) :=
  match rs with
  | [] => None
  | r :: rs' =>
      match regexec_at0 (regex_of r) s with
      | Some len => Some (r, len)
      | None => first_match rs' s
      end
  end.

(** ** Tokens and the static state of the file *)

Record Token : Type := { type : Z; str : list ascii; precedence : Z }.

Definition set_type (v : Z) (t : Token) : Token :=
  {| type := v; str := str t; precedence := precedence t |}.
Definition set_precedence (v : Z) (t : Token) : Token :=
  {| type := type t; str := str t; precedence := v |}.
Definition set_str (v : list ascii) (t : Token) : Token :=
  {| type := type t; str := v; precedence := precedence t |}.

(** What [printf] writes when no rule matches: the position, the whole
    expression, and a caret under column [position]. *)
Record no_match : Type := { at_position : Z; shown : string; caret_column : Z }.

(** [tokens] and [nr_token], and the no-match reports [printf] has written
    so far. *)
Record machine : Type :=
  { tokens : list Token; nr_token : Z; printed : list no_match }.

(** [tokens[i]]: reading outside the array is undefined. *)
Definition tok (ts : list Token) (i : Z) : outcome Token :=
  if i <? 0 then Undefined
  else match nth_error ts (Z.to_nat i) with
       | Some t => Ret t
       | None => Undefined
       end.

Fixpoint update {A : Type} (l : list A) (n : nat) (f : A -> A) : option (list A) :=
  match l, n with
  | [], _ => None
  | x :: l', O => Some (f x :: l')
  | x :: l', S n' =>
      match update l' n' f with
      | Some l'' => Some (x :: l'')
      | None => None
      end
  end.

(** An assignment to fields of [tokens[i]]. *)
Definition tok_set (ts : list Token) (i : Z) (f : Token -> Token)
  : outcome (list Token) :=
  if i <? 0 then Undefined
  else match update ts (Z.to_nat i) f with
       | Some ts' => Ret ts'
       | None => Undefined
       end.

(** The static array [tokens[32]] as the loader leaves it: all bytes zero.
    [str_size] is the size of the [str] member of [Token], which the header
    monitor/expr.h declares; the examples take 32 bytes. *)
Definition zero_token (str_size : nat) : Token :=
  {| type := 0; str := repeat NUL str_size; precedence := 0 |}.

Definition pristine (str_size : nat) : machine :=
  {| tokens := repeat (zero_token str_size) 32; nr_token := 0; printed := [] |}.

(** ** make_token *)

(** [tokens[nr].type = tt; tokens[nr].precedence = lv; ++nr]. *)
Definition put_operator (ts : list Token) (nr tt lv : Z)
  : outcome (list Token * Z) :=
  ts1 <- tok_set ts nr (set_type tt) ;;
  ts2 <- tok_set ts1 nr (set_precedence lv) ;;
  Ret (ts2, nr + 1).

(** The same with [strncpy(tokens[nr].str, substr_start, substr_len)]
    between the two assignments. *)
Definition put_literal (ts : list Token) (nr tt : Z)
    (substr_start : list ascii) (substr_len : nat) : outcome (list Token * Z) :=
  ts1 <- tok_set ts nr (set_type tt) ;;
  t <- tok ts1 nr ;;
  s <- strncpy (str t) substr_start substr_len ;;
  ts2 <- tok_set ts1 nr (set_str s) ;;
  ts3 <- tok_set ts2 nr (set_precedence OP_LV0) ;;
  Ret (ts3, nr + 1).

(** The [switch (rules[i].token_type)] of [make_token]. *)
Definition record_token (ts : list Token) (nr tt : Z)
    (substr_start : list ascii) (substr_len : nat) : outcome (list Token * Z) :=
  if tt =? TK_NOTYPE then Ret (ts, nr)
  else if (tt =? ch "+") || (tt =? ch "-") then put_operator ts nr tt OP_LV4
  else if (tt =? ch "*") || (tt =? ch "/") then put_operator ts nr tt OP_LV3
  else if (tt =? ch "(") || (tt =? ch ")") then put_operator ts nr tt OP_LV1
  else if tt =? TK_NUMBER then put_literal ts nr tt substr_start substr_len
  else if tt =? TK_REGISTER then put_literal ts nr tt substr_start substr_len
  else if (tt =? TK_EQ) || (tt =? TK_NOTEQ) then put_operator ts nr tt OP_LV7
  else if tt =? TK_AND then put_operator ts nr tt OP_LV11
  else if tt =? TK_OR then put_operator ts nr tt OP_LV12
  else AssertFail.

(** The local state of [make_token] inside its loop: [rest] is
    [e + position], [mach] the statics. *)
Record cursor : Type := { rest : list ascii; position : Z; mach : machine }.

(** One iteration of the [while] loop: the rules are tried in order; a match
    moves the cursor on ([inl]), no match prints and returns false ([inr]).
    The [Log] line of a match is left out: [printed] holds the no-match
    reports only. *)
Definition lex_one (e : string) (c : cursor) : outcome (cursor + machine) :=
  let m := mach c in
  match first_match rules (rest c) with
  | Some (r, substr_len) =>
      ' (ts, nr) <- record_token (tokens m) (nr_token m) (token_type r)
                      (rest c) substr_len ;;
      Ret (inl {| rest := skipn substr_len (rest c);
                  position := position c + Z.of_nat substr_len;
                  mach := {| tokens := ts; nr_token := nr;
                             printed := printed m |} |})
  | None =>
      Ret (inr {| tokens := tokens m; nr_token := nr_token m;
                  printed := printed m ++
                    [ {| at_position := position c; shown := e;
                         caret_column := position c |} ] |})
  end.

(** The [while (e[position] != '\0')] loop. *)
Fixpoint make_token_loop (fuel : nat) (e : string) (c : cursor)
  : outcome (bool * machine) :=
  match fuel with
  | O => OutOfFuel
  | S fuel' =>
      match rest c with
      | [] => Ret (true, mach c)
      | _ :: _ =>
          r <- lex_one e c ;;
          match r with
          | inl c' => make_token_loop fuel' e c'
          | inr m => Ret (false, m)
          end
      end
  end.

(** The cursor after [position = 0; nr_token = 0]. *)
Definition start (m : machine) (e : string) : cursor :=
  {| rest := c_chars (list_ascii_of_string e); position := 0;
     mach := {| tokens := tokens m; nr_token := 0; printed := printed m |} |}.

Definition make_token (m : machine) (e : string) : outcome (bool * machine) :=
  make_token_loop (S (List.length (c_chars (list_ascii_of_string e)))) e
    (start m e).

(** The cursors the loop goes through. *)
Inductive reaches (e : string) : cursor -> cursor -> Prop :=
| reaches_here (c : cursor) : reaches e c c
| reaches_next (c c1 c2 : cursor) :
    rest c <> [] -> lex_one e c = Ret (inl c1) -> reaches e c1 c2 ->
    reaches e c c2.

(** ** check_parentheses *)

Definition BAD_EXPR : Z := 1024.
Definition NOT_SURROUND : Z := 1025.

(** The depth counter after token [t]. *)
Definition step_depth (t : Token) (cnt : Z) : Z :=
  if type t =? ch "(" then cnt + 1
  else if type t =? ch ")" then cnt - 1
  else cnt.

(** The [for] loop of [check_parentheses], [n] iterations from index [i]:
    [None] when the counter went negative (the early return), else the
    final counter. *)
Fixpoint paren_scan (ts : list Token) (n : nat) (i match_cnt : Z)
  : outcome (option Z) :=
  match n with
  | O => Ret (Some match_cnt)
  | S n' =>
      t <- tok ts i ;;
      let match_cnt := step_depth t match_cnt in
      if match_cnt <? 0 then Ret None
      else paren_scan ts n' (i + 1) match_cnt
  end.

(** [error] is the caller's variable behind the pointer: [None] while it
    is uninitialised. *)
Definition check_parentheses (ts : list Token) (p q : Z) (error : option Z)
  : outcome (bool * option Z) :=
  if p >=? q then Ret (false, Some BAD_EXPR)
  else
    r <- paren_scan ts (Z.to_nat (q - p + 1)) p 0 ;;
    match r with
    | None => Ret (false, Some BAD_EXPR)
    | Some match_cnt =>
        if negb (match_cnt =? 0) then Ret (false, Some BAD_EXPR)
        else
          tp <- tok ts p ;;
          tq <- tok ts q ;;
          if (type tp =? ch "(") && (type tq =? ch ")")
          then Ret (true, error)
          else Ret (false, Some NOT_SURROUND)
    end.

(** ** sscanf with one conversion, as glibc on LP64 performs it *)

(** The return value of [sscanf]: 1, 0 or [EOF]. *)
Inductive scan : Type :=
| Converted (v : Z)
| MatchFail
| InputFail.

Definition u32 (n : Z) : Z := n mod 2 ^ 32.

Definition isspace (c : ascii) : bool :=
  let n := N_of_ascii c in
  ((n =? 32) || ((9 <=? n) && (n <=? 13)))%N.

Definition digit_value (c : ascii) : option Z :=
  if in_range "0" "9" c then Some (ch c - 48) else None.

Definition xdigit_value (c : ascii) : option Z :=
  if in_range "0" "9" c then Some (ch c - 48)
  else if in_range "a" "f" c then Some (ch c - 87)
  else if in_range "A" "F" c then Some (ch c - 55)
  else None.

(** The digits at the head of [s]: their value in [base] on top of [acc],
    and how many there are. *)
Fixpoint scan_digits (dv : ascii -> option Z) (base : Z) (s : list ascii)
    (acc : Z) (n : nat) : Z * nat :=
  match s with
  | [] => (acc, n)
  | c :: s' =>
      match dv c with
      | Some d => scan_digits dv base s' (acc * base + d) (S n)
      | None => (acc, n)
      end
  end.

Fixpoint skip_space (s : list ascii) : list ascii :=
  match s with
  | [] => []
  | c :: s' => if isspace c then skip_space s' else s
  end.

Definition split_sign (s : list ascii) : bool * list ascii :=
  match s with
  | c :: s' =>
      if Ascii.eqb c "-" then (true, s')
      else if Ascii.eqb c "+" then (false, s')
      else (false, s)
  | [] => (false, s)
  end.

(** [strtol] and [strtoul] saturate; the result is then stored in the
    32-bit object. *)
Definition LONG_MAX : Z := 2 ^ 63 - 1.
Definition ULONG_MAX : Z := 2 ^ 64 - 1.

Definition store_long (neg : bool) (v : Z) : Z :=
  u32 (if neg then Z.max (- v) (- LONG_MAX - 1) else Z.min v LONG_MAX).

Definition store_ulong (neg : bool) (v : Z) : Z :=
  let w := Z.min v ULONG_MAX in
  u32 (if neg then - w else w).

(** [sscanf(s, "%d", &val)]. *)
Definition sscanf_d (s : list ascii) : scan :=
  match skip_space s with
  | [] => InputFail
  | s1 =>
      let '(neg, s2) := split_sign s1 in
      let '(v, n) := scan_digits digit_value 10 s2 0 0%nat in
      match n with
      | O => MatchFail
      | S _ => Converted (store_long neg v)
      end
  end.

Definition is_x (c : ascii) : bool := Ascii.eqb c "x" || Ascii.eqb c "X".

(** [sscanf(s, "%x", &val)]: after a leading [0] an [x] is read over, and
    the [0] counts as a digit already read. *)
Definition sscanf_x (s : list ascii) : scan :=
  match skip_space s with
  | [] => InputFail
  | s1 =>
      let '(neg, s2) := split_sign s1 in
      match s2 with
      | z :: x :: s3 =>
          if Ascii.eqb z "0" && is_x x
          then Converted (store_ulong neg (fst (scan_digits xdigit_value 16 s3 0 0%nat)))
          else
            let '(v, n) := scan_digits xdigit_value 16 s2 0 0%nat in
            match n with
            | O => MatchFail
            | S _ => Converted (store_ulong neg v)
            end
      | _ =>
          let '(v, n) := scan_digits xdigit_value 16 s2 0 0%nat in
          match n with
          | O => MatchFail
          | S _ => Converted (store_ulong neg v)
          end
      end
  end.

(** ** eval *)

(** A 32-bit value; [Vundef] is what an uninitialised [uint32_t val] holds. *)
Inductive val : Type :=
| Vint (n : Z)
| Vundef.

Definition lift2 (f : Z -> Z -> Z) (v1 v2 : val) : val :=
  match v1, v2 with
  | Vint a, Vint b => Vint (u32 (f a b))
  | _, _ => Vundef
  end.

Definition of_bool (b : bool) : Z := if b then 1 else 0.

(** The loop of [eval] that looks for the operator to split at, [n]
    iterations from index [i]. *)
Fixpoint op_scan (ts : list Token) (n : nat) (i op cur max_precedence : Z)
  : outcome Z :=
  match n with
  | O => Ret op
  | S n' =>
      t <- tok ts i ;;
      let cur := step_depth t cur in
      if (cur =? 0) && (precedence t >=? max_precedence)
      then op_scan ts n' (i + 1) i cur (precedence t)
      else op_scan ts n' (i + 1) op cur max_precedence
  end.

(** The [TK_NUMBER] branch of a one-token range. *)
Definition eval_number (t : Token) (success : bool) : outcome (val * bool) :=
  match c_string (str t) with
  | None => Undefined
  | Some s =>
      let is_hex := (2 <? List.length s)%nat && is_x (nth 1 s NUL) in
      match (if is_hex then sscanf_x s else sscanf_d s) with
      | Converted v => Ret (Vint v, success)
      | MatchFail => Ret (Vundef, false)
      | InputFail => Ret (Vundef, success)
      end
  end.

Section Host.

(** The two functions of the simulator that [eval] calls.
    [isa_reg_str2val name success] returns the register's value and what it
    leaves in [*success]; [vaddr_read addr len] returns the bytes read. *)
Variable isa_reg_str2val : string -> bool -> Z * bool.
Variable vaddr_read : Z -> Z -> Z.

(** The [TK_REGISTER] branch: the name starts at [tokens[p].str + 1]. *)
Definition eval_register (t : Token) (success : bool) : outcome (val * bool) :=
  match c_string (skipn 1 (str t)) with
  | None => Undefined
  | Some name =>
      let '(v, ok) := isa_reg_str2val (string_of_list_ascii name) success in
      Ret (Vint (u32 v), ok)
  end.

(** The [switch (tokens[op].type)] at the end of [eval]. *)
Definition combine (tt : Z) (val1 val2 : val) : outcome val :=
  if tt =? ch "+" then Ret (lift2 Z.add val1 val2)
  else if tt =? ch "-" then Ret (lift2 Z.sub val1 val2)
  else if tt =? ch "*" then Ret (lift2 Z.mul val1 val2)
  else if tt =? ch "/" then
    match val2 with
    | Vundef => Undefined
    | Vint b =>
        if b =? 0 then Panic "Division by zero!!"
        else Ret (lift2 Z.div val1 val2)
    end
  else if tt =? TK_DEREFERENCE then
    Ret (match val2 with
         | Vint a => Vint (u32 (vaddr_read a 4))
         | Vundef => Vundef
         end)
  else if tt =? TK_MINUS then Ret (lift2 (fun _ b => - b) (Vint 0) val2)
  else if tt =? TK_EQ then Ret (lift2 (fun a b => of_bool (a =? b)) val1 val2)
  else if tt =? TK_NOTEQ then
    Ret (lift2 (fun a b => of_bool (negb (a =? b))) val1 val2)
  else if tt =? TK_AND then
    Ret (lift2 (fun a b => of_bool (negb (a =? 0) && negb (b =? 0))) val1 val2)
  else if tt =? TK_OR then
    Ret (lift2 (fun a b => of_bool (negb (a =? 0) || negb (b =? 0))) val1 val2)
  else AssertFail.

Definition is_unary (tt : Z) : bool :=
  (tt =? TK_DEREFERENCE) || (tt =? TK_MINUS).

(** [eval(p, q, success)]: the flag is passed in and returned with the
    value; [fuel] bounds the depth of the recursion. *)
Fixpoint eval (fuel : nat) (ts : list Token) (p q : Z) (success : bool)
  : outcome (val * bool) :=
  match fuel with
  | O => OutOfFuel
  | S fuel' =>
      if p >? q then Ret (Vint 0, false)
      else if p =? q then
        t <- tok ts p ;;
        if type t =? TK_NUMBER then eval_number t success
        else if type t =? TK_REGISTER then eval_register t success
        else Ret (Vundef, success)
      else
        ' (wrapped, error) <- check_parentheses ts p q None ;;
        if (wrapped : bool) then eval fuel' ts (p + 1) (q - 1) success
        else
          match error with
          | None => Undefined
          | Some err =>
              if err =? BAD_EXPR then Ret (Vint 0, false)
              else
                op <- op_scan ts (Z.to_nat (q - p + 1)) p 0 0 (-1) ;;
                top <- tok ts op ;;
                ' (val1, success1) <-
                  (if is_unary (type top) then Ret (Vint 0, success)
                   else eval fuel' ts p (op - 1) success) ;;
                ' (val2, success2) <- eval fuel' ts (op + 1) q success1 ;;
                v <- combine (type top) val1 val2 ;;
                Ret (v, success2)
          end
  end.

(** ** expr *)

Definition check_unary (token_type : Z) : bool :=
  (token_type =? ch "(")
  || (token_type =? ch "+")
  || (token_type =? ch "-")
  || (token_type =? ch "*")
  || (token_type =? ch "/")
  || (token_type =? TK_MINUS)
  || (token_type =? TK_DEREFERENCE).

(** [i == 0 || check_unary(tokens[i - 1].type)]. *)
Definition unary_position (ts : list Token) (i : Z) : outcome bool :=
  if i =? 0 then Ret true
  else (t <- tok ts (i - 1) ;; Ret (check_unary (type t))).

(** One of the two [if] statements of the loop body at index [i]. *)
Definition retype (ts : list Token) (i from to lv : Z) : outcome (list Token) :=
  t <- tok ts i ;;
  if type t =? from then
    u <- unary_position ts i ;;
    if (u : bool) then
      ts1 <- tok_set ts i (set_type to) ;;
      tok_set ts1 i (set_precedence lv)
    else Ret ts
  else Ret ts.

(** The loop that recognises dereference and unary minus, [n] iterations
    from index [i]. *)
Fixpoint mark_unary (n : nat) (i : Z) (ts : list Token) : outcome (list Token) :=
  match n with
  | O => Ret ts
  | S n' =>
      ts1 <- retype ts i (ch "*") TK_DEREFERENCE OP_LV2_2 ;;
      ts2 <- retype ts1 i (ch "-") TK_MINUS OP_LV2_1 ;;
      mark_unary n' (i + 1) ts2
  end.

(** The loop of [expr] over the [nr_token] tokens. *)
Definition recognise_unary (m : machine) : outcome machine :=
  ts <- mark_unary (Z.to_nat (nr_token m)) 0 (tokens m) ;;
  Ret {| tokens := ts; nr_token := nr_token m; printed := printed m |}.

(** [expr(e, success)] on the machine [m]: the value, the flag and the
    machine it leaves. *)
Definition expr (m : machine) (e : string) (success : bool)
  : outcome (val * bool * machine) :=
  ' (ok, m1) <- make_token m e ;;
  if negb ok then Ret (Vint 0, false, m1)
  else
    m2 <- recognise_unary m1 ;;
    ' (v, s) <- eval (S (Z.to_nat (nr_token m2))) (tokens m2) 0
                  (nr_token m2 - 1) success ;;
    Ret (v, s, m2).

End Host.

(** ** Collaborators used in the examples *)

(** Modelled from the spec: the register lookup [isa_reg_str2val], which is
    not part of expr.c.  It is given the name without its sigil, returns the
    value and reports through the flag whether the name resolved.  This one
    knows [pc], at 0x1000, and no other register. *)
Definition pc_only (name : string) (success : bool) : Z * bool :=
  if String.eqb name "pc" then (4096, true) else (0, false).

(** Modelled from the spec: the memory read [vaddr_read], which is not part
    of expr.c; every read succeeds.  This one reads [0xAB] everywhere. *)
Definition flat_memory (addr len : Z) : Z := 171.

Definition value_flag {A B C : Type} (r : outcome (A * B * C)) : outcome (A * B) :=
  ' (v, s, _) <- r ;; Ret (v, s).

Definition run (e : string) (success : bool) : outcome (val * bool) :=
  value_flag (expr pc_only flat_memory (pristine 32) e success).



(** ** Vocabulary of the statements *)

(** The [n] tokens from index [i] on. *)
Definition segment (ts : list Token) (i : Z) (n : nat) : list Token :=
  firstn n (skipn (Z.to_nat i) ts).

(** The tokens of the range [p..q]. *)
Definition range (ts : list Token) (p q : Z) : list Token :=
  segment ts p (Z.to_nat (q - p + 1)).

(** The parenthesis depth after the token at offset [k] of [l], counted
    from [cur]. *)
Fixpoint depth_at (cur : Z) (l : list Token) (k : nat) : Z :=
  match l with
  | [] => cur
  | t :: l' =>
      match k with
      | O => step_depth t cur
      | S k' => depth_at (step_depth t cur) l' k'
      end
  end.

(** The depth after the token at index [i] of the range that starts at [p]. *)
Definition depth (ts : list Token) (p q i : Z) : Z :=
  depth_at 0 (range ts p q) (Z.to_nat (i - p)).

(** Balanced: the running depth is never negative and is zero at the end. *)
Definition balanced (l : list Token) : Prop :=
  (forall k, (k < List.length l)%nat -> 0 <= depth_at 0 l k) /\
  depth_at 0 l (List.length l - 1) = 0.

(** The offset of the first token of [l] after which the depth is zero:
    when [l] starts with an opening parenthesis, where it is closed. *)
Fixpoint closing_offset (cur : Z) (l : list Token) (k : nat) : option nat :=
  match l with
  | [] => None
  | t :: l' =>
      if step_depth t cur =? 0 then Some k
      else closing_offset (step_depth t cur) l' (S k)
  end.

Definition first_is (c : ascii) (l : list Token) : bool :=
  match l with
  | t :: _ => type t =? ch c
  | [] => false
  end.

Definition last_is (c : ascii) (l : list Token) : bool :=
  match nth_error l (List.length l - 1) with
  | Some t => type t =? ch c
  | None => false
  end.

(** Framed: the first token is an opening and the last a closing
    parenthesis. *)
Definition framed (l : list Token) : bool := first_is "(" l && last_is ")" l.

(** What [eval] does with an operator range once [op] is chosen. *)
Definition split_at (isa_reg_str2val : string -> bool -> Z * bool)
    (vaddr_read : Z -> Z -> Z) (fuel : nat) (ts : list Token)
    (p q op : Z) (top : Token) (success : bool) : outcome (val * bool) :=
  ' (val1, success1) <-
    (if is_unary (type top) then Ret (Vint 0, success)
     else eval isa_reg_str2val vaddr_read fuel ts p (op - 1) success) ;;
  ' (val2, success2) <-
    eval isa_reg_str2val vaddr_read fuel ts (op + 1) q success1 ;;
  v <- combine vaddr_read (type top) val1 val2 ;;
  Ret (v, success2).

(** The loops of [check_parentheses] and [eval] over a list of tokens. *)
Fixpoint paren_list (l : list Token) (cnt : Z) : option Z :=
  match l with
  | [] => Some cnt
  | t :: l' =>
      let cnt := step_depth t cnt in
      if cnt <? 0 then None else paren_list l' cnt
  end.

Fixpoint dominant (l : list Token) (i op cur max_precedence : Z) : Z :=
  match l with
  | [] => op
  | t :: l' =>
      let cur := step_depth t cur in
      if (cur =? 0) && (precedence t >=? max_precedence)
      then dominant l' (i + 1) i cur (precedence t)
      else dominant l' (i + 1) op cur max_precedence
  end.

(** Every binding level in the array is one the program assigns. *)
Definition well_levelled (ts : list Token) : Prop :=
  Forall (fun t => 0 <= precedence t) ts.

(** No token of the range [p..q] is a register. *)
Definition register_free (ts : list Token) (p q : Z) : Prop :=
  forall i t, p <= i <= q -> tok ts i = Ret t -> type t <> TK_REGISTER.

(** The outcome [r] with its flag and-ed with [s]. *)
Definition flagged (s : bool) (r : outcome (val * bool)) : outcome (val * bool) :=
  ' (v, b) <- r ;; Ret (v, b && s).

(** The tokens [eval] works on: [make_token] on the pristine machine, then
    the loop of [expr]. *)
Definition scanned (m : machine) (e : string) : outcome (bool * machine) :=
  ' (ok, m1) <- make_token m e ;;
  if negb ok then Ret (false, m1)
  else (m2 <- recognise_unary m1 ;; Ret (true, m2)).

(** The whole array after scanning [e] on the pristine machine. *)
Definition array_of (e : string) : list Token :=
  match scanned (pristine 32) e with
  | Ret (_, m) => tokens m
  | _ => []
  end.

(** The kinds after which [*] and [-] are unary. *)
Definition unary_kinds : list Z :=
  [ch "("; ch "+"; ch "-"; ch "*"; ch "/"; TK_MINUS; TK_DEREFERENCE].

(** The token at index [i] is the first one, or follows a token whose kind
    is one of [unary_kinds]. *)
Definition in_unary_context (ts : list Token) (i : nat) : bool :=
  match i with
  | O => true
  | S j =>
      match nth_error ts j with
      | Some u => existsb (Z.eqb (type u)) unary_kinds
      | None => false
      end
  end.

(** What the loop of [expr] makes of the token [t], [u] telling whether it
    stands in unary context. *)
Definition reclassify (u : bool) (t : Token) : Token :=
  if (type t =? ch "*") && u then
    {| type := TK_DEREFERENCE; str := str t; precedence := OP_LV2_2 |}
  else if (type t =? ch "-") && u then
    {| type := TK_MINUS; str := str t; precedence := OP_LV2_1 |}
  else t.

Fixpoint reclassify_from (u : bool) (l : list Token) : list Token :=
  match l with
  | [] => []
  | t :: l' =>
      reclassify u t :: reclassify_from (check_unary (type (reclassify u t))) l'
  end.

(** Whether the last token of [pre] puts its successor in unary context. *)
Definition unary_after (pre : list Token) : bool :=
  match nth_error pre (List.length pre - 1) with
  | Some u => check_unary (type u)
  | None => true
  end.

(** The machine after [make_token] on the pristine machine. *)
Definition lexed (e : string) : machine :=
  match make_token (pristine 32) e with
  | Ret (_, m) => m
  | _ => pristine 32
  end.

(** ** Number literals as the specification reads them *)

(** The literal has a [0x] or [0X] prefix and more than two characters. *)
Definition hex_literal (s : list ascii) : bool :=
  match s with
  | z :: x :: _ :: _ => Ascii.eqb z "0" && is_x x
  | _ => false
  end.

(** The number a string of digits denotes in [base], on top of [acc];
    [None] when a character is not a digit. *)
Fixpoint digits_value (dv : ascii -> option Z) (base : Z) (s : list ascii)
    (acc : Z) : option Z :=
  match s with
  | [] => Some acc
  | c :: s' =>
      match dv c with
      | Some d => digits_value dv base s' (acc * base + d)
      | None => None
      end
  end.

(** The hexadecimal digits after the two-character prefix. *)
Definition parse_hex (s : list ascii) : option Z :=
  match s with
  | _ :: _ :: (_ :: _) as ds => digits_value xdigit_value 16 ds 0
  | _ => None
  end.

Definition parse_decimal (s : list ascii) : option Z :=
  match s with
  | [] => None
  | _ :: _ => digits_value digit_value 10 s 0
  end.


Definition starts_with_digit (s : list ascii) : bool :=
  match s with
  | c :: _ => in_range "0" "9" c
  | [] => false
  end.

(** What the [TK_NUMBER] branch returns for a result of [sscanf]. *)
Definition number_outcome (success : bool) (r : scan) : outcome (val * bool) :=
  match r with
  | Converted v => Ret (Vint v, success)
  | MatchFail => Ret (Vundef, false)
  | InputFail => Ret (Vundef, success)
  end.

(** Every number token of the array has a text that starts with a decimal
    digit. *)
Definition digit_headed (ts : list Token) : Prop :=
  Forall (fun t => type t = TK_NUMBER -> starts_with_digit (str t) = true) ts.

(** The machines a process can be in: as loaded, or after a call of [expr]
    that returned. *)
Inductive reachable (isa_reg_str2val : string -> bool -> Z * bool)
    (vaddr_read : Z -> Z -> Z) (str_size : nat) : machine -> Prop :=
| reachable_loaded : reachable isa_reg_str2val vaddr_read str_size (pristine str_size)
| reachable_call (m m' : machine) (e : string) (s s' : bool) (v : val) :
    reachable isa_reg_str2val vaddr_read str_size m ->
    expr isa_reg_str2val vaddr_read m e s = Ret (v, s', m') ->
    reachable isa_reg_str2val vaddr_read str_size m'.

(** ** Vocabulary of the further properties *)

(** The binding level [make_token] and the loop of [expr] give a token of
    kind [tt]; [None] for a value that is no token kind. *)
Definition level_of (tt : Z) : option Z :=
  if (tt =? ch "+") || (tt =? ch "-") then Some OP_LV4
  else if (tt =? ch "*") || (tt =? ch "/") then Some OP_LV3
  else if (tt =? ch "(") || (tt =? ch ")") then Some OP_LV1
  else if (tt =? TK_NUMBER) || (tt =? TK_REGISTER) then Some OP_LV0
  else if (tt =? TK_EQ) || (tt =? TK_NOTEQ) then Some OP_LV7
  else if tt =? TK_AND then Some OP_LV11
  else if tt =? TK_OR then Some OP_LV12
  else if tt =? TK_MINUS then Some OP_LV2_1
  else if tt =? TK_DEREFERENCE then Some OP_LV2_2
  else None.

(** The token has a kind of the program and the level of its kind. *)
Definition kind_levelled (t : Token) : Prop :=
  level_of (type t) = Some (precedence t).

(** Two arrays hold the same tokens at the indices [p..q]. *)
Definition agree_on (ts ts' : list Token) (p q : Z) : Prop :=
  forall i, p <= i <= q -> tok ts i = tok ts' i.

(** Every [str] member has room for [n] characters. *)
Definition roomy (n : nat) (ts : list Token) : Prop :=
  Forall (fun t => (n <= List.length (str t))%nat) ts.

Definition blank (n : nat) : list ascii := repeat " "%char n.

(** A decimal literal as the rule table accepts it: a single 0, or a
    digit from 1 to 9 followed by digits. *)
Definition decimal_literal (ds : list ascii) : bool :=
  match ds with
  | [] => false
  | c :: ds' =>
      if Ascii.eqb c "0" then match ds' with [] => true | _ => false end
      else in_range "1" "9" c && forallb (in_range "0" "9") ds'
  end.

(** The call returned, or its behaviour is undefined: it neither stopped on
    [panic] or [assert] nor used up the model's bound. *)
Definition returns_or_undefined {A : Type} (r : outcome A) : Prop :=
  r = Undefined \/ exists a, r = Ret a.

Definition is_xdigit (c : ascii) : bool :=
  in_range "0" "9" c || in_range "a" "f" c || in_range "A" "F" c.

(** A hexadecimal literal as the rule table accepts it: 0x or 0X and one
    hexadecimal digit or more. *)
Definition hexadecimal_literal (ds : list ascii) : bool :=
  match ds with
  | z :: x :: h :: hs =>
      Ascii.eqb z "0" && is_x x && forallb is_xdigit (h :: hs)
  | _ => false
  end.



(** The number of spaces [s] begins with. *)
Fixpoint leading_blanks (s : list ascii) : nat :=
  match s with
  | c :: s' => if Ascii.eqb c " " then S (leading_blanks s') else 0%nat
  | [] => 0%nat
  end.

(** What [make_token] leaves for the evaluation: its result, the array and
    [nr_token]. *)
Definition token_part (r : outcome (bool * machine))
  : outcome (bool * list Token * Z) :=
  ' (ok, m) <- r ;; Ret (ok, tokens m, nr_token m).

(** The machine a call of [expr] on [e] leaves, with the example
    collaborators and the flag set on entry; [m] itself when the call does
    not return. *)
Definition after (m : machine) (e : string) : machine :=
  match expr pc_only flat_memory m e true with
  | Ret (_, _, m') => m'
  | _ => m
  end.




(** * Properties *)

(** ** The array *)

Lemma tok_inv (ts : list Token) (i : Z) (t : Token) :
  tok ts i = Ret t -> 0 <= i /\ nth_error ts (Z.to_nat i) = Some t.
Proof.
  unfold tok. destruct (Z.ltb_spec i 0); [discriminate|].
  destruct (nth_error ts (Z.to_nat i)) eqn:E; [|discriminate].
  intros H0. inversion H0. subst. split; [lia | reflexivity].
Qed.

Lemma tok_nth (ts : list Token) (i : Z) (t : Token) :
  0 <= i -> nth_error ts (Z.to_nat i) = Some t -> tok ts i = Ret t.
Proof.
  intros Hi H. unfold tok. destruct (Z.ltb_spec i 0); [lia|]. now rewrite H.
Qed.

Lemma tok_in_bounds (ts : list Token) (i : Z) :
  0 <= i -> (Z.to_nat i < List.length ts)%nat -> exists t, tok ts i = Ret t.
Proof.
  intros Hi Hl. destruct (nth_error ts (Z.to_nat i)) eqn:E.
  - exists t. now apply tok_nth.
  - apply nth_error_None in E. lia.
Qed.

Lemma tok_bounds (ts : list Token) (i : Z) (t : Token) :
  tok ts i = Ret t -> 0 <= i /\ (Z.to_nat i < List.length ts)%nat.
Proof.
  intros H. apply tok_inv in H. destruct H as [H0 H]. split; [assumption|].
  apply nth_error_Some. congruence.
Qed.

Lemma skipn_nth_cons {A : Type} (l : list A) (k : nat) (x : A) :
  nth_error l k = Some x -> skipn k l = x :: skipn (S k) l.
Proof.
  revert k. induction l as [|y l IH]; intros [|k] H; simpl in *; try discriminate.
  - now inversion H.
  - now apply IH.
Qed.

Lemma segment_cons (ts : list Token) (i : Z) (n : nat) (t : Token) :
  tok ts i = Ret t -> segment ts i (S n) = t :: segment ts (i + 1) n.
Proof.
  intros H. apply tok_inv in H. destruct H as [Hi H]. unfold segment.
  rewrite (skipn_nth_cons _ _ _ H). simpl.
  replace (Z.to_nat (i + 1)) with (S (Z.to_nat i)) by lia. reflexivity.
Qed.

Lemma segment_length (ts : list Token) (i : Z) (n : nat) :
  0 <= i -> (Z.to_nat i + n <= List.length ts)%nat ->
  List.length (segment ts i n) = n.
Proof.
  intros Hi H. unfold segment. rewrite length_firstn, length_skipn. lia.
Qed.

Lemma segment_nth (ts : list Token) (i : Z) (n k : nat) :
  0 <= i -> (k < n)%nat ->
  nth_error (segment ts i n) k = nth_error ts (Z.to_nat i + k).
Proof.
  intros Hi Hk. unfold segment.
  rewrite nth_error_firstn.
  destruct (Nat.ltb_spec k n); [|lia].
  now rewrite nth_error_skipn.
Qed.

(** ** The two scans as functions of the scanned tokens *)

Lemma paren_scan_segment (ts : list Token) (n : nat) :
  forall i cnt, 0 <= i -> (Z.to_nat i + n <= List.length ts)%nat ->
  paren_scan ts n i cnt = Ret (paren_list (segment ts i n) cnt).
Proof.
  induction n as [|n IH]; intros i cnt Hi Hn.
  - reflexivity.
  - destruct (tok_in_bounds ts i Hi) as [t Ht]; [lia|].
    rewrite (segment_cons _ _ _ _ Ht). simpl. rewrite Ht. simpl.
    destruct (step_depth t cnt <? 0); [reflexivity|].
    apply IH; lia.
Qed.

Lemma op_scan_segment (ts : list Token) (n : nat) :
  forall i op cur mx, 0 <= i -> (Z.to_nat i + n <= List.length ts)%nat ->
  op_scan ts n i op cur mx = Ret (dominant (segment ts i n) i op cur mx).
Proof.
  induction n as [|n IH]; intros i op cur mx Hi Hn.
  - reflexivity.
  - destruct (tok_in_bounds ts i Hi) as [t Ht]; [lia|].
    rewrite (segment_cons _ _ _ _ Ht). simpl. rewrite Ht. simpl.
    destruct ((step_depth t cur =? 0) && (precedence t >=? mx));
      apply IH; lia.
Qed.

(** A scan that ran to its end read every token of the range. *)
Lemma paren_scan_in_bounds (ts : list Token) (n : nat) :
  forall i cnt c, paren_scan ts n i cnt = Ret (Some c) -> (0 < n)%nat ->
  0 <= i /\ (Z.to_nat i + n <= List.length ts)%nat.
Proof.
  induction n as [|n IH]; intros i cnt c H Hn; [lia|].
  simpl in H. destruct (tok ts i) as [t| | | |] eqn:Ht; try discriminate.
  simpl in H. destruct (tok_bounds _ _ _ Ht) as [Hi Hl].
  destruct (step_depth t cnt <? 0); [discriminate|].
  destruct n as [|n'].
  - split; [assumption | lia].
  - apply IH in H; [|lia]. lia.
Qed.

(** ** Binds and updates *)

Lemma bind_Ret_inv {A B : Type} (m : outcome A) (k : A -> outcome B) (b : B) :
  bind m k = Ret b -> exists a, m = Ret a /\ k a = Ret b.
Proof.
  destruct m; simpl; try discriminate. intros H. now exists a.
Qed.

Ltac bind_inv H :=
  let a := fresh "a" in
  let Ha := fresh "Ha" in
  apply bind_Ret_inv in H; destruct H as (a & Ha & H).

Tactic Notation "bind_split" hyp(H) "as" simple_intropattern(a) ident(Ha) :=
  apply bind_Ret_inv in H; destruct H as (a & Ha & H).

Lemma update_Forall {A : Type} (P : A -> Prop) (f : A -> A) (l : list A) :
  forall k l', update l k f = Some l' ->
  (forall x, P x -> P (f x)) -> Forall P l -> Forall P l'.
Proof.
  induction l as [|x l IH]; intros k l' H Hf Hl; [destruct k; discriminate|].
  inversion Hl as [|? ? Hx Hl']; subst.
  destruct k as [|k]; simpl in H.
  - inversion H. subst. constructor; [now apply Hf | assumption].
  - destruct (update l k f) as [l''|] eqn:E; [|discriminate].
    inversion H. subst. constructor; [assumption|]. now apply (IH k).
Qed.

Lemma update_length {A : Type} (f : A -> A) (l : list A) :
  forall k l', update l k f = Some l' -> List.length l' = List.length l.
Proof.
  induction l as [|x l IH]; intros k l' H; [destruct k; discriminate|].
  destruct k as [|k]; simpl in H.
  - inversion H. reflexivity.
  - destruct (update l k f) as [l''|] eqn:E; [|discriminate].
    inversion H. subst. simpl. f_equal. now apply (IH k).
Qed.

Lemma update_nth {A : Type} (f : A -> A) (l : list A) :
  forall k l' j, update l k f = Some l' ->
  nth_error l' j = if (j =? k)%nat then option_map f (nth_error l j)
                   else nth_error l j.
Proof.
  induction l as [|x l IH]; intros k l' j H; [destruct k; discriminate|].
  destruct k as [|k]; simpl in H.
  - inversion H. subst. destruct j; reflexivity.
  - destruct (update l k f) as [l''|] eqn:E; [|discriminate].
    inversion H. subst. destruct j as [|j]; [reflexivity|].
    simpl. now apply IH.
Qed.

Lemma tok_set_inv (ts ts' : list Token) (i : Z) (f : Token -> Token) :
  tok_set ts i f = Ret ts' ->
  0 <= i /\ update ts (Z.to_nat i) f = Some ts'.
Proof.
  unfold tok_set. destruct (Z.ltb_spec i 0); [discriminate|].
  destruct (update ts (Z.to_nat i) f); [|discriminate].
  intros H0. inversion H0. split; [lia | reflexivity].
Qed.

Lemma tok_set_Forall (P : Token -> Prop) (ts ts' : list Token) (i : Z)
    (f : Token -> Token) :
  tok_set ts i f = Ret ts' -> (forall t, P t -> P (f t)) ->
  Forall P ts -> Forall P ts'.
Proof.
  intros H Hf Hts. apply tok_set_inv in H. destruct H as [_ H].
  eapply update_Forall; eassumption.
Qed.

Lemma tok_set_length (ts ts' : list Token) (i : Z) (f : Token -> Token) :
  tok_set ts i f = Ret ts' -> List.length ts' = List.length ts.
Proof.
  intros H. apply tok_set_inv in H. destruct H as [_ H].
  eapply update_length; eassumption.
Qed.

Lemma update_bound {A : Type} (f : A -> A) (l : list A) :
  forall k l', update l k f = Some l' -> (k < List.length l)%nat.
Proof.
  induction l as [|x l IH]; intros k l' H; [destruct k; discriminate|].
  destruct k as [|k]; simpl in *; [lia|].
  destruct (update l k f) as [l''|] eqn:E; [|discriminate].
  apply IH in E. lia.
Qed.

Lemma tok_set_bound (ts ts' : list Token) (i : Z) (f : Token -> Token) :
  tok_set ts i f = Ret ts' -> 0 <= i /\ (Z.to_nat i < List.length ts)%nat.
Proof.
  intros H. apply tok_set_inv in H. destruct H as [H0 H].
  split; [assumption|]. eapply update_bound; eassumption.
Qed.

(** ** Depth and balance *)

Lemma paren_list_Some (l : list Token) :
  forall cnt c, l <> [] ->
  (paren_list l cnt = Some c <->
   (forall k, (k < List.length l)%nat -> 0 <= depth_at cnt l k) /\
   depth_at cnt l (List.length l - 1) = c).
Proof.
  induction l as [|t l IH]; intros cnt c Hne; [congruence|].
  destruct l as [|u l'].
  - simpl. destruct (Z.ltb_spec (step_depth t cnt) 0); split.
    + discriminate.
    + intros [Hk _]. specialize (Hk 0%nat). simpl in Hk. lia.
    + intros H0. inversion H0. subst. split; [|reflexivity].
      intros [|k] Hk; [assumption | lia].
    + intros [_ H0]. now rewrite H0.
  - assert (Hne' : u :: l' <> []) by discriminate.
    specialize (IH (step_depth t cnt) c Hne').
    change (paren_list (t :: u :: l') cnt)
      with (if step_depth t cnt <? 0 then None
            else paren_list (u :: l') (step_depth t cnt)).
    replace (List.length (t :: u :: l') - 1)%nat
      with (S (List.length (u :: l') - 1)) by (simpl; lia).
    change (depth_at cnt (t :: u :: l') (S (List.length (u :: l') - 1)))
      with (depth_at (step_depth t cnt) (u :: l') (List.length (u :: l') - 1)).
    destruct (Z.ltb_spec (step_depth t cnt) 0); split.
    + discriminate.
    + intros [Hk _]. specialize (Hk 0%nat). simpl in Hk. lia.
    + intros H0. apply IH in H0. destruct H0 as [Hk Hc]. split; [|assumption].
      intros [|k] Hlt; [assumption|]. apply Hk. simpl in *. lia.
    + intros [Hk Hc]. apply IH. split; [|assumption].
      intros k Hlt. apply (Hk (S k)). simpl in *. lia.
Qed.

Lemma balanced_paren_list (l : list Token) :
  l <> [] -> (balanced l <-> paren_list l 0 = Some 0).
Proof.
  intros Hne. unfold balanced. symmetry. now apply paren_list_Some.
Qed.

(** ** The operator the scan selects *)

Lemma dominant_spec (l : list Token) :
  forall i op cur mx,
  (dominant l i op cur mx = op /\
   forall k t, nth_error l k = Some t -> depth_at cur l k = 0 ->
               precedence t < mx)
  \/
  (exists k t,
     nth_error l k = Some t /\
     dominant l i op cur mx = i + Z.of_nat k /\
     depth_at cur l k = 0 /\
     mx <= precedence t /\
     (forall j u, nth_error l j = Some u -> depth_at cur l j = 0 ->
                  precedence u <= precedence t) /\
     (forall j u, (k < j)%nat -> nth_error l j = Some u ->
                  depth_at cur l j = 0 -> precedence u < precedence t)).
Proof.
  induction l as [|t l IH]; intros i op cur mx.
  - left. split; [reflexivity|]. intros [|k] u H; discriminate.
  - simpl dominant.
    destruct (Z.eqb_spec (step_depth t cur) 0) as [Hd|Hd];
      [destruct (Z.geb_spec (precedence t) mx) as [Hp|Hp]|]; cbn [andb].
    + destruct (IH (i + 1) i (step_depth t cur) (precedence t))
        as [[Hr Hnone]|(k & u & Hk & Hr & Hdk & Hmx & Hall & Hlater)].
      * right. exists 0%nat, t.
        split; [reflexivity|]. split; [rewrite Hr; lia|].
        split; [assumption|]. split; [lia|]. split.
        -- intros [|j] u Hj Hdj; simpl in Hj, Hdj.
           ++ inversion Hj. lia.
           ++ specialize (Hnone j u Hj Hdj). lia.
        -- intros [|j] u Hlt Hj Hdj; [lia|]. simpl in Hj, Hdj.
           exact (Hnone j u Hj Hdj).
      * right. exists (S k), u.
        split; [assumption|]. split; [rewrite Hr; lia|].
        split; [assumption|]. split; [lia|]. split.
        -- intros [|j] w Hj Hdj; simpl in Hj, Hdj.
           ++ inversion Hj. subst. lia.
           ++ exact (Hall j w Hj Hdj).
        -- intros [|j] w Hlt Hj Hdj; [lia|]. simpl in Hj, Hdj.
           apply (Hlater j w); [lia | assumption | assumption].
    + destruct (IH (i + 1) op (step_depth t cur) mx)
        as [[Hr Hnone]|(k & u & Hk & Hr & Hdk & Hmx & Hall & Hlater)].
      * left. split; [assumption|].
        intros [|j] u Hj Hdj; simpl in Hj, Hdj.
        -- inversion Hj. subst. lia.
        -- exact (Hnone j u Hj Hdj).
      * right. exists (S k), u.
        split; [assumption|]. split; [rewrite Hr; lia|].
        split; [assumption|]. split; [lia|]. split.
        -- intros [|j] w Hj Hdj; simpl in Hj, Hdj.
           ++ inversion Hj. subst. lia.
           ++ exact (Hall j w Hj Hdj).
        -- intros [|j] w Hlt Hj Hdj; [lia|]. simpl in Hj, Hdj.
           apply (Hlater j w); [lia | assumption | assumption].
    + destruct (IH (i + 1) op (step_depth t cur) mx)
        as [[Hr Hnone]|(k & u & Hk & Hr & Hdk & Hmx & Hall & Hlater)].
      * left. split; [assumption|].
        intros [|j] u Hj Hdj; simpl in Hj, Hdj.
        -- congruence.
        -- exact (Hnone j u Hj Hdj).
      * right. exists (S k), u.
        split; [assumption|]. split; [rewrite Hr; lia|].
        split; [assumption|]. split; [lia|]. split.
        -- intros [|j] w Hj Hdj; simpl in Hj, Hdj.
           ++ congruence.
           ++ exact (Hall j w Hj Hdj).
        -- intros [|j] w Hlt Hj Hdj; [lia|]. simpl in Hj, Hdj.
           apply (Hlater j w); [lia | assumption | assumption].
Qed.

(** ** check_parentheses on a range inside the array *)

Lemma range_length (ts : list Token) (p q : Z) :
  0 <= p -> p <= q -> (Z.to_nat q < List.length ts)%nat ->
  List.length (range ts p q) = Z.to_nat (q - p + 1).
Proof.
  intros Hp Hpq Hq. unfold range. apply segment_length; lia.
Qed.

Lemma range_nth (ts : list Token) (p q j : Z) :
  0 <= p -> p <= j <= q ->
  nth_error (range ts p q) (Z.to_nat (j - p)) = nth_error ts (Z.to_nat j).
Proof.
  intros Hp Hj. unfold range. rewrite segment_nth; [|lia|lia].
  f_equal. lia.
Qed.

Lemma range_nth_tok (ts : list Token) (p q j : Z) (t : Token) :
  0 <= p -> p <= j <= q -> tok ts j = Ret t ->
  nth_error (range ts p q) (Z.to_nat (j - p)) = Some t.
Proof.
  intros Hp Hj Ht. rewrite range_nth by assumption.
  now apply tok_inv in Ht.
Qed.

Lemma range_first (ts : list Token) (p q : Z) (t : Token) (c : ascii) :
  0 <= p -> p <= q -> tok ts p = Ret t ->
  first_is c (range ts p q) = (type t =? ch c).
Proof.
  intros Hp Hpq Ht.
  pose proof (range_nth_tok ts p q p t Hp ltac:(lia) Ht) as H.
  replace (Z.to_nat (p - p)) with 0%nat in H by lia.
  unfold first_is. destruct (range ts p q); simpl in H; [discriminate|].
  now inversion H.
Qed.

Lemma range_last (ts : list Token) (p q : Z) (t : Token) (c : ascii) :
  0 <= p -> p <= q -> tok ts q = Ret t ->
  last_is c (range ts p q) = (type t =? ch c).
Proof.
  intros Hp Hpq Ht.
  pose proof (range_nth_tok ts p q q t Hp ltac:(lia) Ht) as H.
  destruct (tok_bounds _ _ _ Ht) as [_ Hq].
  unfold last_is. rewrite range_length by assumption.
  replace (Z.to_nat (q - p + 1) - 1)%nat with (Z.to_nat (q - p)) by lia.
  now rewrite H.
Qed.

Lemma range_nonempty (ts : list Token) (p q : Z) :
  0 <= p -> p <= q -> (Z.to_nat q < List.length ts)%nat -> range ts p q <> [].
Proof.
  intros Hp Hpq Hq E. apply (f_equal (@List.length Token)) in E.
  rewrite range_length in E by assumption. simpl in E. lia.
Qed.

(** The verdict of [check_parentheses] in terms of the tokens of the range:
    wrapped exactly when the range is balanced and framed. *)
Lemma check_parentheses_spec (ts : list Token) (p q : Z) (err : option Z) :
  0 <= p -> p < q -> (Z.to_nat q < List.length ts)%nat ->
  check_parentheses ts p q err =
  Ret (match paren_list (range ts p q) 0 with
       | Some c =>
           if negb (c =? 0) then (false, Some BAD_EXPR)
           else if framed (range ts p q) then (true, err)
           else (false, Some NOT_SURROUND)
       | None => (false, Some BAD_EXPR)
       end).
Proof.
  intros Hp Hpq Hq. unfold check_parentheses.
  destruct (Z.geb_spec p q); [lia|].
  rewrite paren_scan_segment by lia. simpl bind. fold (range ts p q).
  destruct (paren_list (range ts p q) 0) as [c|]; [|reflexivity].
  destruct (negb (c =? 0)); [reflexivity|].
  destruct (tok_in_bounds ts p Hp) as [tp Htp]; [lia|].
  destruct (tok_in_bounds ts q) as [tq Htq]; [lia|assumption|].
  rewrite Htp, Htq. simpl bind. unfold framed.
  rewrite (range_first ts p q tp) by (assumption || lia).
  rewrite (range_last ts p q tq) by (assumption || lia).
  destruct ((type tp =? ch "(") && (type tq =? ch ")")); reflexivity.
Qed.

Lemma check_parentheses_wrapped_iff (ts : list Token) (p q : Z) (err : option Z) :
  0 <= p -> p < q -> (Z.to_nat q < List.length ts)%nat ->
  (check_parentheses ts p q err = Ret (true, err) <->
   balanced (range ts p q) /\ framed (range ts p q) = true).
Proof.
  intros Hp Hpq Hq. rewrite check_parentheses_spec by assumption.
  rewrite balanced_paren_list by (apply range_nonempty; lia).
  destruct (paren_list (range ts p q) 0) as [c|].
  - destruct (Z.eqb_spec c 0) as [->|Hc]; simpl.
    + destruct (framed (range ts p q)); split.
      * intros _. split; reflexivity.
      * reflexivity.
      * discriminate.
      * intros [_ H]. discriminate.
    + split; [discriminate|]. intros [H _]. congruence.
  - split; [discriminate|]. intros [H _]. discriminate.
Qed.

Lemma check_parentheses_not_surround (ts : list Token) (p q : Z) (err : option Z) :
  0 <= p -> p < q -> (Z.to_nat q < List.length ts)%nat ->
  balanced (range ts p q) -> framed (range ts p q) = false ->
  check_parentheses ts p q err = Ret (false, Some NOT_SURROUND).
Proof.
  intros Hp Hpq Hq Hb Hf. rewrite check_parentheses_spec by assumption.
  apply balanced_paren_list in Hb; [|apply range_nonempty; lia].
  now rewrite Hb, Hf.
Qed.

(** ** The split at the dominant operator *)

Lemma well_levelled_nth (ts : list Token) (k : nat) (t : Token) :
  well_levelled ts -> nth_error ts k = Some t -> 0 <= precedence t.
Proof.
  intros Hw H. unfold well_levelled in Hw. rewrite Forall_forall in Hw.
  apply Hw. eapply nth_error_In. eassumption.
Qed.

(** On a balanced range of well-levelled tokens the scan selects an index of
    the range at depth zero, whose binding level is the largest at depth
    zero and strictly larger than any to its right. *)
Lemma op_scan_dominant (ts : list Token) (p q : Z) :
  0 <= p -> p <= q -> (Z.to_nat q < List.length ts)%nat ->
  well_levelled ts -> balanced (range ts p q) ->
  exists op top,
    op_scan ts (Z.to_nat (q - p + 1)) p 0 0 (-1) = Ret op /\
    p <= op <= q /\ tok ts op = Ret top /\
    depth ts p q op = 0 /\
    (forall j u, p <= j <= q -> tok ts j = Ret u -> depth ts p q j = 0 ->
                 precedence u <= precedence top) /\
    (forall j u, op < j <= q -> tok ts j = Ret u -> depth ts p q j = 0 ->
                 precedence u < precedence top).
Proof.
  intros Hp Hpq Hq Hw [_ Hend].
  rewrite op_scan_segment by lia. fold (range ts p q).
  pose proof (range_length ts p q Hp Hpq Hq) as Hlen.
  destruct (dominant_spec (range ts p q) p 0 0 (-1))
    as [[_ Hnone]|(k & t & Hk & Hr & Hdk & _ & Hall & Hlater)].
  - exfalso.
    destruct (tok_in_bounds ts q) as [tq Htq]; [lia|assumption|].
    pose proof (range_nth_tok ts p q q tq Hp ltac:(lia) Htq) as Hn.
    rewrite Hlen in Hend.
    replace (Z.to_nat (q - p + 1) - 1)%nat with (Z.to_nat (q - p)) in Hend by lia.
    specialize (Hnone _ _ Hn Hend).
    apply tok_inv in Htq. destruct Htq as [_ Htq].
    pose proof (well_levelled_nth _ _ _ Hw Htq). lia.
  - assert (Hklt : (k < Z.to_nat (q - p + 1))%nat).
    { rewrite <- Hlen. apply nth_error_Some. congruence. }
    assert (Hkt : tok ts (p + Z.of_nat k) = Ret t).
    { apply tok_nth; [lia|].
      rewrite <- (range_nth ts p q (p + Z.of_nat k)) by lia.
      replace (Z.to_nat (p + Z.of_nat k - p)) with k by lia. assumption. }
    exists (p + Z.of_nat k), t.
    split; [now rewrite Hr|]. split; [lia|]. split; [assumption|].
    split; [|split].
    + unfold depth. replace (Z.to_nat (p + Z.of_nat k - p)) with k by lia.
      assumption.
    + intros j u Hj Hu Hd. apply (Hall (Z.to_nat (j - p))).
      * now apply range_nth_tok.
      * exact Hd.
    + intros j u Hj Hu Hd. apply (Hlater (Z.to_nat (j - p))).
      * lia.
      * apply range_nth_tok; [assumption|lia|assumption].
      * exact Hd.
Qed.

(** ** The tokenizer *)

Lemma longest_bounds (s : list ascii) :
  forall r n best k, longest r s n best = Some k ->
  Some k = best \/
  ((n <= k <= n + List.length s)%nat /\ (k = n -> nullable r = true)).
Proof.
  induction s as [|c s IH]; intros r n best k H.
  - simpl in H. destruct (nullable r) eqn:E.
    + inversion H. subst. right. split; [simpl; lia | reflexivity].
    + left. now symmetry.
  - assert (Hstep :
      (if nullable r then Some n else best) = Some k \/
      longest (deriv r c) s (S n) (if nullable r then Some n else best) = Some k).
    { destruct r; simpl in H |- *; auto. }
    assert (Hbest : (if nullable r then Some n else best) = Some k ->
                    Some k = best \/
                    ((n <= k <= n + List.length (c :: s))%nat /\
                     (k = n -> nullable r = true))).
    { intros Hb. destruct (nullable r).
      - inversion Hb. subst. right. split; [simpl; lia | reflexivity].
      - left. now symmetry. }
    destruct Hstep as [Hb|Hl]; [now apply Hbest|].
    apply IH in Hl. destruct Hl as [Hb|[Hk _]]; [apply Hbest; now symmetry|].
    right. split; [simpl; lia | lia].
Qed.

Lemma regexec_at0_bounds (r : regex) (s : list ascii) (len : nat) :
  nullable r = false -> regexec_at0 r s = Some len ->
  (1 <= len <= List.length s)%nat.
Proof.
  intros Hn H. apply longest_bounds in H. destruct H as [H|[Hk Hz]].
  - discriminate.
  - destruct len; [|lia]. rewrite Hz in Hn by reflexivity. discriminate.
Qed.

Lemma first_match_bounds (rs : list rule) (s : list ascii) (r : rule) (len : nat) :
  Forall (fun r => nullable (regex_of r) = false) rs ->
  first_match rs s = Some (r, len) ->
  (1 <= len <= List.length s)%nat /\ In r rs.
Proof.
  induction rs as [|r0 rs IH]; intros Hrs H; [discriminate|].
  inversion Hrs as [|? ? Hr0 Hrs']; subst. simpl in H.
  destruct (regexec_at0 (regex_of r0) s) as [l|] eqn:E.
  - inversion H. subst. split; [now apply (regexec_at0_bounds (regex_of r)) | now left].
  - destruct (IH Hrs' H) as [Hl Hin]. split; [assumption | now right].
Qed.

Lemma rules_not_nullable :
  Forall (fun r => nullable (regex_of r) = false) rules.
Proof. repeat constructor. Qed.

(** Every rule consumes at least one character. *)
Lemma rules_match_bounds (s : list ascii) (r : rule) (len : nat) :
  first_match rules s = Some (r, len) -> (1 <= len <= List.length s)%nat.
Proof.
  intros H. now apply (first_match_bounds rules s r len rules_not_nullable).
Qed.

Lemma put_operator_inv (ts ts' : list Token) (nr nr' tt lv : Z) :
  put_operator ts nr tt lv = Ret (ts', nr') -> 0 <= lv ->
  well_levelled ts ->
  well_levelled ts' /\ List.length ts' = List.length ts /\ nr' = nr + 1 /\
  0 <= nr /\ (Z.to_nat nr < List.length ts)%nat.
Proof.
  unfold put_operator. intros H Hlv Hw.
  bind_inv H. bind_inv H. inversion H. subst.
  split; [|split; [|split; [|exact (tok_set_bound _ _ _ _ Ha)]]].
  - eapply tok_set_Forall; [eassumption | intros; simpl; assumption |].
    eapply tok_set_Forall; [eassumption | intros t Ht; exact Ht | assumption].
  - erewrite tok_set_length by eassumption. eapply tok_set_length; eassumption.
  - reflexivity.
Qed.

Lemma put_literal_inv (ts ts' : list Token) (nr nr' tt : Z)
    (s : list ascii) (len : nat) :
  put_literal ts nr tt s len = Ret (ts', nr') ->
  well_levelled ts ->
  well_levelled ts' /\ List.length ts' = List.length ts /\ nr' = nr + 1 /\
  0 <= nr /\ (Z.to_nat nr < List.length ts)%nat.
Proof.
  unfold put_literal. intros H Hw.
  bind_inv H. bind_inv H. bind_inv H. bind_inv H. bind_inv H.
  inversion H. subst.
  split; [|split; [|split; [|exact (tok_set_bound _ _ _ _ Ha)]]].
  - eapply tok_set_Forall; [eassumption | intros; simpl; unfold OP_LV0; lia |].
    eapply tok_set_Forall; [eassumption | intros t Ht; exact Ht |].
    eapply tok_set_Forall; [eassumption | intros t Ht; exact Ht | assumption].
  - erewrite tok_set_length by eassumption.
    erewrite tok_set_length by eassumption.
    eapply tok_set_length; eassumption.
  - reflexivity.
Qed.

Lemma record_token_inv (ts ts' : list Token) (nr nr' tt : Z)
    (s : list ascii) (len : nat) :
  record_token ts nr tt s len = Ret (ts', nr') ->
  well_levelled ts ->
  well_levelled ts' /\ List.length ts' = List.length ts /\
  nr <= nr' <= nr + 1 /\
  ((Z.to_nat nr <= List.length ts)%nat -> (Z.to_nat nr' <= List.length ts')%nat).
Proof.
  unfold record_token. intros H Hw.
  repeat match type of H with
         | (if ?b then _ else _) = _ => destruct b
         end;
    try discriminate;
    try (inversion H; subst; repeat split; (assumption || lia));
    try (apply put_literal_inv in H; [|assumption];
         destruct H as (? & ? & ? & ? & ?); repeat split; (assumption || lia));
    (apply put_operator_inv in H; [| vm_compute; discriminate | assumption];
     destruct H as (? & ? & ? & ? & ?); repeat split; (assumption || lia)).
Qed.

Lemma lex_one_inv (e : string) (c c' : cursor) :
  lex_one e c = Ret (inl c') ->
  well_levelled (tokens (mach c)) ->
  well_levelled (tokens (mach c')) /\
  List.length (tokens (mach c')) = List.length (tokens (mach c)) /\
  nr_token (mach c) <= nr_token (mach c') <= nr_token (mach c) + 1 /\
  ((Z.to_nat (nr_token (mach c)) <= List.length (tokens (mach c)))%nat ->
   (Z.to_nat (nr_token (mach c')) <= List.length (tokens (mach c')))%nat) /\
  printed (mach c') = printed (mach c) /\
  (List.length (rest c') < List.length (rest c))%nat /\
  (exists len, rest c' = skipn len (rest c) /\
               position c' = position c + Z.of_nat len /\
               (len <= List.length (rest c))%nat).
Proof.
  unfold lex_one. intros H Hw.
  destruct (first_match rules (rest c)) as [[r len]|] eqn:E; [|discriminate].
  apply rules_match_bounds in E.
  bind_inv H. destruct a as [ts nr]. inversion H. subst. simpl.
  apply record_token_inv in Ha; [|assumption].
  destruct Ha as (Hw' & Hl & Hnr & Hfit).
  repeat (split; [assumption || lia|]).
  split; [reflexivity|]. split.
  - rewrite length_skipn. lia.
  - exists len. repeat split; lia.
Qed.

Lemma make_token_loop_inv (fuel : nat) (e : string) :
  forall c ok m, make_token_loop fuel e c = Ret (ok, m) ->
  well_levelled (tokens (mach c)) ->
  well_levelled (tokens m) /\
  List.length (tokens m) = List.length (tokens (mach c)) /\
  nr_token (mach c) <= nr_token m /\
  ((Z.to_nat (nr_token (mach c)) <= List.length (tokens (mach c)))%nat ->
   (Z.to_nat (nr_token m) <= List.length (tokens m))%nat).
Proof.
  induction fuel as [|fuel IH]; intros c ok m H Hw; [discriminate|].
  simpl in H. destruct (rest c) eqn:Er.
  - inversion H. subst. repeat split; (assumption || lia).
  - bind_inv H. destruct a0 as [c'|m'].
    + apply lex_one_inv in Ha; [|assumption].
      destruct Ha as (Hw' & Hl' & Hnr & Hfit & _).
      apply IH in H; [|assumption]. destruct H as (Hw2 & Hl2 & Hnr2 & Hfit2).
      repeat split; try (assumption || lia); auto.
    + inversion H. subst. unfold lex_one in Ha.
      destruct (first_match rules (rest c)) as [[r len]|].
      * bind_inv Ha. destruct a0. discriminate.
      * inversion Ha. subst. simpl. repeat split; (assumption || lia).
Qed.

Lemma make_token_inv (m m' : machine) (e : string) (ok : bool) :
  make_token m e = Ret (ok, m') -> well_levelled (tokens m) ->
  well_levelled (tokens m') /\ List.length (tokens m') = List.length (tokens m) /\
  0 <= nr_token m' /\ (Z.to_nat (nr_token m') <= List.length (tokens m'))%nat.
Proof.
  unfold make_token. intros H Hw. apply make_token_loop_inv in H; [|assumption].
  simpl in H. destruct H as (H1 & H2 & H3 & H4).
  repeat split; try assumption. apply H4. lia.
Qed.

(** The loop of [make_token] ends: its fuel is never used up. *)
Lemma make_token_loop_total (fuel : nat) (e : string) :
  forall c, (List.length (rest c) < fuel)%nat ->
  make_token_loop fuel e c <> OutOfFuel.
Proof.
  induction fuel as [|fuel IH]; intros c Hf; [lia|].
  simpl. destruct (rest c) eqn:Er; [discriminate|].
  unfold lex_one.
  destruct (first_match rules (rest c)) as [[r len]|] eqn:E.
  - apply rules_match_bounds in E.
    destruct (record_token _ _ _ _ _) as [[ts nr]| | | |] eqn:Ert;
      simpl; try discriminate.
    + apply IH. simpl. rewrite length_skipn. rewrite Er in E |- *. lia.
    + unfold record_token in Ert.
      repeat match type of Ert with
             | (if ?b then _ else _) = _ => destruct b
             end; try discriminate;
        unfold put_operator, put_literal, tok_set, tok, strncpy in Ert;
        repeat match type of Ert with
               | context [if ?b then _ else _] => destruct b; simpl in Ert
               | context [match ?x with _ => _ end] => destruct x; simpl in Ert
               end; discriminate.
  - simpl. discriminate.
Qed.

Lemma make_token_total (m : machine) (e : string) :
  make_token m e <> OutOfFuel.
Proof. unfold make_token. apply make_token_loop_total. simpl. lia. Qed.

(** ** The loop of expr that recognises the unary operators *)

Lemma tok_app (pre post : list Token) (t : Token) :
  tok (pre ++ t :: post) (Z.of_nat (List.length pre)) = Ret t.
Proof.
  apply tok_nth; [lia|]. rewrite Nat2Z.id.
  rewrite nth_error_app2 by lia. now rewrite Nat.sub_diag.
Qed.

Lemma update_app {A : Type} (f : A -> A) (pre post : list A) (x : A) :
  update (pre ++ x :: post) (List.length pre) f = Some (pre ++ f x :: post).
Proof.
  induction pre as [|y pre IH]; simpl; [reflexivity|]. now rewrite IH.
Qed.

Lemma tok_set_app (pre post : list Token) (t : Token) (f : Token -> Token) :
  tok_set (pre ++ t :: post) (Z.of_nat (List.length pre)) f =
  Ret (pre ++ f t :: post).
Proof.
  unfold tok_set. destruct (Z.ltb_spec (Z.of_nat (List.length pre)) 0); [lia|].
  now rewrite Nat2Z.id, update_app.
Qed.

Lemma unary_position_app (pre post : list Token) :
  unary_position (pre ++ post) (Z.of_nat (List.length pre)) =
  Ret (unary_after pre).
Proof.
  unfold unary_position, unary_after.
  destruct (Z.eqb_spec (Z.of_nat (List.length pre)) 0) as [E|E].
  - destruct pre; [reflexivity | simpl in E; lia].
  - assert (Hlen : (0 < List.length pre)%nat) by lia.
    destruct (nth_error pre (List.length pre - 1)) as [u|] eqn:Eu.
    + rewrite (tok_nth _ _ u); [reflexivity | lia |].
      replace (Z.to_nat (Z.of_nat (List.length pre) - 1))
        with (List.length pre - 1)%nat by lia.
      rewrite nth_error_app1 by lia. assumption.
    + apply nth_error_None in Eu. lia.
Qed.

Lemma retype_app (pre post : list Token) (t : Token) (from to lv : Z) :
  retype (pre ++ t :: post) (Z.of_nat (List.length pre)) from to lv =
  Ret (pre ++
       (if (type t =? from) && unary_after pre
        then {| type := to; str := str t; precedence := lv |} else t) :: post).
Proof.
  unfold retype. rewrite tok_app. simpl bind.
  destruct (type t =? from); [|reflexivity].
  rewrite unary_position_app. simpl bind.
  destruct (unary_after pre); [|reflexivity].
  rewrite tok_set_app. simpl bind. rewrite tok_set_app. reflexivity.
Qed.

Lemma reclassify_two_steps (u : bool) (t : Token) :
  let t1 := if (type t =? ch "*") && u
            then {| type := TK_DEREFERENCE; str := str t; precedence := OP_LV2_2 |}
            else t in
  (if (type t1 =? ch "-") && u
   then {| type := TK_MINUS; str := str t1; precedence := OP_LV2_1 |} else t1)
  = reclassify u t.
Proof.
  unfold reclassify. destruct ((type t =? ch "*") && u) eqn:E; simpl.
  - reflexivity.
  - reflexivity.
Qed.

Lemma unary_after_snoc (pre : list Token) (t : Token) :
  unary_after (pre ++ [t]) = check_unary (type t).
Proof.
  unfold unary_after. rewrite length_app. simpl.
  replace (List.length pre + 1 - 1)%nat with (List.length pre) by lia.
  rewrite nth_error_app2 by lia. now rewrite Nat.sub_diag.
Qed.

(** The loop rewrites the [n] tokens after those already visited, each from
    its own kind and the kind of its predecessor, and nothing else. *)
Lemma mark_unary_app (n : nat) :
  forall pre post, (n <= List.length post)%nat ->
  mark_unary n (Z.of_nat (List.length pre)) (pre ++ post) =
  Ret (pre ++ reclassify_from (unary_after pre) (firstn n post) ++ skipn n post).
Proof.
  induction n as [|n IH]; intros pre post Hn.
  - reflexivity.
  - destruct post as [|t post]; [simpl in Hn; lia|].
    simpl mark_unary. rewrite retype_app. simpl bind.
    rewrite retype_app. simpl bind.
    rewrite reclassify_two_steps.
    replace (Z.of_nat (List.length pre) + 1)
      with (Z.of_nat (List.length (pre ++ [reclassify (unary_after pre) t])))
      by (rewrite length_app; simpl; lia).
    replace (pre ++ reclassify (unary_after pre) t :: post)
      with ((pre ++ [reclassify (unary_after pre) t]) ++ post)
      by (now rewrite <- app_assoc).
    rewrite IH by (simpl in Hn; lia).
    rewrite unary_after_snoc, <- app_assoc. reflexivity.
Qed.

Lemma check_unary_kinds (tt : Z) :
  check_unary tt = existsb (Z.eqb tt) unary_kinds.
Proof.
  unfold check_unary, unary_kinds. simpl existsb.
  rewrite orb_false_r, !orb_assoc. reflexivity.
Qed.

(** A reclassified token puts its successor in unary context exactly when
    the original did. *)
Lemma check_unary_reclassify (u : bool) (t : Token) :
  check_unary (type (reclassify u t)) = check_unary (type t).
Proof.
  unfold reclassify. destruct u.
  - rewrite !andb_true_r.
    destruct (Z.eqb_spec (type t) (ch "*")) as [E|E];
      [simpl; now rewrite E|].
    destruct (Z.eqb_spec (type t) (ch "-")) as [E'|E'];
      [simpl; now rewrite E' | reflexivity].
  - now rewrite !andb_false_r.
Qed.

Lemma reclassify_from_length (l : list Token) :
  forall u, List.length (reclassify_from u l) = List.length l.
Proof.
  induction l as [|t l IH]; intros u; simpl; [reflexivity|]. now rewrite IH.
Qed.

Lemma reclassify_from_nth (l : list Token) :
  forall u k t, nth_error l k = Some t ->
  nth_error (reclassify_from u l) k =
  Some (reclassify (match k with
                    | O => u
                    | S _ => in_unary_context l k
                    end) t).
Proof.
  induction l as [|x l IH]; intros u k t H; [destruct k; discriminate|].
  destruct k as [|k]; simpl in H.
  - inversion H. reflexivity.
  - simpl reclassify_from. simpl nth_error.
    rewrite (IH _ k t H). rewrite check_unary_reclassify.
    destruct k as [|k]; simpl.
    + now rewrite check_unary_kinds.
    + reflexivity.
Qed.

Lemma reclassify_well_levelled (u : bool) (t : Token) :
  0 <= precedence t -> 0 <= precedence (reclassify u t).
Proof.
  unfold reclassify. intros H.
  destruct ((type t =? ch "*") && u); [simpl; unfold OP_LV2_2; lia|].
  destruct ((type t =? ch "-") && u); [simpl; unfold OP_LV2_1; lia|].
  assumption.
Qed.

Lemma reclassify_from_well_levelled (l : list Token) :
  forall u, well_levelled l -> well_levelled (reclassify_from u l).
Proof.
  induction l as [|t l IH]; intros u H; [constructor|].
  inversion H; subst. constructor.
  - now apply reclassify_well_levelled.
  - now apply IH.
Qed.

Lemma recognise_unary_inv (m m' : machine) :
  recognise_unary m = Ret m' ->
  well_levelled (tokens m) ->
  (Z.to_nat (nr_token m) <= List.length (tokens m))%nat ->
  well_levelled (tokens m') /\ List.length (tokens m') = List.length (tokens m) /\
  nr_token m' = nr_token m /\ printed m' = printed m.
Proof.
  unfold recognise_unary. intros H Hw Hn.
  pose proof (mark_unary_app (Z.to_nat (nr_token m)) [] (tokens m) Hn) as Hm.
  simpl in Hm. rewrite Hm in H. simpl in H. inversion H. subst. simpl.
  split; [|split; [|split; reflexivity]].
  - unfold well_levelled in Hw.
    rewrite <- (firstn_skipn (Z.to_nat (nr_token m)) (tokens m)) in Hw.
    apply Forall_app in Hw. destruct Hw as [Hw1 Hw2].
    apply Forall_app. split; [now apply reclassify_from_well_levelled | assumption].
  - rewrite length_app, reclassify_from_length, length_firstn, length_skipn. lia.
Qed.

Lemma mark_unary_run (ts : list Token) (n : nat) :
  (n <= List.length ts)%nat ->
  mark_unary n 0 ts =
  Ret (reclassify_from true (firstn n ts) ++ skipn n ts).
Proof.
  intros Hn. exact (mark_unary_app n [] ts Hn).
Qed.

Lemma in_unary_context_firstn (ts : list Token) (n i : nat) :
  (i < n)%nat -> in_unary_context (firstn n ts) i = in_unary_context ts i.
Proof.
  intros Hi. destruct i as [|j]; [reflexivity|]. simpl.
  rewrite nth_error_firstn. destruct (Nat.ltb_spec j n); [reflexivity | lia].
Qed.

Lemma mark_unary_nth (ts ts' : list Token) (n i : nat) (t : Token) :
  (n <= List.length ts)%nat -> mark_unary n 0 ts = Ret ts' ->
  (i < n)%nat -> nth_error ts i = Some t ->
  nth_error ts' i = Some (reclassify (in_unary_context ts i) t).
Proof.
  intros Hn Hm Hi Ht. rewrite mark_unary_run in Hm by assumption.
  inversion Hm. subst ts'.
  rewrite nth_error_app1
    by (rewrite reclassify_from_length, length_firstn; lia).
  assert (Hf : nth_error (firstn n ts) i = Some t).
  { rewrite nth_error_firstn. destruct (Nat.ltb_spec i n); [assumption | lia]. }
  rewrite (reclassify_from_nth _ true i t Hf).
  destruct i as [|j]; [reflexivity|].
  now rewrite in_unary_context_firstn.
Qed.

Lemma mark_unary_beyond (ts ts' : list Token) (n i : nat) :
  (n <= List.length ts)%nat -> mark_unary n 0 ts = Ret ts' ->
  (n <= i)%nat -> nth_error ts' i = nth_error ts i.
Proof.
  intros Hn Hm Hi. rewrite mark_unary_run in Hm by assumption.
  inversion Hm. subst ts'.
  rewrite nth_error_app2
    by (rewrite reclassify_from_length, length_firstn; lia).
  rewrite reclassify_from_length, length_firstn, nth_error_skipn.
  f_equal. lia.
Qed.

(** C6.  The loop of [expr] over the [nr_token] tokens goes once from left
    to right and turns every [*] that is the first token, or whose
    predecessor's kind is one of [(], [+], [-], [*], [/], unary minus and
    dereference, into a dereference of binding level 22, and every [-] in
    the same position into a unary minus of level 21.  Every other token,
    the text of every token and the tokens past [nr_token] are left as they
    were; a token's context is the same whether its predecessor is looked at
    before or after the loop; and what the loop made of the first [k] tokens
    after [k] rounds is what they are at the end. *)
Theorem recognise_unary_reclassifies (m : machine) :
  0 <= nr_token m ->
  (Z.to_nat (nr_token m) <= List.length (tokens m))%nat ->
  exists ts',
    recognise_unary m =
      Ret {| tokens := ts'; nr_token := nr_token m; printed := printed m |} /\
    List.length ts' = List.length (tokens m) /\
    (forall i t, (i < Z.to_nat (nr_token m))%nat ->
       nth_error (tokens m) i = Some t ->
       (type t = ch "*" -> in_unary_context (tokens m) i = true ->
        nth_error ts' i =
        Some {| type := TK_DEREFERENCE; str := str t; precedence := 22 |}) /\
       (type t = ch "-" -> in_unary_context (tokens m) i = true ->
        nth_error ts' i =
        Some {| type := TK_MINUS; str := str t; precedence := 21 |}) /\
       ((type t <> ch "*" /\ type t <> ch "-") \/
        in_unary_context (tokens m) i = false ->
        nth_error ts' i = Some t) /\
       in_unary_context ts' i = in_unary_context (tokens m) i) /\
    (forall i, (Z.to_nat (nr_token m) <= i)%nat ->
       nth_error ts' i = nth_error (tokens m) i) /\
    (forall k tsk i, (k <= Z.to_nat (nr_token m))%nat ->
       mark_unary k 0 (tokens m) = Ret tsk -> (i < k)%nat ->
       nth_error ts' i = nth_error tsk i).
Proof.
  intros H0 Hn. set (n := Z.to_nat (nr_token m)) in *.
  set (ts := tokens m) in *.
  pose proof (mark_unary_run ts n Hn) as Hrun.
  exists (reclassify_from true (firstn n ts) ++ skipn n ts).
  split; [unfold recognise_unary; fold n; fold ts; now rewrite Hrun|].
  split; [rewrite length_app, reclassify_from_length, length_firstn, length_skipn; lia|].
  split; [|split].
  - intros i t Hi Ht.
    pose proof (mark_unary_nth ts _ n i t Hn Hrun Hi Ht) as Hnth.
    split; [|split; [|split]].
    + intros E Hc. rewrite Hnth, Hc. unfold reclassify. now rewrite E.
    + intros E Hc. rewrite Hnth, Hc. unfold reclassify. now rewrite E.
    + intros Hc. rewrite Hnth. unfold reclassify.
      destruct Hc as [[H1 H2]|Hc].
      * destruct (Z.eqb_spec (type t) (ch "*")); [contradiction|].
        destruct (Z.eqb_spec (type t) (ch "-")); [contradiction|]. reflexivity.
      * rewrite Hc, !andb_false_r. reflexivity.
    + destruct i as [|j]; [reflexivity|]. cbn [in_unary_context].
      destruct (nth_error ts j) as [u|] eqn:Eu.
      * rewrite (mark_unary_nth ts _ n j u Hn Hrun ltac:(lia) Eu).
        rewrite <- !check_unary_kinds. apply check_unary_reclassify.
      * apply nth_error_None in Eu. lia.
  - intros i Hi. now apply (mark_unary_beyond ts _ n i Hn Hrun).
  - intros k tsk i Hk Hm Hi.
    destruct (nth_error ts i) as [t|] eqn:Et.
    + rewrite (mark_unary_nth ts _ n i t Hn Hrun ltac:(lia) Et).
      now rewrite (mark_unary_nth ts tsk k i t ltac:(lia) Hm Hi Et).
    + apply nth_error_None in Et. lia.
Qed.

(** ** Number literals *)

Lemma digit_value_range (c : ascii) (d : Z) :
  digit_value c = Some d -> 0 <= d <= 9.
Proof.
  unfold digit_value, in_range, ch. intros H.
  destruct (N.leb_spec (N_of_ascii "0") (N_of_ascii c)) as [H1|];
    [|discriminate].
  destruct (N.leb_spec (N_of_ascii c) (N_of_ascii "9")) as [H2|];
    [|discriminate].
  simpl in H, H1, H2. inversion H. lia.
Qed.

Lemma xdigit_value_range (c : ascii) (d : Z) :
  xdigit_value c = Some d -> 0 <= d <= 15.
Proof.
  unfold xdigit_value, in_range, ch. intros H.
  destruct (N.leb_spec (N_of_ascii "0") (N_of_ascii c)) as [H1|H1];
    destruct (N.leb_spec (N_of_ascii c) (N_of_ascii "9")) as [H2|H2];
    destruct (N.leb_spec (N_of_ascii "a") (N_of_ascii c)) as [H3|H3];
    destruct (N.leb_spec (N_of_ascii c) (N_of_ascii "f")) as [H4|H4];
    destruct (N.leb_spec (N_of_ascii "A") (N_of_ascii c)) as [H5|H5];
    destruct (N.leb_spec (N_of_ascii c) (N_of_ascii "F")) as [H6|H6];
    simpl in *; try discriminate; inversion H; lia.
Qed.

Lemma digits_value_scan (dv : ascii -> option Z) (base : Z) (s : list ascii) :
  forall acc n k, digits_value dv base s acc = Some n ->
  scan_digits dv base s acc k = (n, (k + List.length s)%nat).
Proof.
  induction s as [|c s IH]; intros acc n k H; simpl in *.
  - inversion H. f_equal. lia.
  - destruct (dv c) as [d|]; [|discriminate].
    rewrite (IH _ _ _ H). f_equal. lia.
Qed.

Lemma digits_value_nonneg (dv : ascii -> option Z) (base : Z) (s : list ascii) :
  (forall c d, dv c = Some d -> 0 <= d) -> 0 <= base ->
  forall acc n, 0 <= acc -> digits_value dv base s acc = Some n -> 0 <= n.
Proof.
  intros Hdv Hb. induction s as [|c s IH]; intros acc n Hacc H; simpl in H.
  - inversion H. lia.
  - destruct (dv c) as [d|] eqn:E; [|discriminate].
    apply (IH (acc * base + d)); [|assumption].
    specialize (Hdv c d E). nia.
Qed.

Lemma digit_cases (c : ascii) :
  in_range "0" "9" c = true ->
  In c ["0"; "1"; "2"; "3"; "4"; "5"; "6"; "7"; "8"; "9"]%char.
Proof.
  destruct c as [b0 b1 b2 b3 b4 b5 b6 b7].
  destruct b0, b1, b2, b3, b4, b5, b6, b7; intros H;
    try discriminate H; simpl; auto 12.
Qed.

Lemma is_x_cases (c : ascii) : is_x c = true -> c = "x"%char \/ c = "X"%char.
Proof.
  unfold is_x. intros H. apply orb_true_iff in H.
  destruct H as [H|H]; apply Ascii.eqb_eq in H; auto.
Qed.

Ltac digit_case c H :=
  let Hin := fresh "Hin" in
  pose proof (digit_cases c H) as Hin; simpl in Hin;
  repeat (destruct Hin as [Hin|Hin]; [subst c|]); [..|contradiction].

Lemma digit_value_in_range (c : ascii) (d : Z) :
  digit_value c = Some d -> in_range "0" "9" c = true.
Proof.
  unfold digit_value. destruct (in_range "0" "9" c); [reflexivity | discriminate].
Qed.

(** The test of [eval] looks at the second character only; on a text that
    starts with a decimal digit the conversion it selects gives what the
    conversion selected by the whole prefix gives. *)
Lemma base_choice (text : list ascii) :
  starts_with_digit text = true ->
  (if (2 <? List.length text)%nat && is_x (nth 1 text NUL)
   then sscanf_x text else sscanf_d text) =
  (if hex_literal text then sscanf_x text else sscanf_d text).
Proof.
  destruct text as [|d [|x [|y rest]]]; intros Hd; try reflexivity.
  simpl in Hd. cbn [List.length nth hex_literal].
  replace (2 <? S (S (S (List.length rest))))%nat with true
    by (symmetry; apply Nat.ltb_lt; lia).
  cbn [andb]. destruct (is_x x) eqn:Hx;
    [|now rewrite andb_false_r].
  rewrite andb_true_r.
  destruct (Ascii.eqb d "0") eqn:E0; [reflexivity|].
  apply is_x_cases in Hx.
  digit_case d Hd; try discriminate E0; destruct Hx; subst x; reflexivity.
Qed.

Lemma parse_decimal_scan (text : list ascii) (n : Z) :
  parse_decimal text = Some n -> n < 2 ^ 32 ->
  hex_literal text = false /\
  (2 <? List.length text)%nat && is_x (nth 1 text NUL) = false /\
  sscanf_d text = Converted n.
Proof.
  intros Hp Hn. destruct text as [|c rest]; [discriminate|].
  unfold parse_decimal in Hp.
  assert (H0 : 0 <= n).
  { apply (digits_value_nonneg digit_value 10 (c :: rest)) with (acc := 0);
      try lia; [|assumption].
    intros c0 d0 Hd0. apply digit_value_range in Hd0. lia. }
  pose proof (digits_value_scan _ _ _ _ _ 0%nat Hp) as Hscan.
  simpl in Hp. destruct (digit_value c) as [d|] eqn:Ec; [|discriminate].
  pose proof (digit_value_in_range _ _ Ec) as Hc.
  split; [|split].
  - destruct rest as [|x [|y r]]; try reflexivity.
    simpl in Hp. destruct (digit_value x) as [dx|] eqn:Ex; [|discriminate].
    pose proof (digit_value_in_range _ _ Ex) as Hxr.
    cbn [hex_literal]. digit_case x Hxr; now rewrite andb_false_r.
  - destruct rest as [|x [|y r]]; try reflexivity.
    simpl in Hp. destruct (digit_value x) as [dx|] eqn:Ex; [|discriminate].
    pose proof (digit_value_in_range _ _ Ex) as Hxr.
    cbn [nth]. digit_case x Hxr; now rewrite andb_false_r.
  - unfold sscanf_d.
    assert (Hsp : skip_space (c :: rest) = c :: rest)
      by (digit_case c Hc; reflexivity).
    rewrite Hsp.
    assert (Hsg : split_sign (c :: rest) = (false, c :: rest))
      by (digit_case c Hc; reflexivity).
    rewrite Hsg, Hscan. cbn [Nat.add List.length].
    unfold store_long, u32, LONG_MAX. f_equal.
    rewrite Z.min_l by lia. apply Z.mod_small. lia.
Qed.

Lemma parse_hex_scan (text : list ascii) (n : Z) :
  hex_literal text = true -> parse_hex text = Some n -> n < 2 ^ 32 ->
  (2 <? List.length text)%nat && is_x (nth 1 text NUL) = true /\
  sscanf_x text = Converted n.
Proof.
  intros Hh Hp Hn. destruct text as [|z [|x [|c rest]]]; try discriminate.
  cbn [hex_literal] in Hh. apply andb_true_iff in Hh. destruct Hh as [Hz Hx].
  apply Ascii.eqb_eq in Hz. subst z.
  unfold parse_hex in Hp.
  assert (H0 : 0 <= n).
  { apply (digits_value_nonneg xdigit_value 16 (c :: rest)) with (acc := 0);
      try lia; [|assumption].
    intros c0 d0 Hd0. apply xdigit_value_range in Hd0. lia. }
  pose proof (digits_value_scan _ _ _ _ _ 0%nat Hp) as Hscan.
  split.
  - cbn [List.length nth]. rewrite Hx.
    replace (2 <? S (S (S (List.length rest))))%nat with true
      by (symmetry; apply Nat.ltb_lt; lia).
    reflexivity.
  - assert (Hsx : sscanf_x ("0"%char :: x :: c :: rest) =
                  Converted (store_ulong false
                    (fst (scan_digits xdigit_value 16 (c :: rest) 0 0%nat))))
      by (apply is_x_cases in Hx; destruct Hx; subst x; reflexivity).
    rewrite Hsx, Hscan.
    cbn [fst]. unfold store_ulong, u32, ULONG_MAX. f_equal.
    rewrite Z.min_l by lia. apply Z.mod_small. lia.
Qed.

(** ** The cursor of make_token *)

Lemma lex_one_rest (e : string) (c c' : cursor) :
  lex_one e c = Ret (inl c') ->
  exists len, (1 <= len <= List.length (rest c))%nat /\
              rest c' = skipn len (rest c) /\
              position c' = position c + Z.of_nat len /\
              printed (mach c') = printed (mach c).
Proof.
  unfold lex_one. intros H.
  destruct (first_match rules (rest c)) as [[r len]|] eqn:E; [|discriminate].
  apply rules_match_bounds in E.
  bind_split H as [ts nr] Hr. inversion H. subst. simpl.
  exists len. repeat split; lia.
Qed.

Lemma reaches_inv (e : string) (c c' : cursor) :
  reaches e c c' ->
  printed (mach c') = printed (mach c) /\
  exists k, (k <= List.length (rest c))%nat /\
            rest c' = skipn k (rest c) /\
            position c' = position c + Z.of_nat k.
Proof.
  induction 1 as [c|c c1 c2 Hne Hstep Hreach IH].
  - split; [reflexivity|]. exists 0%nat. repeat split; [lia | lia].
  - destruct (lex_one_rest _ _ _ Hstep) as (len & Hlen & Hrest & Hpos & Hpr).
    destruct IH as (Hpr2 & k & Hk & Hrest2 & Hpos2).
    split; [congruence|].
    rewrite Hrest, length_skipn in Hk.
    exists (len + k)%nat. repeat split; [lia | |lia].
    rewrite Hrest2, Hrest, skipn_skipn. f_equal. lia.
Qed.

Lemma make_token_loop_reaches (e : string) (c c' : cursor) :
  reaches e c c' ->
  forall fuel, (List.length (rest c) < fuel)%nat ->
  exists fuel', (List.length (rest c') < fuel')%nat /\
                make_token_loop fuel e c = make_token_loop fuel' e c'.
Proof.
  induction 1 as [c|c c1 c2 Hne Hstep Hreach IH]; intros fuel Hf.
  - exists fuel. split; [assumption | reflexivity].
  - destruct fuel as [|fuel]; [lia|].
    destruct (lex_one_rest _ _ _ Hstep) as (len & Hlen & Hrest & _).
    destruct (IH fuel) as (fuel' & Hf' & Heq).
    { rewrite Hrest, length_skipn. lia. }
    exists fuel'. split; [assumption|].
    simpl. destruct (rest c) eqn:Er; [congruence|].
    rewrite Hstep. simpl. exact Heq.
Qed.

Lemma make_token_loop_stuck (fuel : nat) (e : string) (c : cursor) :
  rest c <> [] -> first_match rules (rest c) = None ->
  make_token_loop (S fuel) e c =
  Ret (false,
       {| tokens := tokens (mach c); nr_token := nr_token (mach c);
          printed := printed (mach c) ++
            [ {| at_position := position c; shown := e;
                 caret_column := position c |} ] |}).
Proof.
  intros Hne Hnone. simpl. destruct (rest c) eqn:Er; [congruence|].
  unfold lex_one. rewrite Er, Hnone. reflexivity.
Qed.

(** ** The texts of number tokens *)

Lemma update_Forall_at {A : Type} (P : A -> Prop) (f : A -> A) (l : list A) :
  forall k l', update l k f = Some l' ->
  (forall x, nth_error l k = Some x -> P (f x)) -> Forall P l -> Forall P l'.
Proof.
  induction l as [|x l IH]; intros k l' H Hf Hl; [destruct k; discriminate|].
  inversion Hl as [|? ? Hx Hl']; subst.
  destruct k as [|k]; simpl in H.
  - inversion H. subst. constructor; [now apply Hf | assumption].
  - destruct (update l k f) as [l''|] eqn:E; [|discriminate].
    inversion H. subst. constructor; [assumption|].
    apply (IH k); [assumption | | assumption].
    intros y Hy. now apply Hf.
Qed.

Lemma tok_set_Forall_at (P : Token -> Prop) (ts ts' : list Token) (i : Z)
    (f : Token -> Token) :
  tok_set ts i f = Ret ts' ->
  (forall t, tok ts i = Ret t -> P (f t)) -> Forall P ts -> Forall P ts'.
Proof.
  intros H Hf Hts. apply tok_set_inv in H. destruct H as [Hi H].
  eapply update_Forall_at; [eassumption | | assumption].
  intros x Hx. apply Hf. now apply tok_nth.
Qed.

(** A number rule only matches at a decimal digit. *)
Lemma number_rule_head (r : rule) (c : ascii) (s : list ascii) (len : nat) :
  In r rules -> token_type r = TK_NUMBER ->
  regexec_at0 (regex_of r) (c :: s) = Some len ->
  in_range "0" "9" c = true.
Proof.
  intros Hin Hty H. simpl in Hin.
  repeat (destruct Hin as [Hin|Hin]; [subst r; try discriminate Hty|]);
    [..|contradiction];
    destruct c as [b0 b1 b2 b3 b4 b5 b6 b7];
    destruct b0, b1, b2, b3, b4, b5, b6, b7; try reflexivity;
    exfalso; destruct s; cbv in H; discriminate H.
Qed.

Lemma first_match_rule (rs : list rule) (s : list ascii) (r : rule) (len : nat) :
  first_match rs s = Some (r, len) ->
  In r rs /\ regexec_at0 (regex_of r) s = Some len.
Proof.
  induction rs as [|r0 rs IH]; intros H; [discriminate|]. simpl in H.
  destruct (regexec_at0 (regex_of r0) s) as [l|] eqn:E.
  - inversion H. subst. split; [now left | assumption].
  - destruct (IH H). split; [now right | assumption].
Qed.

Lemma strncpy_head (dst src s : list ascii) (len : nat) :
  strncpy dst src len = Ret s -> (1 <= len)%nat ->
  starts_with_digit src = true -> starts_with_digit s = true.
Proof.
  unfold strncpy. intros H Hlen Hd.
  destruct (len <=? List.length dst)%nat; [|discriminate]. inversion H.
  destruct src as [|c src]; [discriminate|]. simpl in Hd.
  destruct len as [|len]; [lia|].
  assert (Hc : is_nul c = false) by (digit_case c Hd; reflexivity).
  simpl. rewrite Hc. simpl. assumption.
Qed.

Lemma put_operator_digit_headed (ts ts' : list Token) (nr nr' tt lv : Z) :
  put_operator ts nr tt lv = Ret (ts', nr') -> tt <> TK_NUMBER ->
  digit_headed ts -> digit_headed ts'.
Proof.
  unfold put_operator, digit_headed. intros H Htt Hd.
  bind_split H as ts1 H1. bind_split H as ts2 H2. inversion H. subst.
  eapply tok_set_Forall; [exact H2 | intros t Ht; exact Ht |].
  eapply tok_set_Forall_at; [exact H1 | | assumption].
  intros t _ Hty. simpl in Hty. contradiction.
Qed.

Lemma put_literal_digit_headed (ts ts' : list Token) (nr nr' tt : Z)
    (src : list ascii) (len : nat) :
  put_literal ts nr tt src len = Ret (ts', nr') ->
  (tt = TK_NUMBER -> (1 <= len)%nat /\ starts_with_digit src = true) ->
  digit_headed ts -> digit_headed ts'.
Proof.
  unfold put_literal, digit_headed. intros H Htt Hd.
  bind_split H as ts1 H1. bind_split H as t Ht. bind_split H as s Hs.
  bind_split H as ts2 H2. bind_split H as ts3 H3. inversion H. subst.
  eapply tok_set_Forall; [exact H3 | intros t0 Ht0; exact Ht0 |].
  apply tok_set_inv in H1. destruct H1 as [Hi H1].
  apply tok_set_inv in H2. destruct H2 as [_ H2].
  apply Forall_forall. intros t2 Hin2 Hty2.
  apply In_nth_error in Hin2. destruct Hin2 as [j Hj].
  rewrite (update_nth _ _ _ _ j H2) in Hj.
  rewrite (update_nth _ _ _ _ j H1) in Hj.
  rewrite Forall_forall in Hd.
  destruct (Nat.eqb_spec j (Z.to_nat nr)) as [Heq|Hne].
  - rewrite Heq in Hj. destruct (nth_error ts (Z.to_nat nr)) as [x|] eqn:Ex; [|discriminate].
    simpl in Hj. inversion Hj. subst t2. simpl in Hty2 |- *.
    destruct (Htt Hty2) as [Hlen Hsrc].
    eapply strncpy_head; eassumption.
  - apply Hd; [|assumption]. eapply nth_error_In. eassumption.
Qed.

Lemma record_token_digit_headed (ts ts' : list Token) (nr nr' tt : Z)
    (src : list ascii) (len : nat) :
  record_token ts nr tt src len = Ret (ts', nr') ->
  (tt = TK_NUMBER -> (1 <= len)%nat /\ starts_with_digit src = true) ->
  digit_headed ts -> digit_headed ts'.
Proof.
  unfold record_token. intros H Htt Hd.
  destruct (Z.eqb_spec tt TK_NOTYPE); [inversion H; now subst|].
  destruct (Z.eqb_spec tt (ch "+")) as [->|];
    [now apply put_operator_digit_headed in H|].
  destruct (Z.eqb_spec tt (ch "-")) as [->|];
    [now apply put_operator_digit_headed in H|]. cbn [orb] in H.
  destruct (Z.eqb_spec tt (ch "*")) as [->|];
    [now apply put_operator_digit_headed in H|].
  destruct (Z.eqb_spec tt (ch "/")) as [->|];
    [now apply put_operator_digit_headed in H|]. cbn [orb] in H.
  destruct (Z.eqb_spec tt (ch "(")) as [->|];
    [now apply put_operator_digit_headed in H|].
  destruct (Z.eqb_spec tt (ch ")")) as [->|];
    [now apply put_operator_digit_headed in H|]. cbn [orb] in H.
  destruct (Z.eqb_spec tt TK_NUMBER);
    [now apply put_literal_digit_headed in H|].
  destruct (Z.eqb_spec tt TK_REGISTER);
    [now apply put_literal_digit_headed in H|].
  destruct (Z.eqb_spec tt TK_EQ) as [->|];
    [now apply put_operator_digit_headed in H|].
  destruct (Z.eqb_spec tt TK_NOTEQ) as [->|];
    [now apply put_operator_digit_headed in H|]. cbn [orb] in H.
  destruct (Z.eqb_spec tt TK_AND) as [->|];
    [now apply put_operator_digit_headed in H|].
  destruct (Z.eqb_spec tt TK_OR) as [->|];
    [now apply put_operator_digit_headed in H|].
  discriminate.
Qed.

Lemma lex_one_digit_headed (e : string) (c c' : cursor) :
  lex_one e c = Ret (inl c') ->
  digit_headed (tokens (mach c)) -> digit_headed (tokens (mach c')).
Proof.
  unfold lex_one. intros H Hd.
  destruct (first_match rules (rest c)) as [[r len]|] eqn:E; [|discriminate].
  pose proof (rules_match_bounds _ _ _ E) as Hlen.
  destruct (first_match_rule _ _ _ _ E) as [Hin Hre].
  bind_split H as [ts nr] Hr. inversion H. subst. simpl.
  eapply record_token_digit_headed; [exact Hr | | assumption].
  intros Hty. split; [lia|].
  destruct (rest c) as [|a l]; [simpl in Hlen; lia|].
  simpl. eapply number_rule_head; eassumption.
Qed.

Lemma make_token_loop_digit_headed (fuel : nat) (e : string) :
  forall c ok m, make_token_loop fuel e c = Ret (ok, m) ->
  digit_headed (tokens (mach c)) -> digit_headed (tokens m).
Proof.
  induction fuel as [|fuel IH]; intros c ok m H Hd; [discriminate|].
  simpl in H. destruct (rest c) eqn:Er.
  - inversion H. now subst.
  - bind_split H as [c'|m'] Hl.
    + apply lex_one_digit_headed in Hl; [|assumption]. now apply IH in H.
    + inversion H. subst. unfold lex_one in Hl.
      destruct (first_match rules (rest c)) as [[r len]|].
      * bind_split Hl as [ts nr] Hr. discriminate.
      * inversion Hl. now subst.
Qed.

Lemma reclassify_digit_headed (u : bool) (t : Token) :
  (type t = TK_NUMBER -> starts_with_digit (str t) = true) ->
  type (reclassify u t) = TK_NUMBER ->
  starts_with_digit (str (reclassify u t)) = true.
Proof.
  unfold reclassify. intros H.
  destruct ((type t =? ch "*") && u); [discriminate|].
  destruct ((type t =? ch "-") && u); [discriminate | assumption].
Qed.

Lemma reclassify_from_digit_headed (l : list Token) :
  forall u, digit_headed l -> digit_headed (reclassify_from u l).
Proof.
  induction l as [|t l IH]; intros u H; [constructor|].
  inversion H; subst. constructor.
  - now apply reclassify_digit_headed.
  - now apply IH.
Qed.

(** Scanning keeps every number text headed by a digit: the tokenizer
    writes a number's text from a match of a number rule, and the loop of
    [expr] neither makes number tokens nor touches a text. *)
Lemma scanning_digit_headed (m m1 m2 : machine) (e : string) (ok : bool) :
  digit_headed (tokens m) -> well_levelled (tokens m) ->
  make_token m e = Ret (ok, m1) ->
  digit_headed (tokens m1) /\
  (recognise_unary m1 = Ret m2 -> digit_headed (tokens m2)).
Proof.
  intros Hd Hw Hm.
  assert (Hd1 : digit_headed (tokens m1)).
  { unfold make_token in Hm. now apply make_token_loop_digit_headed in Hm. }
  split; [assumption|]. intros Hr.
  apply make_token_inv in Hm; [|assumption].
  destruct Hm as (_ & _ & _ & Hfit).
  unfold recognise_unary in Hr.
  rewrite mark_unary_run in Hr by assumption. inversion Hr. subst. simpl.
  unfold digit_headed in Hd1.
  rewrite <- (firstn_skipn (Z.to_nat (nr_token m1)) (tokens m1)) in Hd1.
  apply Forall_app in Hd1. destruct Hd1 as [Ha Hb].
  apply Forall_app. split; [now apply reclassify_from_digit_headed | assumption].
Qed.

Lemma pristine_invariants (str_size : nat) :
  well_levelled (tokens (pristine str_size)) /\
  digit_headed (tokens (pristine str_size)).
Proof.
  split; apply Forall_forall; intros t Ht; apply repeat_spec in Ht; subst.
  - simpl. lia.
  - discriminate.
Qed.

Lemma c_string_head (buf text : list ascii) :
  c_string buf = Some text -> starts_with_digit buf = true ->
  starts_with_digit text = true.
Proof.
  destruct buf as [|c buf]; [discriminate|]. simpl. intros H Hd.
  assert (Hc : is_nul c = false) by (digit_case c Hd; reflexivity).
  rewrite Hc in H. destruct (c_string buf); [|discriminate].
  inversion H. subst. exact Hd.
Qed.

(** ** A range closed by its last token *)

Lemma depth_at_succ (l : list Token) :
  forall cur i t, nth_error l (S i) = Some t ->
  depth_at cur l (S i) = step_depth t (depth_at cur l i).
Proof.
  induction l as [|x l IH]; intros cur i t H; [discriminate|].
  simpl in H. destruct l as [|y l']; [destruct i; discriminate|].
  destruct i as [|i].
  - simpl in H. inversion H. reflexivity.
  - change (depth_at cur (x :: y :: l') (S (S i)))
      with (depth_at (step_depth x cur) (y :: l') (S i)).
    change (depth_at cur (x :: y :: l') (S i))
      with (depth_at (step_depth x cur) (y :: l') i).
    now apply IH.
Qed.

Lemma closing_offset_spec (l : list Token) :
  forall cur k j, closing_offset cur l k = Some j ->
  exists i, j = (k + i)%nat /\ (i < List.length l)%nat /\
            depth_at cur l i = 0 /\
            forall i', (i' < i)%nat -> depth_at cur l i' <> 0.
Proof.
  induction l as [|t l IH]; intros cur k j H; [discriminate|].
  simpl in H. destruct (Z.eqb_spec (step_depth t cur) 0) as [E|E].
  - inversion H. subst. exists 0%nat.
    repeat split; [lia | simpl; lia | assumption | intros; lia].
  - apply IH in H. destruct H as (i & Hj & Hi & Hd & Hbefore).
    exists (S i). repeat split; [lia | simpl; lia | |].
    + destruct l; [simpl in Hi; lia | assumption].
    + intros [|i'] Hlt; [assumption|].
      destruct l; [simpl in Hi; lia|]. apply Hbefore. lia.
Qed.

(** When the parenthesis opened by the first token of a balanced range is
    closed by its last token, the check reports the range as wrapped. *)
Lemma matching_pair_reported_wrapped (ts : list Token) (p q : Z)
    (err : option Z) :
  0 <= p -> p < q -> (Z.to_nat q < List.length ts)%nat ->
  balanced (range ts p q) ->
  first_is "(" (range ts p q) = true ->
  closing_offset 0 (range ts p q) 0 = Some (List.length (range ts p q) - 1)%nat ->
  check_parentheses ts p q err = Ret (true, err).
Proof.
  intros Hp Hpq Hq Hb Hfirst Hclose.
  apply check_parentheses_wrapped_iff; try assumption.
  split; [assumption|]. unfold framed. rewrite Hfirst. cbn [andb].
  pose proof (range_length ts p q Hp ltac:(lia) Hq) as Hlen.
  apply closing_offset_spec in Hclose.
  destruct Hclose as (i & Hi & _ & Hd & Hbefore). simpl in Hi. subst i.
  set (l := range ts p q) in *.
  assert (Hn : (2 <= List.length l)%nat) by lia.
  unfold last_is.
  destruct (nth_error l (List.length l - 1)) as [t|] eqn:Et;
    [|apply nth_error_None in Et; lia].
  replace (List.length l - 1)%nat with (S (List.length l - 2)) in Hd, Et by lia.
  rewrite (depth_at_succ l 0 _ t Et) in Hd.
  specialize (Hbefore (List.length l - 2)%nat ltac:(lia)).
  destruct Hb as [Hnonneg _].
  specialize (Hnonneg (List.length l - 2)%nat ltac:(lia)).
  unfold step_depth in Hd.
  destruct (type t =? ch "("); [lia|].
  destruct (type t =? ch ")"); [reflexivity | lia].
Qed.

Section Evaluator.

Variable isa_reg_str2val : string -> bool -> Z * bool.
Variable vaddr_read : Z -> Z -> Z.

Local Abbreviation eval := (eval isa_reg_str2val vaddr_read).
Local Abbreviation expr := (expr isa_reg_str2val vaddr_read).
Local Abbreviation split_at := (split_at isa_reg_str2val vaddr_read).

Lemma eval_empty (fuel : nat) (ts : list Token) (p q : Z) (s : bool) :
  q < p -> eval (S fuel) ts p q s = Ret (Vint 0, false).
Proof.
  intros H. simpl. destruct (Z.gtb_spec p q); [reflexivity | lia].
Qed.

Lemma eval_operator_range (fuel : nat) (ts : list Token) (p q op : Z)
    (top : Token) (s : bool) :
  p < q ->
  check_parentheses ts p q None = Ret (false, Some NOT_SURROUND) ->
  op_scan ts (Z.to_nat (q - p + 1)) p 0 0 (-1) = Ret op ->
  tok ts op = Ret top ->
  eval (S fuel) ts p q s = split_at fuel ts p q op top s.
Proof.
  intros Hpq Hc Hop Htop. simpl.
  destruct (Z.gtb_spec p q); [lia|].
  destruct (Z.eqb_spec p q); [lia|].
  rewrite Hc. simpl. rewrite Hop. simpl. rewrite Htop. reflexivity.
Qed.

(** X17.  On a balanced range of two tokens or more that is not framed by
    a pair of parentheses, so that [check_parentheses] does not report it
    as wrapped, [eval] splits at the dominant operator: an index of the
    range at parenthesis depth zero whose binding level is the largest among
    the depth-zero positions and strictly larger than that of every
    depth-zero position to its right (the rightmost on ties).  On the
    machine as loaded, [expr] on "1-2-3" with the flag set returns
    0xFFFFFFFC and leaves the flag set.  The tokens carry the binding levels
    the program assigns, none of which is negative. *)
Theorem eval_splits_at_dominant_operator (ts : list Token) (p q : Z) :
  0 <= p -> p < q -> (Z.to_nat q < List.length ts)%nat ->
  well_levelled ts ->
  balanced (range ts p q) ->
  framed (range ts p q) = false ->
  (exists op top,
     p <= op <= q /\ tok ts op = Ret top /\
     depth ts p q op = 0 /\
     (forall j u, p <= j <= q -> tok ts j = Ret u -> depth ts p q j = 0 ->
                  precedence u <= precedence top) /\
     (forall j u, op < j <= q -> tok ts j = Ret u -> depth ts p q j = 0 ->
                  precedence u < precedence top) /\
     (forall fuel s, eval (S fuel) ts p q s = split_at fuel ts p q op top s))
  /\ value_flag (expr (pristine 32) "1-2-3" true) = Ret (Vint 4294967292, true).
Proof.
  intros Hp Hpq Hq Hw Hb Hf. split.
  - destruct (op_scan_dominant ts p q Hp ltac:(lia) Hq Hw Hb)
      as (op & top & Hop & Hin & Htop & Hd & Hall & Hlater).
    exists op, top. repeat (split; [assumption|]).
    intros fuel s. apply eval_operator_range; try assumption.
    now apply check_parentheses_not_surround.
  - vm_compute. reflexivity.
Qed.


(** ** The success flag *)

Lemma eval_unfold (fuel : nat) (ts : list Token) (p q : Z) (success : bool) :
  eval (S fuel) ts p q success =
  if p >? q then Ret (Vint 0, false)
  else if p =? q then
    t <- tok ts p ;;
    if type t =? TK_NUMBER then eval_number t success
    else if type t =? TK_REGISTER then eval_register isa_reg_str2val t success
    else Ret (Vundef, success)
  else
    ' (wrapped, error) <- check_parentheses ts p q None ;;
    if (wrapped : bool) then eval fuel ts (p + 1) (q - 1) success
    else
      match error with
      | None => Undefined
      | Some err =>
          if err =? BAD_EXPR then Ret (Vint 0, false)
          else
            op <- op_scan ts (Z.to_nat (q - p + 1)) p 0 0 (-1) ;;
            top <- tok ts op ;;
            split_at fuel ts p q op top success
      end.
Proof. reflexivity. Qed.

Lemma check_parentheses_operator_range (ts : list Token) (p q : Z)
    (e : option Z) (err : Z) :
  check_parentheses ts p q e = Ret (false, Some err) -> err <> BAD_EXPR ->
  0 <= p /\ p < q /\ (Z.to_nat q < List.length ts)%nat /\
  balanced (range ts p q) /\ err = NOT_SURROUND.
Proof.
  unfold check_parentheses. intros H Herr.
  destruct (Z.geb_spec p q) as [Hge|Hlt]; [inversion H; congruence|].
  bind_inv H. destruct a as [c|]; [|inversion H; congruence].
  destruct (Z.eqb_spec c 0) as [->|Hc]; simpl in H; [|inversion H; congruence].
  pose proof (paren_scan_in_bounds _ _ _ _ _ Ha ltac:(lia)) as [Hp Hb].
  rewrite paren_scan_segment in Ha by assumption. inversion Ha as [Hl].
  fold (range ts p q) in Hl.
  assert (Hq : (Z.to_nat q < List.length ts)%nat) by lia.
  repeat (split; [assumption || lia|]).
  split.
  - apply balanced_paren_list; [apply range_nonempty; lia | assumption].
  - bind_inv H. bind_inv H.
    destruct ((type a =? ch "(") && (type a0 =? ch ")")); inversion H.
    reflexivity.
Qed.

Lemma register_free_sub (ts : list Token) (p q p' q' : Z) :
  p <= p' -> q' <= q -> register_free ts p q -> register_free ts p' q'.
Proof.
  intros Hp Hq H i t Hi. apply H. lia.
Qed.

Lemma eval_number_flag (t : Token) (s : bool) :
  eval_number t s = flagged s (eval_number t true).
Proof.
  unfold eval_number. destruct (c_string (str t)) as [cs|]; [|reflexivity].
  destruct (if (2 <? List.length cs)%nat && is_x (nth 1 cs NUL)
            then sscanf_x cs else sscanf_d cs); reflexivity.
Qed.

(** The two operand evaluations and the combination, for operand
    evaluations [A] and [B] that treat the flag alike. *)
Lemma chain_flag (A B : bool -> outcome (val * bool))
    (k : val -> val -> outcome val) (s : bool) :
  (forall s, A s = flagged s (A true)) ->
  (forall s, B s = flagged s (B true)) ->
  (' (val1, s1) <- A s ;; ' (val2, s2) <- B s1 ;; v <- k val1 val2 ;; Ret (v, s2))
  = flagged s
      (' (val1, s1) <- A true ;; ' (val2, s2) <- B s1 ;;
       v <- k val1 val2 ;; Ret (v, s2)).
Proof.
  intros HA HB. rewrite (HA s).
  destruct (A true) as [[v1 b1]| | | |]; try reflexivity. simpl.
  rewrite (HB (b1 && s)), (HB b1).
  destruct (B true) as [[v2 b2]| | | |]; try reflexivity. simpl.
  destruct (k v1 v2); try reflexivity. simpl.
  now rewrite andb_assoc.
Qed.

(** On a range without register tokens the flag only ever goes down: the
    outcome under any incoming flag is the outcome under a set flag with the
    incoming flag and-ed in. *)
Lemma eval_flag (fuel : nat) (ts : list Token) :
  well_levelled ts ->
  forall p q s, register_free ts p q ->
  eval fuel ts p q s = flagged s (eval fuel ts p q true).
Proof.
  intros Hw. induction fuel as [|fuel IH]; intros p q s Hfree; [reflexivity|].
  rewrite !eval_unfold.
  destruct (p >? q); [reflexivity|].
  destruct (Z.eqb_spec p q) as [->|Hne].
  - destruct (tok ts q) as [t| | | |] eqn:Ht; try reflexivity. simpl bind.
    destruct (type t =? TK_NUMBER); [apply eval_number_flag|].
    destruct (Z.eqb_spec (type t) TK_REGISTER) as [E|E]; [|reflexivity].
    exfalso. exact (Hfree q t ltac:(lia) Ht E).
  - destruct (check_parentheses ts p q None) as [[wrapped error]| | | |] eqn:Hc;
      try reflexivity.
    simpl bind. destruct wrapped.
    + apply IH. apply (register_free_sub ts p q); (assumption || lia).
    + destruct error as [err|]; [|reflexivity].
      destruct (Z.eqb_spec err BAD_EXPR) as [E|E]; [reflexivity|].
      destruct (check_parentheses_operator_range _ _ _ _ _ Hc E)
        as (Hp & Hpq & Hq & Hb & _).
      destruct (op_scan_dominant ts p q Hp ltac:(lia) Hq Hw Hb)
        as (op & top & Hop & Hin & Htop & _).
      rewrite Hop. simpl bind. rewrite Htop. simpl bind.
      unfold split_at.
      apply (chain_flag
               (fun s => if is_unary (type top) then Ret (Vint 0, s)
                         else eval fuel ts p (op - 1) s)
               (fun s => eval fuel ts (op + 1) q s)).
      * intros s0. destruct (is_unary (type top)); [reflexivity|].
        apply IH. apply (register_free_sub ts p q); (assumption || lia).
      * intros s0.
        apply IH. apply (register_free_sub ts p q); (assumption || lia).
Qed.

(** With a register lookup that leaves a cleared flag cleared, [eval] does
    so too: no path of [eval] itself sets the flag. *)
Lemma eval_keeps_failure (fuel : nat) (ts : list Token) :
  (forall name, snd (isa_reg_str2val name false) = false) ->
  forall p q v s', eval fuel ts p q false = Ret (v, s') -> s' = false.
Proof.
  intros Hreg. induction fuel as [|fuel IH]; intros p q v s' H; [discriminate|].
  rewrite eval_unfold in H.
  destruct (p >? q); [now inversion H|].
  destruct (p =? q).
  - bind_inv H.
    destruct (type a =? TK_NUMBER).
    { unfold eval_number in H. destruct (c_string (str a)); [|discriminate].
      destruct (if (2 <? List.length l)%nat && is_x (nth 1 l NUL)
                then sscanf_x l else sscanf_d l); now inversion H. }
    destruct (type a =? TK_REGISTER).
    { unfold eval_register in H.
      destruct (c_string (skipn 1 (str a))) as [name|]; [|discriminate].
      specialize (Hreg (string_of_list_ascii name)).
      destruct (isa_reg_str2val (string_of_list_ascii name) false) as [x ok].
      simpl in Hreg. inversion H. congruence. }
    now inversion H.
  - bind_inv H. destruct a as [wrapped error]. destruct wrapped.
    + now apply IH in H.
    + destruct error as [err|]; [|discriminate].
      destruct (err =? BAD_EXPR); [now inversion H|].
      bind_split H as op Hop. bind_split H as top Htop.
      unfold split_at in H.
      bind_split H as [val1 s1] H1. bind_split H as [val2 s2] H2.
      bind_split H as v0 Hv. inversion H. subst.
      assert (Hs1 : s1 = false).
      { destruct (is_unary (type top)).
        - now inversion H1.
        - now apply IH in H1. }
      subst s1. now apply IH in H2.
Qed.

Lemma expr_inv (m m' : machine) (e : string) (s s' : bool) (v : val) :
  expr m e s = Ret (v, s', m') ->
  (make_token m e = Ret (false, m') /\ v = Vint 0 /\ s' = false) \/
  (exists m1,
     make_token m e = Ret (true, m1) /\ recognise_unary m1 = Ret m' /\
     eval (S (Z.to_nat (nr_token m'))) (tokens m') 0 (nr_token m' - 1) s
       = Ret (v, s')).
Proof.
  unfold expr. intros H.
  bind_split H as [ok m1] Hm. destruct ok; simpl in H.
  - right. bind_split H as m2 Hr. bind_split H as [v0 s0] He.
    inversion H. subst. exists m1. repeat split; assumption.
  - left. inversion H. subst. repeat split; (assumption || reflexivity).
Qed.

Lemma expr_scanned_well_levelled (m m1 m' : machine) (e : string) :
  well_levelled (tokens m) ->
  make_token m e = Ret (true, m1) -> recognise_unary m1 = Ret m' ->
  well_levelled (tokens m').
Proof.
  intros Hw Hm Hr. apply make_token_inv in Hm; [|assumption].
  destruct Hm as (Hw1 & _ & _ & Hfit).
  apply recognise_unary_inv in Hr; tauto.
Qed.

(** C10.  The flag is never set by the evaluator itself.  With a register
    lookup that leaves a cleared flag cleared, [eval] and [expr] called with
    the flag cleared return it cleared.  On a range without register tokens
    [eval] returns the same value under any incoming flag and the flag is the
    incoming one and-ed with the one returned when it comes in set; so an
    evaluation that succeeds (returns the flag set when it comes in set)
    returns the flag just as the caller passed it, for [eval] and for
    [expr]. *)
Theorem core_never_sets_success :
  ((forall name, snd (isa_reg_str2val name false) = false) ->
   (forall fuel ts p q v s',
      eval fuel ts p q false = Ret (v, s') -> s' = false) /\
   (forall m e v s' m', expr m e false = Ret (v, s', m') -> s' = false)) /\
  (forall fuel ts p q s,
     well_levelled ts -> register_free ts p q ->
     eval fuel ts p q s = flagged s (eval fuel ts p q true)) /\
  (forall fuel ts p q s v,
     well_levelled ts -> register_free ts p q ->
     eval fuel ts p q true = Ret (v, true) ->
     eval fuel ts p q s = Ret (v, s)) /\
  (forall m e s v m',
     well_levelled (tokens m) ->
     expr m e true = Ret (v, true, m') ->
     register_free (tokens m') 0 (nr_token m' - 1) ->
     expr m e s = Ret (v, s, m')).
Proof.
  split; [|split; [|split]].
  - intros Hreg. split.
    + intros fuel ts p q v s'. now apply eval_keeps_failure.
    + intros m e v s' m' H. apply expr_inv in H.
      destruct H as [(_ & _ & H)|(m1 & _ & _ & H)]; [assumption|].
      now apply eval_keeps_failure in H.
  - intros fuel ts p q s Hw Hfree. now apply eval_flag.
  - intros fuel ts p q s v Hw Hfree H.
    rewrite eval_flag by assumption. now rewrite H.
  - intros m e s v m' Hw H Hfree. apply expr_inv in H.
    destruct H as [(_ & _ & H)|(m1 & Hm & Hr & H)]; [discriminate|].
    pose proof (expr_scanned_well_levelled _ _ _ _ Hw Hm Hr) as Hw'.
    unfold expr. rewrite Hm. cbn [bind negb]. rewrite Hr.
    cbn [bind]. rewrite eval_flag by assumption. now rewrite H.
Qed.

(** ** Error paths *)

Lemma check_parentheses_malformed (ts : list Token) (p q : Z) (err : option Z) :
  0 <= p -> p < q -> (Z.to_nat q < List.length ts)%nat ->
  ~ balanced (range ts p q) ->
  check_parentheses ts p q err = Ret (false, Some BAD_EXPR).
Proof.
  intros Hp Hpq Hq Hb. rewrite check_parentheses_spec by assumption.
  rewrite balanced_paren_list in Hb by (apply range_nonempty; lia).
  destruct (paren_list (range ts p q) 0) as [c|]; [|reflexivity].
  destruct (Z.eqb_spec c 0) as [->|Hc]; [congruence | reflexivity].
Qed.

Lemma eval_bad_expr (fuel : nat) (ts : list Token) (p q : Z) (s : bool) :
  p < q -> check_parentheses ts p q None = Ret (false, Some BAD_EXPR) ->
  eval (S fuel) ts p q s = Ret (Vint 0, false).
Proof.
  intros Hpq Hc. rewrite eval_unfold.
  destruct (Z.gtb_spec p q); [lia|]. destruct (Z.eqb_spec p q); [lia|].
  rewrite Hc. reflexivity.
Qed.

Lemma eval_singleton (fuel : nat) (ts : list Token) (p : Z) (t : Token) (s : bool) :
  tok ts p = Ret t ->
  eval (S fuel) ts p p s =
  if type t =? TK_NUMBER then eval_number t s
  else if type t =? TK_REGISTER then eval_register isa_reg_str2val t s
  else Ret (Vundef, s).
Proof.
  intros Ht. rewrite eval_unfold.
  destruct (Z.gtb_spec p p); [lia|]. rewrite Z.eqb_refl, Ht. reflexivity.
Qed.


(** ** Number tokens *)

Lemma eval_number_token (fuel : nat) (ts : list Token) (p : Z) (t : Token)
    (text : list ascii) (s : bool) :
  tok ts p = Ret t -> type t = TK_NUMBER -> c_string (str t) = Some text ->
  eval (S fuel) ts p p s =
  number_outcome s
    (if (2 <? List.length text)%nat && is_x (nth 1 text NUL)
     then sscanf_x text else sscanf_d text).
Proof.
  intros Ht Hty Hs. rewrite (eval_singleton fuel ts p t s Ht), Hty.
  rewrite Z.eqb_refl. unfold eval_number. now rewrite Hs.
Qed.




(** The arrays [expr] evaluates satisfy the premise on the text: on them a
    number token is converted in the base its prefix selects. *)
Lemma scanned_number_token (m m1 m2 : machine) (e : string) (fuel : nat)
    (p : Z) (t : Token) (text : list ascii) (s : bool) :
  digit_headed (tokens m) -> well_levelled (tokens m) ->
  make_token m e = Ret (true, m1) -> recognise_unary m1 = Ret m2 ->
  tok (tokens m2) p = Ret t -> type t = TK_NUMBER ->
  c_string (str t) = Some text ->
  starts_with_digit text = true /\
  eval (S fuel) (tokens m2) p p s =
  number_outcome s (if hex_literal text then sscanf_x text else sscanf_d text).
Proof.
  intros Hd Hw Hm Hr Ht Hty Hs.
  destruct (scanning_digit_headed m m1 m2 e true Hd Hw Hm) as [_ Hd2].
  specialize (Hd2 Hr). unfold digit_headed in Hd2.
  rewrite Forall_forall in Hd2.
  assert (Hhead : starts_with_digit text = true).
  { apply (c_string_head (str t)); [assumption|].
    apply Hd2; [|assumption].
    apply tok_inv in Ht. destruct Ht as [_ Ht]. eapply nth_error_In; eassumption. }
  split; [assumption|].
  rewrite (eval_number_token fuel _ p t text s Ht Hty Hs).
  now rewrite base_choice.
Qed.

(** ** Lexical failure *)

(** C9.  When the cursor of [make_token] comes to a position of the
    expression at which no rule matches, [make_token] prints the position,
    the expression and a caret under that position (the text that remains
    is the printed expression from the caret on) and returns false; [expr]
    then returns 0 with the flag cleared, whatever the flag was.  It returns
    to its caller; it leaves the tokens as the tokenizer had them at that
    position, and the result does not depend on the register file or the
    memory: nothing is evaluated. *)
Theorem lexical_failure_is_reported (m : machine) (e : string) (s : bool)
    (c : cursor) :
  reaches e (start m e) c ->
  rest c <> [] ->
  first_match rules (rest c) = None ->
  expr m e s =
    Ret (Vint 0, false,
         {| tokens := tokens (mach c); nr_token := nr_token (mach c);
            printed := printed m ++
              [ {| at_position := position c; shown := e;
                   caret_column := position c |} ] |}) /\
  rest c = skipn (Z.to_nat (position c)) (c_chars (list_ascii_of_string e)) /\
  0 <= position c < Z.of_nat (List.length (c_chars (list_ascii_of_string e))).
Proof.
  intros Hreach Hne Hnone.
  destruct (reaches_inv _ _ _ Hreach) as (Hpr & k & Hk & Hrest & Hpos).
  simpl in Hpr, Hk, Hrest, Hpos.
  split; [|split].
  - unfold expr, make_token.
    destruct (make_token_loop_reaches _ _ _ Hreach
                (S (List.length (c_chars (list_ascii_of_string e)))))
      as (fuel' & Hf' & Heq); [simpl; lia|].
    rewrite Heq. destruct fuel' as [|fuel']; [lia|].
    rewrite make_token_loop_stuck by assumption.
    rewrite Hpr. reflexivity.
  - rewrite Hrest, Hpos. f_equal. lia.
  - assert (Hlen : (k < List.length (c_chars (list_ascii_of_string e)))%nat).
    { destruct (Nat.ltb_spec k (List.length (c_chars (list_ascii_of_string e))));
        [assumption|].
      exfalso. apply Hne. rewrite Hrest. apply skipn_all2. lia. }
    lia.
Qed.

(** ** Termination: the fuel of the model is never used up *)

Lemma bind_total {A B : Type} (m : outcome A) (k : A -> outcome B) :
  m <> OutOfFuel -> (forall a, m = Ret a -> k a <> OutOfFuel) ->
  bind m k <> OutOfFuel.
Proof.
  intros Hm Hk. destruct m; simpl; try discriminate; [now apply Hk | congruence].
Qed.

Lemma tok_total (ts : list Token) (i : Z) : tok ts i <> OutOfFuel.
Proof.
  unfold tok. destruct (i <? 0); [discriminate|].
  destruct (nth_error ts (Z.to_nat i)); discriminate.
Qed.

Lemma paren_scan_total (ts : list Token) (n : nat) :
  forall i cnt, paren_scan ts n i cnt <> OutOfFuel.
Proof.
  induction n as [|n IH]; intros i cnt; simpl; [discriminate|].
  apply bind_total; [apply tok_total|]. intros t _.
  destruct (step_depth t cnt <? 0); [discriminate | apply IH].
Qed.

Lemma check_parentheses_total (ts : list Token) (p q : Z) (e : option Z) :
  check_parentheses ts p q e <> OutOfFuel.
Proof.
  unfold check_parentheses. destruct (p >=? q); [discriminate|].
  apply bind_total; [apply paren_scan_total|]. intros [c|] _; [|discriminate].
  destruct (negb (c =? 0)); [discriminate|].
  apply bind_total; [apply tok_total|]. intros tp _.
  apply bind_total; [apply tok_total|]. intros tq _.
  destruct ((type tp =? ch "(") && (type tq =? ch ")")); discriminate.
Qed.

Lemma eval_number_total (t : Token) (s : bool) : eval_number t s <> OutOfFuel.
Proof.
  unfold eval_number. destruct (c_string (str t)) as [cs|]; [|discriminate].
  destruct (if (2 <? List.length cs)%nat && is_x (nth 1 cs NUL)
            then sscanf_x cs else sscanf_d cs); discriminate.
Qed.

Lemma eval_register_total (t : Token) (s : bool) :
  eval_register isa_reg_str2val t s <> OutOfFuel.
Proof.
  unfold eval_register. destruct (c_string (skipn 1 (str t))); [|discriminate].
  destruct (isa_reg_str2val _ s). discriminate.
Qed.

Lemma combine_total (tt : Z) (v1 v2 : val) :
  combine vaddr_read tt v1 v2 <> OutOfFuel.
Proof.
  unfold combine.
  repeat match goal with
         | |- (if ?b then _ else _) <> _ => destruct b
         end; try discriminate.
  destruct v2 as [b|]; [|discriminate]. destruct (b =? 0); discriminate.
Qed.

(** With non-negative binding levels every recursive call of [eval] is on
    a strictly shorter range, so a fuel above the length of the range is
    enough. *)
Lemma eval_total (fuel : nat) (ts : list Token) :
  well_levelled ts ->
  forall p q s, (Z.to_nat (q - p + 1) < fuel)%nat ->
  eval fuel ts p q s <> OutOfFuel.
Proof.
  intros Hw. induction fuel as [|fuel IH]; intros p q s Hf; [lia|].
  rewrite eval_unfold.
  destruct (Z.gtb_spec p q) as [Hgt|Hle]; [discriminate|].
  destruct (Z.eqb_spec p q) as [->|Hne].
  - apply bind_total; [apply tok_total|]. intros t _.
    destruct (type t =? TK_NUMBER); [apply eval_number_total|].
    destruct (type t =? TK_REGISTER); [apply eval_register_total | discriminate].
  - apply bind_total; [apply check_parentheses_total|].
    intros [wrapped error] Hc. destruct wrapped.
    + apply IH. lia.
    + destruct error as [err|]; [|discriminate].
      destruct (Z.eqb_spec err BAD_EXPR) as [E|E]; [discriminate|].
      destruct (check_parentheses_operator_range _ _ _ _ _ Hc E)
        as (Hp & Hpq & Hq & Hb & _).
      destruct (op_scan_dominant ts p q Hp ltac:(lia) Hq Hw Hb)
        as (op & top & Hop & Hin & Htop & _).
      rewrite Hop. cbn [bind]. rewrite Htop. cbn [bind].
      unfold split_at.
      apply bind_total.
      { destruct (is_unary (type top)); [discriminate | apply IH; lia]. }
      intros [val1 s1] _. apply bind_total; [apply IH; lia|].
      intros [val2 s2] _. apply bind_total; [apply combine_total|].
      intros v _. discriminate.
Qed.

Lemma mark_unary_total (n : nat) :
  forall i ts, mark_unary n i ts <> OutOfFuel.
Proof.
  assert (Hset : forall ts i f, tok_set ts i f <> OutOfFuel).
  { intros ts i f. unfold tok_set. destruct (i <? 0); [discriminate|].
    destruct (update ts (Z.to_nat i) f); discriminate. }
  assert (Hre : forall ts i a b lv, retype ts i a b lv <> OutOfFuel).
  { intros ts i a b lv. unfold retype.
    apply bind_total; [apply tok_total|]. intros t _.
    destruct (type t =? a); [|discriminate].
    apply bind_total.
    - unfold unary_position. destruct (i =? 0); [discriminate|].
      apply bind_total; [apply tok_total|]. intros u _. discriminate.
    - intros [|] _; [|discriminate].
      apply bind_total; [apply Hset|]. intros ts1 _. apply Hset. }
  induction n as [|n IH]; intros i ts; simpl; [discriminate|].
  apply bind_total; [apply Hre|]. intros ts1 _.
  apply bind_total; [apply Hre|]. intros ts2 _. apply IH.
Qed.

(** [expr] ends on every machine whose binding levels are non-negative. *)
Lemma expr_total (m : machine) (e : string) (s : bool) :
  well_levelled (tokens m) -> expr m e s <> OutOfFuel.
Proof.
  intros Hw. unfold expr.
  apply bind_total; [apply make_token_total|].
  intros [ok m1] Hm. destruct ok; cbn [negb]; [|discriminate].
  apply bind_total.
  { unfold recognise_unary. apply bind_total; [apply mark_unary_total|].
    intros ts _. discriminate. }
  intros m2 Hr.
  pose proof (expr_scanned_well_levelled _ _ _ _ Hw Hm Hr) as Hw2.
  apply bind_total; [apply eval_total; [assumption | lia]|].
  intros [v s'] _. discriminate.
Qed.

(** The machine [expr] leaves keeps the invariants it relies on. *)
Lemma expr_preserves (m m' : machine) (e : string) (s s' : bool) (v : val) :
  well_levelled (tokens m) -> digit_headed (tokens m) ->
  expr m e s = Ret (v, s', m') ->
  well_levelled (tokens m') /\ digit_headed (tokens m') /\
  List.length (tokens m') = List.length (tokens m).
Proof.
  intros Hw Hd H. apply expr_inv in H.
  destruct H as [(Hm & _)|(m1 & Hm & Hr & _)].
  - destruct (scanning_digit_headed m m' m' e false Hd Hw Hm) as [Hd1 _].
    apply make_token_inv in Hm; tauto.
  - destruct (scanning_digit_headed m m1 m' e true Hd Hw Hm) as [_ Hd2].
    apply make_token_inv in Hm; [|assumption].
    destruct Hm as (Hw1 & Hl1 & _ & Hfit).
    pose proof (Hd2 Hr) as Hd'.
    apply recognise_unary_inv in Hr; [|assumption|assumption].
    destruct Hr as (Hw2 & Hl2 & _).
    split; [assumption|]. split; [assumption | congruence].
Qed.

(** Every machine a process can be in has non-negative binding levels,
    number texts that start with a digit and its 32 tokens; on it [expr]
    ends. *)
Lemma reachable_invariants (str_size : nat) (m : machine) :
  reachable isa_reg_str2val vaddr_read str_size m ->
  well_levelled (tokens m) /\ digit_headed (tokens m) /\
  List.length (tokens m) = 32%nat /\
  forall e s, expr m e s <> OutOfFuel.
Proof.
  intros H.
  assert (Hinv : well_levelled (tokens m) /\ digit_headed (tokens m) /\
                 List.length (tokens m) = 32%nat).
  { induction H as [|m m' e s s' v Hreach IH Hcall].
    - destruct (pristine_invariants str_size) as [Hw Hd].
      repeat split; assumption.
    - destruct IH as (Hw & Hd & Hl).
      destruct (expr_preserves _ _ _ _ _ _ Hw Hd Hcall) as (Hw' & Hd' & Hl').
      repeat split; try assumption. congruence. }
  destruct Hinv as (Hw & Hd & Hl). repeat split; try assumption.
  intros e s. now apply expr_total.
Qed.

End Evaluator.


Lemma well_levelled_check (ts : list Token) :
  forallb (fun t => 0 <=? precedence t) ts = true -> well_levelled ts.
Proof.
  intros H. unfold well_levelled. apply Forall_forall. intros t Ht.
  rewrite forallb_forall in H. specialize (H t Ht). lia.
Qed.

Lemma balanced_check (l : list Token) :
  l <> [] -> paren_list l 0 = Some 0 -> balanced l.
Proof. intros Hne H. now apply balanced_paren_list. Qed.

Lemma eval_splits_at_dominant_operator_witness :
  exists top,
    tok (array_of "2*(3==3)") 1 = Ret top /\ type top = ch "*" /\
    depth (array_of "2*(3==3)") 0 6 1 = 0 /\
    (forall fuel s,
       eval pc_only flat_memory (S fuel) (array_of "2*(3==3)") 0 6 s =
       split_at pc_only flat_memory fuel (array_of "2*(3==3)") 0 6 1 top s).
Proof.
  destruct (eval_splits_at_dominant_operator pc_only flat_memory
              (array_of "2*(3==3)") 0 6)
    as [(op & top & Hin & Htok & Hd & Hall & _ & Hev) _].
  - lia.
  - lia.
  - vm_compute. lia.
  - apply well_levelled_check. vm_compute. reflexivity.
  - apply balanced_check; [vm_compute; discriminate | vm_compute; reflexivity].
  - vm_compute. reflexivity.
  - assert (Hs : exists u, tok (array_of "2*(3==3)") 1 = Ret u /\
                           type u = ch "*" /\ precedence u = 30).
    { eexists. split; [vm_compute; reflexivity|]. split; reflexivity. }
    destruct Hs as (u & Hu & Htu & Hpu).
    assert (Hd1 : depth (array_of "2*(3==3)") 0 6 1 = 0)
      by (vm_compute; reflexivity).
    pose proof (Hall 1 u ltac:(lia) Hu Hd1) as Hle. rewrite Hpu in Hle.
    assert (Hc : op = 0 \/ op = 1 \/ op = 2 \/ op = 3 \/ op = 4 \/ op = 5 \/
                 op = 6) by lia.
    destruct Hc as [->|[->|[->|[->|[->|[->| ->]]]]]];
      vm_compute in Hd; try discriminate Hd.
    + vm_compute in Htok. inversion Htok. subst top.
      cbn [precedence] in Hle. lia.
    + exists top. rewrite Hu in Htok. inversion Htok. subst top.
      split; [exact Hu|]. split; [exact Htu|]. split; [exact Hd1 | exact Hev].
    + vm_compute in Htok. inversion Htok. subst top.
      cbn [precedence] in Hle. lia.
Defined.

Lemma recognise_unary_reclassifies_witness :
  exists ts',
    recognise_unary (lexed "-1*-(*2)") =
      Ret {| tokens := ts'; nr_token := 8; printed := [] |} /\
    nth_error ts' 0 =
      Some {| type := TK_MINUS; str := repeat NUL 32; precedence := 21 |} /\
    nth_error ts' 2 =
      Some {| type := ch "*"; str := repeat NUL 32; precedence := 30 |} /\
    nth_error ts' 5 =
      Some {| type := TK_DEREFERENCE; str := repeat NUL 32; precedence := 22 |}.
Proof.
  destruct (recognise_unary_reclassifies (lexed "-1*-(*2)"))
    as (ts' & Hrun & _ & Hin & _).
  - vm_compute. discriminate.
  - vm_compute. lia.
  - exists ts'. split; [exact Hrun|].
    split; [|split].
    + destruct (Hin 0%nat
                  {| type := ch "-"; str := repeat NUL 32; precedence := 40 |})
        as (_ & Hminus & _); [vm_compute; lia | reflexivity|].
      apply Hminus; reflexivity.
    + destruct (Hin 2%nat
                  {| type := ch "*"; str := repeat NUL 32; precedence := 30 |})
        as (_ & _ & Hkeep & _); [vm_compute; lia | reflexivity|].
      apply Hkeep. right. reflexivity.
    + destruct (Hin 5%nat
                  {| type := ch "*"; str := repeat NUL 32; precedence := 30 |})
        as (Hderef & _); [vm_compute; lia | reflexivity|].
      apply Hderef; reflexivity.
Defined.

Lemma register_free_check (ts : list Token) (p q : Z) :
  forallb (fun t => negb (type t =? TK_REGISTER)) ts = true ->
  register_free ts p q.
Proof.
  intros H i t _ Ht. apply tok_inv in Ht. destruct Ht as [_ Ht].
  apply nth_error_In in Ht. rewrite forallb_forall in H.
  specialize (H t Ht). destruct (Z.eqb_spec (type t) TK_REGISTER); [discriminate | assumption].
Qed.

Lemma core_never_sets_success_witness :
  value_flag (expr pc_only flat_memory (pristine 32) "1+2" false)
  = Ret (Vint 3, false).
Proof.
  destruct (core_never_sets_success pc_only flat_memory) as (_ & _ & _ & H).
  rewrite (H (pristine 32) "1+2"%string false (Vint 3)
             {| tokens := array_of "1+2"; nr_token := 3; printed := [] |}).
  - reflexivity.
  - apply well_levelled_check. vm_compute. reflexivity.
  - vm_compute. reflexivity.
  - apply register_free_check. vm_compute. reflexivity.
Defined.


Lemma not_balanced_check (l : list Token) :
  l <> [] -> paren_list l 0 <> Some 0 -> ~ balanced l.
Proof. intros Hne H Hb. apply H. now apply balanced_paren_list. Qed.


Lemma lexical_failure_is_reported_witness :
  expr pc_only flat_memory (pristine 32) "1 @ 2" true =
  Ret (Vint 0, false,
       {| tokens := tokens (lexed "1 @ 2"); nr_token := 1;
          printed := [ {| at_position := 2; shown := "1 @ 2";
                          caret_column := 2 |} ] |}).
Proof.
  refine (proj1 (lexical_failure_is_reported pc_only flat_memory
                   (pristine 32) "1 @ 2" true
                   {| rest := list_ascii_of_string "@ 2"; position := 2;
                      mach := {| tokens := tokens (lexed "1 @ 2");
                                 nr_token := 1; printed := [] |} |} _ _ _)).
  - eapply reaches_next; [discriminate | vm_compute; reflexivity |].
    eapply reaches_next; [discriminate | vm_compute; reflexivity |].
    apply reaches_here.
  - discriminate.
  - vm_compute. reflexivity.
Defined.

(** * The evaluator on particular expressions *)

(** C1.  The tokens of "(1)+(2)" are balanced and framed by parentheses,
    and the parenthesis opened by the first token is closed by the third,
    not by the last; [check_parentheses] nevertheless reports the range as
    wrapped, [eval] drops the two outer tokens, and [expr] fails on the
    expression.  The tokens of "1+2" are reported as not surrounded. *)
Theorem paren_sum_reported_wrapped :
  balanced (range (array_of "(1)+(2)") 0 6) /\
  framed (range (array_of "(1)+(2)") 0 6) = true /\
  closing_offset 0 (range (array_of "(1)+(2)") 0 6) 0 = Some 2%nat /\
  check_parentheses (array_of "(1)+(2)") 0 6 None = Ret (true, None) /\
  (forall regs mem s,
     value_flag (expr regs mem (pristine 32) "(1)+(2)" s) = Ret (Vint 0, false)) /\
  check_parentheses (array_of "1+2") 0 2 None = Ret (false, Some NOT_SURROUND).
Proof.
  split; [|split; [|split; [|split; [|split]]]].
  - apply balanced_check; [vm_compute; discriminate | vm_compute; reflexivity].
  - vm_compute. reflexivity.
  - vm_compute. reflexivity.
  - vm_compute. reflexivity.
  - intros regs mem [|]; vm_compute; reflexivity.
  - vm_compute. reflexivity.
Qed.

(** C4.  The tokens of "(1)+(2)" form a balanced range of seven tokens
    that is not fully wrapped: the parenthesis opened by the first token is
    closed by the third.  Its dominant operator is the [+] at index 3: it
    stands at depth zero, no token at depth zero has a larger binding level,
    and every token at depth zero to its right has a smaller one; a split
    there gives 3 with the flag as passed.  [eval] does not split there: it
    takes the range for wrapped, drops the two outer tokens and returns 0
    with the flag cleared, and so does [expr]. *)
Theorem paren_sum_not_split :
  balanced (range (array_of "(1)+(2)") 0 6) /\
  closing_offset 0 (range (array_of "(1)+(2)") 0 6) 0 = Some 2%nat /\
  exists top,
    tok (array_of "(1)+(2)") 3 = Ret top /\ type top = ch "+" /\
    depth (array_of "(1)+(2)") 0 6 3 = 0 /\
    (forall j u, 0 <= j <= 6 -> tok (array_of "(1)+(2)") j = Ret u ->
                 depth (array_of "(1)+(2)") 0 6 j = 0 ->
                 precedence u <= precedence top) /\
    (forall j u, 3 < j <= 6 -> tok (array_of "(1)+(2)") j = Ret u ->
                 depth (array_of "(1)+(2)") 0 6 j = 0 ->
                 precedence u < precedence top) /\
    (forall regs mem s,
       split_at regs mem 2 (array_of "(1)+(2)") 0 6 3 top s = Ret (Vint 3, s) /\
       eval regs mem 4 (array_of "(1)+(2)") 0 6 s = Ret (Vint 0, false) /\
       value_flag (expr regs mem (pristine 32) "(1)+(2)" s)
         = Ret (Vint 0, false)).
Proof.
  split; [|split].
  - apply balanced_check; [vm_compute; discriminate | vm_compute; reflexivity].
  - vm_compute. reflexivity.
  - eexists. split; [vm_compute; reflexivity|].
    split; [reflexivity|]. split; [vm_compute; reflexivity|].
    split; [|split].
    + intros j u Hj Hu Hd.
      assert (Hc : j = 0 \/ j = 1 \/ j = 2 \/ j = 3 \/ j = 4 \/ j = 5 \/ j = 6)
        by lia.
      destruct Hc as [->|[->|[->|[->|[->|[->| ->]]]]]];
        vm_compute in Hd; try discriminate Hd;
        vm_compute in Hu; inversion Hu; subst u; cbn [precedence]; lia.
    + intros j u Hj Hu Hd.
      assert (Hc : j = 4 \/ j = 5 \/ j = 6) by lia.
      destruct Hc as [->|[->| ->]];
        vm_compute in Hd; try discriminate Hd;
        vm_compute in Hu; inversion Hu; subst u; cbn [precedence]; lia.
    + intros regs mem s. repeat split; destruct s; vm_compute; reflexivity.
Qed.

(** C5.  An error in the right operand of a division stops the program.
    In "1/" the right operand is missing and in "1/()" it is an empty pair
    of parentheses: [eval] on the operand returns 0 with the flag cleared,
    the division takes the 0 for a divisor without looking at the flag, and
    [expr] stops on [panic] with the message of a division by zero.  With a
    register file that knows [pc] only, "1/$bad" stops in the same way on
    the name that does not resolve.  Behind a [+] the same operands make
    [expr] return to its caller with the flag cleared. *)
Theorem failed_divisor_is_fatal :
  (forall regs mem s,
     eval regs mem 1 (array_of "1/") 2 1 s = Ret (Vint 0, false) /\
     expr regs mem (pristine 32) "1/" s = Panic "Division by zero!!" /\
     value_flag (expr regs mem (pristine 32) "1+" s) = Ret (Vint 1, false)) /\
  (forall regs mem s,
     eval regs mem 2 (array_of "1/()") 2 3 s = Ret (Vint 0, false) /\
     expr regs mem (pristine 32) "1/()" s = Panic "Division by zero!!" /\
     value_flag (expr regs mem (pristine 32) "1+()" s) = Ret (Vint 1, false)) /\
  (forall mem s,
     eval pc_only mem 1 (array_of "1/$bad") 2 2 s = Ret (Vint 0, false) /\
     expr pc_only mem (pristine 32) "1/$bad" s = Panic "Division by zero!!" /\
     value_flag (expr pc_only mem (pristine 32) "1+$bad" s)
       = Ret (Vint 1, false)).
Proof.
  split; [|split].
  - intros regs mem s. repeat split; destruct s; vm_compute; reflexivity.
  - intros regs mem s. repeat split; destruct s; vm_compute; reflexivity.
  - intros mem s. repeat split; destruct s; vm_compute; reflexivity.
Qed.


(** C2.  The tokenizer accepts "1 2", and [expr] then reaches [assert(0)]
    in the [switch] over the kind of the chosen token: the scan picks the
    number 2, whose binding level 0 is the largest at depth zero. *)
Theorem unhandled_operator_reached :
  (exists m, make_token (pristine 32) "1 2" = Ret (true, m)) /\
  op_scan (array_of "1 2") 2 0 0 0 (-1) = Ret 1 /\
  (forall regs mem s, expr regs mem (pristine 32) "1 2" s = AssertFail).
Proof.
  split; [|split].
  - eexists. vm_compute. reflexivity.
  - vm_compute. reflexivity.
  - intros regs mem [|]; vm_compute; reflexivity.
Qed.

(** C3.  With a register file that knows [pc] only, the left operand of
    "$bad+$pc" clears the flag, the lookup of [pc] in the right operand sets
    it again, and [expr] returns with the flag set. *)
Theorem later_lookup_masks_failure :
  eval pc_only flat_memory 1 (array_of "$bad+$pc") 0 0 true
    = Ret (Vint 0, false) /\
  eval pc_only flat_memory 1 (array_of "$bad+$pc") 2 2 false
    = Ret (Vint 4096, true) /\
  value_flag (expr pc_only flat_memory (pristine 32) "$bad+$pc" true)
    = Ret (Vint 4096, true).
Proof. repeat split; vm_compute; reflexivity. Qed.

(** C7.  On the machine as loaded, "7" evaluates to 7.  After a call on
    "12345" the text of token 0 still holds the characters 2345 behind the
    7 that [strncpy] writes, and "7" evaluates to 72345. *)
Theorem stale_text_survives_calls :
  value_flag (expr pc_only flat_memory (pristine 32) "7" true)
    = Ret (Vint 7, true) /\
  (' (_, _, m1) <- expr pc_only flat_memory (pristine 32) "12345" true ;;
   value_flag (expr pc_only flat_memory m1 "7" true))
    = Ret (Vint 72345, true).
Proof. split; vm_compute; reflexivity. Qed.

(** The worked examples of the evaluator, on the machine as loaded, with
    the flag set on entry, [pc] at 0x1000 and a memory that reads 0xAB. *)
Example worked_examples :
  run "(1+2)*3" true = Ret (Vint 9, true) /\
  run "2*3+4" true = Ret (Vint 10, true) /\
  run "-3+5" true = Ret (Vint 2, true) /\
  run "*0" true = Ret (Vint 171, true) /\
  run "(1+2" true = Ret (Vint 0, false) /\
  run "1 && 0" true = Ret (Vint 0, true) /\
  run "1 || 0" true = Ret (Vint 1, true) /\
  run "$pc" true = Ret (Vint 4096, true) /\
  run "$sp" true = Ret (Vint 0, false) /\
  run "0x10 + 0X1f" true = Ret (Vint 47, true) /\
  run "--1" true = Ret (Vint 4294967295, true) /\
  run "1/0" true = Panic "Division by zero!!" /\
  run "+" true = Ret (Vundef, true).
Proof. repeat split; vm_compute; reflexivity. Qed.

(** The array holds 32 tokens: an expression of 31 tokens is evaluated, one
    of 33 tokens makes [make_token] write past the array. *)
Example token_capacity :
  run "1+1+1+1+1+1+1+1+1+1+1+1+1+1+1+1" true = Ret (Vint 16, true) /\
  run "1+1+1+1+1+1+1+1+1+1+1+1+1+1+1+1+1" true = Undefined.
Proof. split; vm_compute; reflexivity. Qed.

(** * Further properties of the code *)

Section Further.

Variable isa_reg_str2val : string -> bool -> Z * bool.
Variable vaddr_read : Z -> Z -> Z.

Local Abbreviation eval := (eval isa_reg_str2val vaddr_read).
Local Abbreviation expr := (expr isa_reg_str2val vaddr_read).

(** ** The verdicts of check_parentheses *)

(** X1.  On a range of two tokens or more inside the array,
    [check_parentheses] returns true exactly when the range is balanced and
    framed by [(] and [)]; it returns false with [NOT_SURROUND] exactly when
    the range is balanced and not framed, and false with [BAD_EXPR] exactly
    when the range is not balanced.  A range of fewer than two tokens is
    [BAD_EXPR]. *)
Theorem check_parentheses_verdicts (ts : list Token) (p q : Z) (err : option Z) :
  0 <= p -> p < q -> (Z.to_nat q < List.length ts)%nat ->
  (check_parentheses ts p q err = Ret (true, err) <->
   balanced (range ts p q) /\ framed (range ts p q) = true) /\
  (check_parentheses ts p q err = Ret (false, Some NOT_SURROUND) <->
   balanced (range ts p q) /\ framed (range ts p q) = false) /\
  (check_parentheses ts p q err = Ret (false, Some BAD_EXPR) <->
   ~ balanced (range ts p q)) /\
  (forall p' q', q' <= p' ->
   check_parentheses ts p' q' err = Ret (false, Some BAD_EXPR)).
Proof.
  intros Hp Hpq Hq.
  split; [now apply check_parentheses_wrapped_iff|].
  assert (Hne : range ts p q <> []) by (apply range_nonempty; lia).
  pose proof (balanced_paren_list (range ts p q) Hne) as Hbal.
  rewrite (check_parentheses_spec ts p q err Hp Hpq Hq).
  split; [|split].
  - rewrite Hbal. destruct (paren_list (range ts p q) 0) as [c|].
    + destruct (Z.eqb_spec c 0) as [->|Hc]; simpl.
      * destruct (framed (range ts p q)); split.
        -- discriminate.
        -- intros [_ H]. discriminate.
        -- intros _. split; reflexivity.
        -- reflexivity.
      * split; [discriminate|]. intros [H _]. congruence.
    + split; [discriminate|]. intros [H _]. discriminate.
  - rewrite Hbal. destruct (paren_list (range ts p q) 0) as [c|].
    + destruct (Z.eqb_spec c 0) as [->|Hc]; simpl.
      * destruct (framed (range ts p q)); split;
          try discriminate; intros H; exfalso; apply H; reflexivity.
      * split; [intros _ H; congruence | reflexivity].
    + split; [intros _ H; discriminate | reflexivity].
  - intros p' q' H. unfold check_parentheses.
    destruct (Z.geb_spec p' q'); [reflexivity | lia].
Qed.

(** ** eval *)

(** X2.  A balanced range framed by parentheses evaluates to what the range
    without its first and last token evaluates to, value and flag (and the
    same abort when that evaluation aborts). *)
Theorem eval_unwraps (fuel : nat) (ts : list Token) (p q : Z) (s : bool) :
  0 <= p -> p < q -> (Z.to_nat q < List.length ts)%nat ->
  balanced (range ts p q) -> framed (range ts p q) = true ->
  eval (S fuel) ts p q s = eval fuel ts (p + 1) (q - 1) s.
Proof.
  intros Hp Hpq Hq Hb Hf.
  assert (Hc : check_parentheses ts p q None = Ret (true, None))
    by (apply check_parentheses_wrapped_iff; auto).
  rewrite eval_unfold.
  destruct (Z.gtb_spec p q); [lia|]. destruct (Z.eqb_spec p q); [lia|].
  rewrite Hc. reflexivity.
Qed.

Lemma paren_scan_agree (ts ts' : list Token) (n : nat) :
  forall i cnt, agree_on ts ts' i (i + Z.of_nat n - 1) ->
  paren_scan ts n i cnt = paren_scan ts' n i cnt.
Proof.
  induction n as [|n IH]; intros i cnt H; [reflexivity|].
  simpl. rewrite <- (H i) by lia.
  destruct (tok ts i) as [t| | | |]; try reflexivity. simpl.
  destruct (step_depth t cnt <? 0); [reflexivity|].
  apply IH. intros j Hj. apply H. lia.
Qed.

Lemma op_scan_agree (ts ts' : list Token) (n : nat) :
  forall i op cur mx, agree_on ts ts' i (i + Z.of_nat n - 1) ->
  op_scan ts n i op cur mx = op_scan ts' n i op cur mx.
Proof.
  induction n as [|n IH]; intros i op cur mx H; [reflexivity|].
  simpl. rewrite <- (H i) by lia.
  destruct (tok ts i) as [t| | | |]; try reflexivity. simpl.
  destruct ((step_depth t cur =? 0) && (precedence t >=? mx));
    apply IH; intros j Hj; apply H; lia.
Qed.

Lemma check_parentheses_agree (ts ts' : list Token) (p q : Z) (err : option Z) :
  agree_on ts ts' p q ->
  check_parentheses ts p q err = check_parentheses ts' p q err.
Proof.
  intros H. unfold check_parentheses.
  destruct (Z.geb_spec p q); [reflexivity|].
  rewrite (paren_scan_agree ts ts')
    by (intros j Hj; apply H; lia).
  rewrite <- (H p) by lia. rewrite <- (H q) by lia. reflexivity.
Qed.

(** X3.  [eval] on a range reads the tokens of the range only: on two
    arrays that hold the same tokens at the indices [p..q] it returns the
    same value and flag, or aborts in the same way.  Tokens left in the
    array past the range by earlier calls have no effect.  The binding
    levels are non-negative, as all levels the program assigns are. *)
Theorem eval_reads_its_range (fuel : nat) (ts ts' : list Token) :
  well_levelled ts ->
  forall p q s, agree_on ts ts' p q ->
  eval fuel ts p q s = eval fuel ts' p q s.
Proof.
  intros Hw. induction fuel as [|fuel IH]; intros p q s H; [reflexivity|].
  rewrite !eval_unfold.
  destruct (Z.gtb_spec p q) as [Hgt|Hle]; [reflexivity|].
  destruct (Z.eqb_spec p q) as [->|Hne].
  - rewrite <- (H q) by lia. reflexivity.
  - rewrite <- (check_parentheses_agree ts ts' p q None H).
    destruct (check_parentheses ts p q None) as [[wrapped error]| | | |] eqn:Hc;
      try reflexivity.
    cbn [bind]. destruct wrapped.
    + apply IH. intros j Hj. apply H. lia.
    + destruct error as [err|]; [|reflexivity].
      destruct (Z.eqb_spec err BAD_EXPR) as [E|E]; [reflexivity|].
      destruct (check_parentheses_operator_range _ _ _ _ _ Hc E)
        as (Hp & Hpq & Hq & Hb & _).
      destruct (op_scan_dominant ts p q Hp ltac:(lia) Hq Hw Hb)
        as (op & top & Hop & Hin & Htop & _).
      rewrite <- (op_scan_agree ts ts')
        by (intros j Hj; apply H; lia).
      rewrite Hop. cbn [bind]. rewrite <- (H op) by lia.
      rewrite Htop. cbn [bind]. unfold split_at.
      assert (Hleft : eval fuel ts p (op - 1) s = eval fuel ts' p (op - 1) s)
        by (apply IH; intros j Hj; apply H; lia).
      rewrite <- Hleft.
      destruct (if is_unary (type top) then Ret (Vint 0, s)
                else eval fuel ts p (op - 1) s) as [[val1 s1]| | | |];
        try reflexivity.
      cbn [bind].
      rewrite <- (IH (op + 1) q s1) by (intros j Hj; apply H; lia).
      reflexivity.
Qed.

(** ** The depth of the recursion *)

Lemma bind_fuel {A B : Type} (m m' : outcome A) (k k' : A -> outcome B) :
  (m <> OutOfFuel -> m' = m) ->
  (forall a, m = Ret a -> k a <> OutOfFuel -> k' a = k a) ->
  bind m k <> OutOfFuel -> bind m' k' = bind m k.
Proof.
  intros Hm Hk H. destruct m as [a| | | |]; simpl in H.
  - rewrite Hm by discriminate. simpl. now apply Hk.
  - now rewrite Hm by discriminate.
  - now rewrite Hm by discriminate.
  - now rewrite Hm by discriminate.
  - now contradiction H.
Qed.

Lemma eval_fuel_step (fuel : nat) (ts : list Token) :
  forall p q s, eval fuel ts p q s <> OutOfFuel ->
  eval (S fuel) ts p q s = eval fuel ts p q s.
Proof.
  induction fuel as [|fuel IH]; intros p q s H; [now contradiction H|].
  rewrite eval_unfold in H.
  rewrite (eval_unfold isa_reg_str2val vaddr_read (S fuel) ts p q s),
    (eval_unfold isa_reg_str2val vaddr_read fuel ts p q s).
  destruct (p >? q); [reflexivity|].
  destruct (p =? q); [reflexivity|].
  destruct (check_parentheses ts p q None) as [[wrapped error]| | | |];
    try reflexivity.
  cbn [bind] in H |- *. destruct wrapped; [now apply IH|].
  destruct error as [err|]; [|reflexivity].
  destruct (err =? BAD_EXPR); [reflexivity|].
  destruct (op_scan ts (Z.to_nat (q - p + 1)) p 0 0 (-1)) as [op| | | |];
    try reflexivity.
  cbn [bind] in H |- *.
  destruct (tok ts op) as [top| | | |]; try reflexivity.
  cbn [bind] in H |- *. unfold split_at in H |- *.
  apply bind_fuel; [| |exact H].
  - destruct (is_unary (type top)); [reflexivity | apply IH].
  - intros [val1 s1] _ H1. apply bind_fuel; [| |exact H1].
    + apply IH.
    + intros [val2 s2] _ _. reflexivity.
Qed.

Lemma eval_fuel_more (k fuel : nat) (ts : list Token) (p q : Z) (s : bool) :
  eval fuel ts p q s <> OutOfFuel ->
  eval (k + fuel) ts p q s = eval fuel ts p q s.
Proof.
  intros H. induction k as [|k IH]; [reflexivity|].
  simpl Nat.add. rewrite eval_fuel_step; [assumption | now rewrite IH].
Qed.

(** X4.  The recursion of [eval] ends: every recursive call is on a
    strictly shorter range, so with non-negative binding levels a call depth
    above the length of the range is never exceeded, and the result is the
    same for every larger bound on the depth. *)
Theorem eval_recursion_ends (fuel fuel' : nat) (ts : list Token) (p q : Z)
    (s : bool) :
  well_levelled ts ->
  (Z.to_nat (q - p + 1) < fuel)%nat -> (Z.to_nat (q - p + 1) < fuel')%nat ->
  eval fuel ts p q s <> OutOfFuel /\
  eval fuel' ts p q s = eval fuel ts p q s.
Proof.
  intros Hw Hf Hf'.
  pose proof (eval_total isa_reg_str2val vaddr_read fuel ts Hw p q s Hf) as H.
  pose proof (eval_total isa_reg_str2val vaddr_read fuel' ts Hw p q s Hf') as H'.
  split; [assumption|].
  destruct (Nat.le_ge_cases fuel fuel') as [Hle|Hle].
  - replace fuel' with ((fuel' - fuel) + fuel)%nat by lia.
    now apply eval_fuel_more.
  - symmetry. replace fuel with ((fuel - fuel') + fuel')%nat by lia.
    now apply eval_fuel_more.
Qed.

(** ** What make_token writes *)

Lemma tok_split (ts : list Token) (i : Z) (x : Token) :
  tok ts i = Ret x ->
  exists pre post, ts = pre ++ x :: post /\ i = Z.of_nat (List.length pre).
Proof.
  intros H. apply tok_inv in H. destruct H as [Hi H].
  apply nth_error_split in H. destruct H as (pre & post & Hts & Hlen).
  exists pre, post. split; [assumption | lia].
Qed.

Lemma tok_set_tok (ts ts' : list Token) (i : Z) (f : Token -> Token) :
  tok_set ts i f = Ret ts' -> exists x, tok ts i = Ret x.
Proof.
  intros H. apply tok_set_bound in H. destruct H as [Hi Hl].
  now apply tok_in_bounds.
Qed.

Lemma put_operator_app (pre post : list Token) (x : Token) (tt lv : Z) :
  put_operator (pre ++ x :: post) (Z.of_nat (List.length pre)) tt lv =
  Ret (pre ++ {| type := tt; str := str x; precedence := lv |} :: post,
       Z.of_nat (List.length pre) + 1).
Proof.
  unfold put_operator. rewrite tok_set_app. cbn [bind].
  rewrite tok_set_app. reflexivity.
Qed.

Lemma put_literal_app (pre post : list Token) (x : Token) (tt : Z)
    (src : list ascii) (len : nat) :
  put_literal (pre ++ x :: post) (Z.of_nat (List.length pre)) tt src len =
  (s <- strncpy (str x) src len ;;
   Ret (pre ++ {| type := tt; str := s; precedence := OP_LV0 |} :: post,
        Z.of_nat (List.length pre) + 1)).
Proof.
  unfold put_literal. rewrite tok_set_app. cbn [bind].
  rewrite tok_app. cbn [bind]. cbn [set_type str].
  destruct (strncpy (str x) src len) as [s| | | |]; try reflexivity.
  cbn [bind]. rewrite tok_set_app. cbn [bind]. rewrite tok_set_app.
  reflexivity.
Qed.

(** The token that a rule of kind [tt] leaves at [tokens[nr]]: its kind is
    [tt], its level the level of the kind, and its text the old text, or for
    a number or a register what [strncpy] makes of it. *)
Lemma record_token_rule_inv (r : rule) (ts ts' : list Token) (nr nr' : Z)
    (src : list ascii) (len : nat) :
  In r rules ->
  record_token ts nr (token_type r) src len = Ret (ts', nr') ->
  (token_type r = TK_NOTYPE /\ ts' = ts /\ nr' = nr) \/
  (exists pre x post s lv,
     ts = pre ++ x :: post /\ nr = Z.of_nat (List.length pre) /\
     nr' = nr + 1 /\
     level_of (token_type r) = Some lv /\
     token_type r <> TK_MINUS /\ token_type r <> TK_DEREFERENCE /\
     ts' = pre ++ {| type := token_type r; str := s; precedence := lv |} :: post /\
     ((token_type r <> TK_NUMBER /\ token_type r <> TK_REGISTER /\ s = str x) \/
      ((token_type r = TK_NUMBER \/ token_type r = TK_REGISTER) /\
       strncpy (str x) src len = Ret s))).
Proof.
  intros Hin H. simpl in Hin.
  repeat (destruct Hin as [Hin|Hin]; [subst r|]); [..|contradiction];
    cbn [token_type] in H |- *;
    try (left; inversion H; repeat split; reflexivity);
    right;
    match type of H with
    | record_token _ _ ?tt _ _ = _ =>
        let H1 := fresh "H1" in
        assert (H1 : exists x, tok ts nr = Ret x)
          by (unfold record_token in H; cbn in H;
              unfold put_operator, put_literal in H;
              apply bind_Ret_inv in H; destruct H as (? & H & _);
              eapply tok_set_tok; exact H);
        destruct H1 as [x Hx];
        destruct (tok_split _ _ _ Hx) as (pre & post & -> & ->)
    end;
    unfold record_token in H;
    repeat match type of H with
           | context [Z.eqb ?a ?b] =>
               let v := eval vm_compute in (Z.eqb a b) in
               change (Z.eqb a b) with v in H
           end;
    cbn [orb] in H; cbv iota in H.
  all: try (rewrite put_operator_app in H; inversion H; subst;
            exists pre, x, post, (str x); eexists;
            repeat (split; [reflexivity || discriminate|]);
            left; repeat split; discriminate || reflexivity).
  all: rewrite put_literal_app in H;
       destruct (strncpy (str x) src len) as [s| | | |] eqn:Es;
       try discriminate; cbn [bind] in H; inversion H; subst;
       exists pre, x, post, s; eexists;
       repeat (split; [reflexivity || discriminate|]);
       right; split; [auto | assumption].
Qed.

Lemma nth_error_splice {A : Type} (pre post : list A) (a b : A) (j : nat) :
  j <> List.length pre ->
  nth_error (pre ++ a :: post) j = nth_error (pre ++ b :: post) j.
Proof.
  intros Hj. destruct (Nat.ltb_spec j (List.length pre)).
  - now rewrite !nth_error_app1 by assumption.
  - rewrite !nth_error_app2 by assumption.
    destruct (j - List.length pre)%nat eqn:E; [lia | reflexivity].
Qed.

Lemma nth_error_middle {A : Type} (pre post : list A) (a : A) :
  nth_error (pre ++ a :: post) (List.length pre) = Some a.
Proof. rewrite nth_error_app2 by lia. now rewrite Nat.sub_diag. Qed.

Lemma lex_one_step_inv (e : string) (c c' : cursor) :
  lex_one e c = Ret (inl c') ->
  exists r len,
    In r rules /\ (1 <= len <= List.length (rest c))%nat /\
    first_match rules (rest c) = Some (r, len) /\
    record_token (tokens (mach c)) (nr_token (mach c)) (token_type r)
      (rest c) len = Ret (tokens (mach c'), nr_token (mach c')) /\
    rest c' = skipn len (rest c) /\
    position c' = position c + Z.of_nat len /\
    printed (mach c') = printed (mach c).
Proof.
  unfold lex_one. intros H.
  destruct (first_match rules (rest c)) as [[r len]|] eqn:E; [|discriminate].
  bind_split H as [ts nr] Hr. inversion H. subst. simpl.
  exists r, len. destruct (first_match_rule _ _ _ _ E) as [Hin _].
  pose proof (rules_match_bounds _ _ _ E).
  repeat split; (assumption || lia || reflexivity).
Qed.

Lemma lex_one_stop_inv (e : string) (c : cursor) (m : machine) :
  lex_one e c = Ret (inr m) ->
  first_match rules (rest c) = None /\
  m = {| tokens := tokens (mach c); nr_token := nr_token (mach c);
         printed := printed (mach c) ++
           [ {| at_position := position c; shown := e;
                caret_column := position c |} ] |}.
Proof.
  unfold lex_one. intros H.
  destruct (first_match rules (rest c)) as [[r len]|] eqn:E.
  - bind_split H as [ts nr] Hr. discriminate.
  - inversion H. split; reflexivity.
Qed.

(** What a run of the loop of [make_token] from the cursor [c] does to the
    array: it writes the slots from [nr_token] on, one per token, with the
    kind of the rule and the level of the kind, and nothing else. *)
Lemma make_token_loop_writes (fuel : nat) (e : string) :
  forall c ok m', make_token_loop fuel e c = Ret (ok, m') ->
  0 <= nr_token (mach c) ->
  (Z.to_nat (nr_token (mach c)) <= List.length (tokens (mach c)))%nat ->
  List.length (tokens m') = List.length (tokens (mach c)) /\
  nr_token (mach c) <= nr_token m' /\
  nr_token m' <= nr_token (mach c) + Z.of_nat (List.length (rest c)) /\
  (Z.to_nat (nr_token m') <= List.length (tokens m'))%nat /\
  (forall j, (j < Z.to_nat (nr_token (mach c)))%nat \/
             (Z.to_nat (nr_token m') <= j)%nat ->
             nth_error (tokens m') j = nth_error (tokens (mach c)) j) /\
  (forall j t, (Z.to_nat (nr_token (mach c)) <= j < Z.to_nat (nr_token m'))%nat ->
               nth_error (tokens m') j = Some t ->
               kind_levelled t /\ type t <> TK_MINUS /\
               type t <> TK_DEREFERENCE) /\
  (if ok then printed m' = printed (mach c)
   else exists pos, 0 <= pos - position c < Z.of_nat (List.length (rest c)) /\
                    printed m' = printed (mach c) ++
                      [ {| at_position := pos; shown := e;
                           caret_column := pos |} ]).
Proof.
  induction fuel as [|fuel IH]; intros c ok m' H H0 Hfit; [discriminate|].
  simpl in H. destruct (rest c) as [|a l] eqn:Er.
  - inversion H. subst.
    repeat split; try (reflexivity || lia); intros j t Hj; lia.
  - bind_split H as [c'|m] Hl.
    + destruct (lex_one_step_inv _ _ _ Hl)
        as (r & len & Hin & Hlen & _ & Hrec & Hrest & Hpos & Hpr).
      rewrite Er in Hlen, Hrest.
      assert (Hshort : List.length (rest c') = (S (List.length l) - len)%nat).
      { rewrite Hrest, length_skipn. reflexivity. }
      cbn [List.length] in Hlen |- *.
      destruct (record_token_rule_inv _ _ _ _ _ _ _ Hin Hrec)
        as [(_ & Hts & Hnr)|
            (pre & x & post & s & lv & Hts & Hnr & Hnr' & Hlv & Hm & Hd & Hts' & _)].
      * rewrite <- Hts, <- Hnr in *.
        destruct (IH c' ok m' H H0 Hfit) as (Hl1 & Hn1 & Hn2 & Hf1 & Hfr & Hk & Hp).
        repeat (split; [assumption || lia|]).
        destruct ok.
        -- congruence.
        -- destruct Hp as (pos & Hpos' & Hp). exists pos.
           split; [lia | congruence].
      * assert (Hlen1 : List.length (tokens (mach c')) =
                        List.length (tokens (mach c))).
        { rewrite Hts', Hts, !length_app. reflexivity. }
        assert (Hpre : Z.to_nat (nr_token (mach c)) = List.length pre) by lia.
        destruct (IH c' ok m' H) as (Hl1 & Hn1 & Hn2 & Hf1 & Hfr & Hk & Hp).
        { lia. }
        { rewrite Hlen1, Hts, length_app. simpl. lia. }
        split; [congruence|]. split; [lia|]. split; [lia|].
        split; [assumption|]. split; [|split].
        -- intros j Hj. rewrite Hfr by lia. rewrite Hts', Hts.
           apply nth_error_splice. lia.
        -- intros j t Hj Ht.
           destruct (Nat.eq_dec j (List.length pre)) as [->|Hne].
           ++ rewrite Hfr in Ht by lia. rewrite Hts', nth_error_middle in Ht.
              inversion Ht. subst t. unfold kind_levelled. simpl.
              repeat split; assumption.
           ++ apply (Hk j t); [lia | assumption].
        -- destruct ok.
           ++ congruence.
           ++ destruct Hp as (pos & Hpos' & Hp). exists pos.
              split; [lia | congruence].
    + inversion H. subst. apply lex_one_stop_inv in Hl.
      destruct Hl as [_ ->]. simpl.
      split; [reflexivity|]. split; [lia|]. split; [lia|].
      split; [assumption|]. split; [reflexivity|]. split.
      * intros j t Hj. lia.
      * exists (position c). split; [lia | reflexivity].
Qed.

(** X5.  When [make_token] returns, the array still has its length,
    [nr_token] is at most the length of the array and at most the number of
    characters of the expression, and the tokens from index [nr_token] on
    are those the array held before the call.  When it returns true it has
    added no no-match report to those printed before; when it returns false
    it has added exactly one, for the whole expression, whose position is
    that of a character of the expression and whose caret stands in the
    column of that position. *)
Theorem make_token_frame (m m' : machine) (e : string) (ok : bool) :
  make_token m e = Ret (ok, m') ->
  List.length (tokens m') = List.length (tokens m) /\
  0 <= nr_token m' /\
  (Z.to_nat (nr_token m') <= List.length (tokens m'))%nat /\
  nr_token m' <= Z.of_nat (List.length (c_chars (list_ascii_of_string e))) /\
  (forall j, (Z.to_nat (nr_token m') <= j)%nat ->
             nth_error (tokens m') j = nth_error (tokens m) j) /\
  (if ok then printed m' = printed m
   else exists pos,
          0 <= pos < Z.of_nat (List.length (c_chars (list_ascii_of_string e))) /\
          printed m' = printed m ++
            [ {| at_position := pos; shown := e; caret_column := pos |} ]).
Proof.
  unfold make_token. intros H.
  apply make_token_loop_writes in H; [|simpl; lia|simpl; lia].
  simpl in H. destruct H as (Hl & Hn1 & Hn2 & Hfit & Hfr & _ & Hp).
  repeat (split; [assumption || lia|]). split.
  - intros j Hj. apply Hfr. now right.
  - destruct ok; [assumption|].
    destruct Hp as (pos & Hpos & Hp). exists pos. split; [lia | assumption].
Qed.

Lemma reclassify_kind_levelled (u : bool) (t : Token) :
  kind_levelled t -> kind_levelled (reclassify u t).
Proof.
  unfold reclassify. intros H.
  destruct ((type t =? ch "*") && u); [reflexivity|].
  destruct ((type t =? ch "-") && u); [reflexivity | assumption].
Qed.

(** X6.  Each of the [nr_token] tokens that [make_token] returns has a
    kind of the rule table, never unary minus or dereference, and the binding
    level that belongs to its kind; after the loop of [expr] each of them has
    a token kind of the program and the level of that kind.  This holds
    whatever the array held before the call. *)
Theorem scanned_tokens_are_levelled (m m1 : machine) (e : string) (ok : bool) :
  make_token m e = Ret (ok, m1) ->
  (forall i t, 0 <= i < nr_token m1 -> tok (tokens m1) i = Ret t ->
     kind_levelled t /\ type t <> TK_MINUS /\ type t <> TK_DEREFERENCE) /\
  (forall m2 i t, recognise_unary m1 = Ret m2 ->
     0 <= i < nr_token m2 -> tok (tokens m2) i = Ret t -> kind_levelled t).
Proof.
  unfold make_token. intros H.
  apply make_token_loop_writes in H; [|simpl; lia|simpl; lia].
  simpl in H. destruct H as (_ & Hn1 & _ & Hfit & _ & Hk & _).
  assert (H1 : forall i t, 0 <= i < nr_token m1 -> tok (tokens m1) i = Ret t ->
               kind_levelled t /\ type t <> TK_MINUS /\ type t <> TK_DEREFERENCE).
  { intros i t Hi Ht. apply tok_inv in Ht. destruct Ht as [_ Ht].
    apply (Hk (Z.to_nat i)); [lia | assumption]. }
  split; [assumption|].
  intros m2 i t Hr Hi Ht. unfold recognise_unary in Hr.
  bind_split Hr as ts' Hm. inversion Hr. subst m2. simpl in Hi, Ht.
  apply tok_inv in Ht. destruct Ht as [_ Ht].
  destruct (nth_error (tokens m1) (Z.to_nat i)) as [t1|] eqn:E1.
  - assert (Hlt : (Z.to_nat i < Z.to_nat (nr_token m1))%nat) by lia.
    rewrite (mark_unary_nth _ _ _ _ t1 Hfit Hm Hlt E1) in Ht.
    inversion Ht. apply reclassify_kind_levelled.
    apply (H1 i t1); [lia|]. apply tok_nth; [lia | assumption].
  - apply nth_error_None in E1. lia.
Qed.

(** ** The text of a literal *)

Lemma c_chars_no_nul (s : list ascii) :
  Forall (fun c => is_nul c = false) (c_chars s).
Proof.
  induction s as [|c s IH]; simpl; [constructor|].
  destruct (is_nul c) eqn:E; [constructor|]. now constructor.
Qed.

Lemma c_string_app (a b : list ascii) :
  Forall (fun c => is_nul c = false) a ->
  c_string (a ++ b) = option_map (app a) (c_string b).
Proof.
  induction 1 as [|c a Hc Ha IH]; simpl.
  - destruct (c_string b); reflexivity.
  - rewrite Hc, IH. destruct (c_string b); reflexivity.
Qed.

Lemma strncpy_long_source (dst src : list ascii) (len : nat) :
  (len <= List.length (c_chars src))%nat -> (len <= List.length dst)%nat ->
  strncpy dst src len = Ret (firstn len (c_chars src) ++ skipn len dst).
Proof.
  intros Hs Hd. unfold strncpy.
  destruct (Nat.leb_spec len (List.length dst)); [|lia].
  rewrite firstn_app.
  replace (len - List.length (c_chars src))%nat with 0%nat by lia.
  cbn [firstn]. now rewrite app_nil_r.
Qed.

(** X7.  When [make_token] records a number or a register in a slot whose
    [str] has room for the matched characters, the text of the token is the
    matched characters followed by what the slot's text held from that offset
    on: [strncpy] adds no terminator.  In a slot that holds a NUL at that
    offset the text is exactly the matched characters. *)
Theorem literal_text_keeps_old_tail (ts : list Token) (nr tt : Z) (x : Token)
    (src : list ascii) (len : nat) :
  tok ts nr = Ret x ->
  (len <= List.length (c_chars src))%nat -> (len <= List.length (str x))%nat ->
  exists ts' t',
    put_literal ts nr tt src len = Ret (ts', nr + 1) /\
    tok ts' nr = Ret t' /\ type t' = tt /\ precedence t' = OP_LV0 /\
    c_string (str t') =
      option_map (app (firstn len (c_chars src)))
                 (c_string (skipn len (str x))) /\
    (nth_error (str x) len = Some NUL ->
     c_string (str t') = Some (firstn len (c_chars src))).
Proof.
  intros Hx Hs Hd. destruct (tok_split _ _ _ Hx) as (pre & post & -> & ->).
  rewrite put_literal_app, (strncpy_long_source _ _ _ Hs Hd). cbn [bind].
  eexists. eexists. split; [reflexivity|].
  split; [apply tok_app|]. cbn [type precedence str].
  split; [reflexivity|]. split; [reflexivity|].
  assert (Happ : c_string (firstn len (c_chars src) ++ skipn len (str x)) =
                 option_map (app (firstn len (c_chars src)))
                            (c_string (skipn len (str x)))).
  { apply c_string_app.
    pose proof (c_chars_no_nul src) as Hn.
    rewrite <- (firstn_skipn len (c_chars src)) in Hn.
    apply Forall_app in Hn. destruct Hn as [Hn _]. exact Hn. }
  split; [assumption|].
  intros Hnul. rewrite Happ.
  rewrite (skipn_nth_cons _ _ _ Hnul). simpl. now rewrite app_nil_r.
Qed.

(** ** make_token never stops the program *)

Lemma bind_plain {A B : Type} (m : outcome A) (k : A -> outcome B) :
  returns_or_undefined m -> (forall a, returns_or_undefined (k a)) ->
  returns_or_undefined (bind m k).
Proof.
  intros [->|[a ->]] Hk; [now left | apply Hk].
Qed.

Lemma tok_plain (ts : list Token) (i : Z) : returns_or_undefined (tok ts i).
Proof.
  unfold tok. destruct (i <? 0); [now left|].
  destruct (nth_error ts (Z.to_nat i)) as [t|]; [right; now exists t | now left].
Qed.

Lemma tok_set_plain (ts : list Token) (i : Z) (f : Token -> Token) :
  returns_or_undefined (tok_set ts i f).
Proof.
  unfold tok_set. destruct (i <? 0); [now left|].
  destruct (update ts (Z.to_nat i) f) as [t|]; [right; now exists t | now left].
Qed.

Lemma put_operator_plain (ts : list Token) (nr tt lv : Z) :
  returns_or_undefined (put_operator ts nr tt lv).
Proof.
  unfold put_operator. apply bind_plain; [apply tok_set_plain|]. intros ts1.
  apply bind_plain; [apply tok_set_plain|]. intros ts2. right. now eexists.
Qed.

Lemma put_literal_plain (ts : list Token) (nr tt : Z) (src : list ascii)
    (len : nat) :
  returns_or_undefined (put_literal ts nr tt src len).
Proof.
  unfold put_literal. apply bind_plain; [apply tok_set_plain|]. intros ts1.
  apply bind_plain; [apply tok_plain|]. intros t.
  apply bind_plain.
  { unfold strncpy. destruct (len <=? List.length (str t))%nat;
      [right; now eexists | now left]. }
  intros s. apply bind_plain; [apply tok_set_plain|]. intros ts2.
  apply bind_plain; [apply tok_set_plain|]. intros ts3. right. now eexists.
Qed.

(** The [switch] of [make_token] handles the kind of every rule. *)
Lemma record_token_rule_plain (r : rule) (ts : list Token) (nr : Z)
    (src : list ascii) (len : nat) :
  In r rules ->
  returns_or_undefined (record_token ts nr (token_type r) src len).
Proof.
  intros Hin. simpl in Hin.
  repeat (destruct Hin as [Hin|Hin]; [subst r|]); [..|contradiction];
    cbn [token_type]; unfold record_token;
    repeat match goal with
           | |- context [Z.eqb ?a ?b] =>
               let v := eval vm_compute in (Z.eqb a b) in
               change (Z.eqb a b) with v
           end;
    cbn [orb]; cbv iota;
    first [ right; now eexists
          | apply put_operator_plain
          | apply put_literal_plain ].
Qed.

Lemma make_token_loop_plain (fuel : nat) (e : string) :
  forall c, (List.length (rest c) < fuel)%nat ->
  returns_or_undefined (make_token_loop fuel e c).
Proof.
  induction fuel as [|fuel IH]; intros c Hf; [lia|].
  simpl. destruct (rest c) as [|a l] eqn:Er; [right; now eexists|].
  unfold lex_one. rewrite Er.
  destruct (first_match rules (a :: l)) as [[r len]|] eqn:E.
  - destruct (first_match_rule _ _ _ _ E) as [Hin _].
    apply rules_match_bounds in E.
    destruct (record_token_rule_plain r (tokens (mach c)) (nr_token (mach c))
                (a :: l) len Hin) as [->|[[ts nr] ->]]; [now left|].
    cbn [bind]. apply IH. cbn [rest]. rewrite length_skipn.
    cbn [List.length] in *. lia.
  - cbn [bind]. right. now eexists.
Qed.

(** X8.  [make_token] never reaches the [assert(0)] of its [switch] and
    never panics: every kind in the rule table has a case.  It returns, or
    it has written outside the array or a [str] member. *)
Theorem make_token_never_asserts (m : machine) (e : string) :
  make_token m e = Undefined \/ exists ok m', make_token m e = Ret (ok, m').
Proof.
  destruct (make_token_loop_plain
              (S (List.length (c_chars (list_ascii_of_string e)))) e (start m e))
    as [H|[[ok m'] H]].
  - simpl. lia.
  - now left.
  - right. now exists ok, m'.
Qed.

(** ** Expressions that fit *)

Lemma strncpy_length (dst src s : list ascii) (len : nat) :
  strncpy dst src len = Ret s -> List.length s = List.length dst.
Proof.
  unfold strncpy. destruct (Nat.leb_spec len (List.length dst)); [|discriminate].
  intros H0. inversion H0.
  rewrite length_app, length_firstn, length_app, repeat_length, length_skipn.
  lia.
Qed.

Lemma roomy_le (n n' : nat) (ts : list Token) :
  (n' <= n)%nat -> roomy n ts -> roomy n' ts.
Proof.
  intros Hn H. unfold roomy in *. rewrite Forall_forall in *.
  intros t Ht. specialize (H t Ht). lia.
Qed.

Lemma record_token_fits (r : rule) (ts : list Token) (nr : Z)
    (src : list ascii) (len : nat) :
  In r rules -> 0 <= nr -> (Z.to_nat nr < List.length ts)%nat ->
  roomy len ts ->
  exists ts' nr',
    record_token ts nr (token_type r) src len = Ret (ts', nr') /\
    (forall n, roomy n ts -> roomy n ts').
Proof.
  intros Hin H0 Hnr Hroom.
  destruct (tok_in_bounds ts nr H0 Hnr) as [x Hx].
  destruct (tok_split _ _ _ Hx) as (pre & post & -> & ->).
  assert (Hxroom : (len <= List.length (str x))%nat).
  { unfold roomy in Hroom. rewrite Forall_forall in Hroom.
    apply Hroom. apply in_or_app. right. now left. }
  assert (Hput : forall tt lv s,
            List.length s = List.length (str x) ->
            forall n, roomy n (pre ++ x :: post) ->
            roomy n (pre ++ {| type := tt; str := s; precedence := lv |} :: post)).
  { intros tt lv s Hs n Hn. unfold roomy in *.
    apply Forall_app in Hn. destruct Hn as [Hpre Hpost].
    inversion Hpost; subst. apply Forall_app. split; [assumption|].
    constructor; [simpl; lia | assumption]. }
  simpl in Hin.
  repeat (destruct Hin as [Hin|Hin]; [subst r|]); [..|contradiction];
    cbn [token_type]; unfold record_token;
    repeat match goal with
           | |- context [Z.eqb ?a ?b] =>
               let v := eval vm_compute in (Z.eqb a b) in
               change (Z.eqb a b) with v
           end;
    cbn [orb]; cbv iota;
    try (eexists; eexists; split; [reflexivity | auto]; fail);
    try (rewrite put_operator_app; eexists; eexists;
         split; [reflexivity | apply Hput; reflexivity]).
  all: rewrite put_literal_app;
       destruct (strncpy (str x) src len) as [s| | | |] eqn:Es;
       try (unfold strncpy in Es;
            destruct (Nat.leb_spec len (List.length (str x)));
            [discriminate Es | lia]);
       cbn [bind]; eexists; eexists; split; [reflexivity|];
       apply Hput; eapply strncpy_length; eassumption.
Qed.

Lemma make_token_loop_fits (fuel : nat) (e : string) :
  forall c, (List.length (rest c) < fuel)%nat ->
  0 <= nr_token (mach c) ->
  (Z.to_nat (nr_token (mach c)) + List.length (rest c)
   <= List.length (tokens (mach c)))%nat ->
  roomy (List.length (rest c)) (tokens (mach c)) ->
  exists ok m', make_token_loop fuel e c = Ret (ok, m').
Proof.
  induction fuel as [|fuel IH]; intros c Hf H0 Hfit Hroom; [lia|].
  simpl. destruct (rest c) as [|a l] eqn:Er; [now eexists; eexists|].
  unfold lex_one. rewrite Er.
  destruct (first_match rules (a :: l)) as [[r len]|] eqn:E.
  - destruct (first_match_rule _ _ _ _ E) as [Hin _].
    apply rules_match_bounds in E. cbn [List.length] in E, Hf, Hfit, Hroom.
    destruct (record_token_fits r (tokens (mach c)) (nr_token (mach c))
                (a :: l) len Hin H0) as (ts' & nr' & Hrec & Hkeep).
    { lia. }
    { apply (roomy_le (S (List.length l))); [lia | assumption]. }
    pose proof Hrec as Hrec'.
    apply record_token_rule_inv in Hrec'; [|assumption].
    rewrite Hrec. cbn [bind]. apply IH; cbn [rest mach tokens nr_token].
    + rewrite length_skipn. cbn [List.length]. lia.
    + destruct Hrec' as [(_ & _ & ->)|(? & ? & ? & ? & ? & _ & _ & -> & _)]; lia.
    + rewrite length_skipn. cbn [List.length].
      destruct Hrec' as [(_ & -> & ->)|
        (pre & x & post & s & lv & Hts & Hnr & -> & _ & _ & _ & -> & _)].
      * lia.
      * rewrite Hts, length_app in Hfit. rewrite length_app.
        cbn [List.length] in *. lia.
    + apply Hkeep. rewrite length_skipn. cbn [List.length].
      apply (roomy_le (S (List.length l))); [lia | assumption].
  - cbn [bind]. now eexists; eexists.
Qed.

(** X9.  An expression with no more characters than the array has
    tokens, and no more than every [str] member has bytes, is tokenized
    without a write outside the array or outside a text: [make_token]
    returns. *)
Theorem make_token_fits (m : machine) (e : string) :
  (List.length (c_chars (list_ascii_of_string e)) <= List.length (tokens m))%nat ->
  roomy (List.length (c_chars (list_ascii_of_string e))) (tokens m) ->
  exists ok m', make_token m e = Ret (ok, m').
Proof.
  intros Hlen Hroom. unfold make_token.
  apply make_token_loop_fits; simpl; (assumption || lia).
Qed.

(** ** Blank expressions *)

Lemma longest_star_blank (k : nat) :
  forall n best,
  longest (Star (Chr " ")) (blank k) n best = Some (n + k)%nat.
Proof.
  induction k as [|k IH]; intros n best.
  - simpl. f_equal. lia.
  - change (longest (Star (Chr " ")) (blank (S k)) n best)
      with (longest (Star (Chr " ")) (blank k) (S n) (Some n)).
    rewrite IH. f_equal. lia.
Qed.

Lemma first_match_blank (k : nat) :
  exists r, first_match rules (blank (S k)) = Some (r, S k) /\
            token_type r = TK_NOTYPE.
Proof.
  eexists. split.
  - unfold rules. cbn [first_match regex_of].
    change (regexec_at0 (Plus (Chr " ")) (blank (S k)))
      with (longest (Star (Chr " ")) (blank k) 1 None).
    rewrite longest_star_blank. reflexivity.
  - reflexivity.
Qed.

Lemma c_chars_id (s : list ascii) :
  Forall (fun c => is_nul c = false) s -> c_chars s = s.
Proof.
  induction 1 as [|c s Hc Hs IH]; simpl; [reflexivity|].
  now rewrite Hc, IH.
Qed.

Lemma blank_no_nul (n : nat) : Forall (fun c => is_nul c = false) (blank n).
Proof.
  apply Forall_forall. intros c Hc. apply repeat_spec in Hc. now subst.
Qed.

(** X10.  On an expression that is empty or consists of spaces only,
    [make_token] records no token and [expr] returns 0 with the flag
    cleared; the tokens of the array are those it held before, and no
    no-match report is added to those printed before. *)
Theorem blank_expression_fails (m : machine) (n : nat) (s : bool) :
  expr m (string_of_list_ascii (blank n)) s =
  Ret (Vint 0, false,
       {| tokens := tokens m; nr_token := 0; printed := printed m |}).
Proof.
  assert (Hmt : make_token m (string_of_list_ascii (blank n)) =
                Ret (true, {| tokens := tokens m; nr_token := 0;
                              printed := printed m |})).
  { unfold make_token, start.
    rewrite list_ascii_of_string_of_list_ascii, (c_chars_id _ (blank_no_nul n)).
    unfold blank at 1. rewrite repeat_length.
    destruct n as [|k]; [reflexivity|].
    destruct (first_match_blank k) as (r & Hr & Hty).
    cbn [make_token_loop rest]. change (repeat " "%char (S k)) with (blank (S k)).
    change (match blank (S k) with
            | [] => Ret (true, _)
            | _ :: _ => ?body
            end) with body.
    unfold lex_one. cbn [rest mach tokens nr_token printed position].
    rewrite Hr, Hty. cbn [record_token Z.eqb TK_NOTYPE Pos.eqb bind].
    assert (Hskip : skipn (S k) (blank (S k)) = []).
    { apply skipn_all2. unfold blank. rewrite repeat_length. lia. }
    rewrite Hskip. reflexivity. }
  unfold expr. rewrite Hmt. reflexivity.
Qed.

(** ** The loop of expr, run again *)

Lemma reclassify_idempotent (u : bool) (t : Token) :
  reclassify u (reclassify u t) = reclassify u t.
Proof.
  unfold reclassify.
  destruct ((type t =? ch "*") && u) eqn:E1; [reflexivity|].
  destruct ((type t =? ch "-") && u) eqn:E2; [reflexivity|].
  now rewrite E1, E2.
Qed.

Lemma reclassify_from_idempotent (l : list Token) :
  forall u, reclassify_from u (reclassify_from u l) = reclassify_from u l.
Proof.
  induction l as [|t l IH]; intros u; [reflexivity|].
  cbn [reclassify_from]. rewrite reclassify_idempotent. f_equal. apply IH.
Qed.

(** X11.  The loop of [expr] that recognises the unary operators changes
    nothing when it is run on its own result: what was reclassified stays,
    and what was left alone is left alone again. *)
Theorem recognise_unary_idempotent (m m' : machine) :
  (Z.to_nat (nr_token m) <= List.length (tokens m))%nat ->
  recognise_unary m = Ret m' -> recognise_unary m' = Ret m'.
Proof.
  intros Hn H. unfold recognise_unary in H |- *.
  rewrite mark_unary_run in H by assumption. inversion H. subst m'. clear H.
  cbn [tokens nr_token printed].
  set (n := Z.to_nat (nr_token m)). set (ts := tokens m). fold n ts in Hn.
  assert (Hlen : List.length (reclassify_from true (firstn n ts)) = n)
    by (rewrite reclassify_from_length, length_firstn; lia).
  rewrite mark_unary_run by (rewrite length_app, Hlen; lia).
  set (done := reclassify_from true (firstn n ts)) in *.
  assert (Hf : firstn n (done ++ skipn n ts) = done).
  { rewrite <- Hlen. rewrite firstn_app, Nat.sub_diag, firstn_all.
    cbn [firstn]. apply app_nil_r. }
  assert (Hs : skipn n (done ++ skipn n ts) = skipn n ts).
  { rewrite <- Hlen at 1. rewrite skipn_app, Nat.sub_diag, skipn_all.
    reflexivity. }
  rewrite Hf, Hs. unfold done. rewrite reclassify_from_idempotent.
  reflexivity.
Qed.

(** ** The machines of a process *)

(** X12.  Every machine that a process reaches by calls of [expr] that
    return keeps the 32 tokens of the array, binding levels that are not
    negative and number texts that start with a decimal digit; on such a
    machine every call of [expr] ends. *)
Theorem process_invariants (str_size : nat) (m : machine) :
  reachable isa_reg_str2val vaddr_read str_size m ->
  List.length (tokens m) = 32%nat /\
  well_levelled (tokens m) /\ digit_headed (tokens m) /\
  forall e s, expr m e s <> OutOfFuel.
Proof.
  intros H.
  destruct (reachable_invariants isa_reg_str2val vaddr_read str_size m H)
    as (Hw & Hd & Hl & Ht).
  repeat split; assumption.
Qed.

(** ** Expressions that are one literal *)

Lemma first_match_skip (r : rule) (rs : list rule) (s : list ascii) :
  regexec_at0 (regex_of r) s = None -> first_match (r :: rs) s = first_match rs s.
Proof. intros H. simpl. now rewrite H. Qed.

Lemma first_match_take (r : rule) (rs : list rule) (s : list ascii) (len : nat) :
  regexec_at0 (regex_of r) s = Some len -> first_match (r :: rs) s = Some (r, len).
Proof. intros H. simpl. now rewrite H. Qed.

Lemma longest_star_digits (ds : list ascii) :
  forallb (in_range "0" "9") ds = true ->
  forall n best, longest (Star digit) ds n best = Some (n + List.length ds)%nat.
Proof.
  induction ds as [|c ds IH]; intros H n best.
  - simpl. f_equal. lia.
  - simpl in H. apply andb_true_iff in H. destruct H as [Hc Hds].
    change (longest (Star digit) (c :: ds) n best)
      with (longest (deriv (Star digit) c) ds (S n) (Some n)).
    assert (Hd : deriv (Star digit) c = Star digit)
      by (unfold digit; cbn [deriv]; now rewrite Hc).
    rewrite Hd, (IH Hds). f_equal. simpl. lia.
Qed.

Lemma nonzero_digit_cases (c : ascii) :
  in_range "1" "9" c = true ->
  In c ["1"; "2"; "3"; "4"; "5"; "6"; "7"; "8"; "9"]%char.
Proof.
  destruct c as [b0 b1 b2 b3 b4 b5 b6 b7].
  destruct b0, b1, b2, b3, b4, b5, b6, b7; intros H;
    try discriminate H; simpl; auto 12.
Qed.

(** A decimal literal is matched whole, by a number rule. *)
Lemma first_match_decimal (ds : list ascii) :
  decimal_literal ds = true ->
  exists r, first_match rules ds = Some (r, List.length ds) /\
            token_type r = TK_NUMBER.
Proof.
  destruct ds as [|c ds]; [discriminate|]. cbn [decimal_literal].
  destruct (Ascii.eqb c "0") eqn:E0.
  - apply Ascii.eqb_eq in E0. subst c. destruct ds; [|discriminate].
    intros _. eexists. split; [vm_compute; reflexivity | reflexivity].
  - intros H. apply andb_true_iff in H. destruct H as [Hc Hds].
    apply nonzero_digit_cases in Hc. simpl in Hc.
    repeat (destruct Hc as [Hc|Hc]; [subst c|]); [..|contradiction];
      (eexists; split;
       [ unfold rules;
         repeat (rewrite first_match_skip by (destruct ds; reflexivity));
         apply first_match_take; cbn [regex_of];
         match goal with
         | |- regexec_at0 ?R (?c :: ds) = _ =>
             change (regexec_at0 R (c :: ds))
               with (longest (Star digit) ds 1 None)
         end;
         now rewrite (longest_star_digits ds Hds)
       | reflexivity ]).
Qed.

Lemma digits_no_nul (ds : list ascii) :
  forallb (in_range "0" "9") ds = true ->
  Forall (fun c => is_nul c = false) ds.
Proof.
  induction ds as [|c ds IH]; intros H; [constructor|].
  simpl in H. apply andb_true_iff in H. destruct H as [Hc Hds].
  constructor; [|now apply IH]. digit_case c Hc; reflexivity.
Qed.

Lemma decimal_literal_digits (ds : list ascii) :
  decimal_literal ds = true -> forallb (in_range "0" "9") ds = true.
Proof.
  destruct ds as [|c ds]; [discriminate|]. cbn [decimal_literal].
  destruct (Ascii.eqb c "0") eqn:E0.
  - apply Ascii.eqb_eq in E0. subst c. destruct ds; [reflexivity | discriminate].
  - intros H. apply andb_true_iff in H. destruct H as [Hc Hds].
    simpl. rewrite Hds, andb_true_r.
    apply nonzero_digit_cases in Hc. simpl in Hc.
    repeat (destruct Hc as [Hc|Hc]; [subst c; reflexivity|]). contradiction.
Qed.

Lemma make_token_loop_cons (fuel : nat) (e : string) (c : cursor) :
  rest c <> [] ->
  make_token_loop (S fuel) e c =
  (r <- lex_one e c ;;
   match r with
   | inl c' => make_token_loop fuel e c'
   | inr m => Ret (false, m)
   end).
Proof.
  intros H. simpl. destruct (rest c); [congruence | reflexivity].
Qed.

Lemma make_token_loop_nil (fuel : nat) (e : string) (c : cursor) :
  rest c = [] -> make_token_loop (S fuel) e c = Ret (true, mach c).
Proof. intros H. simpl. now rewrite H. Qed.

(** The machine after [make_token] on an expression that one number rule
    matches whole, from the machine as loaded. *)
Lemma make_token_one_number (str_size : nat) (ds : list ascii) (r : rule) :
  first_match rules ds = Some (r, List.length ds) ->
  token_type r = TK_NUMBER ->
  Forall (fun c => is_nul c = false) ds ->
  (List.length ds <= str_size)%nat ->
  make_token (pristine str_size) (string_of_list_ascii ds) =
  Ret (true,
       {| tokens :=
            {| type := TK_NUMBER;
               str := ds ++ skipn (List.length ds) (repeat NUL str_size);
               precedence := OP_LV0 |} :: repeat (zero_token str_size) 31;
          nr_token := 1; printed := [] |}).
Proof.
  intros Hfm Hty Hnn Hlen. unfold make_token, start.
  rewrite list_ascii_of_string_of_list_ascii, (c_chars_id _ Hnn).
  pose proof (rules_match_bounds _ _ _ Hfm) as Hb.
  assert (Hne : ds <> []) by (intros ->; simpl in Hb; lia).
  rewrite make_token_loop_cons by exact Hne.
  unfold lex_one. cbn [rest mach tokens nr_token printed position pristine].
  rewrite Hfm, Hty.
  change (record_token (repeat (zero_token str_size) 32) 0 TK_NUMBER ds
            (List.length ds))
    with (put_literal ([] ++ zero_token str_size :: repeat (zero_token str_size) 31)
            (Z.of_nat (List.length (@nil Token))) TK_NUMBER ds (List.length ds)).
  rewrite put_literal_app.
  rewrite strncpy_long_source
    by (rewrite ?(c_chars_id _ Hnn); cbn [str zero_token];
        rewrite ?repeat_length; lia).
  rewrite (c_chars_id _ Hnn), firstn_all. cbn [bind str zero_token app].
  destruct (List.length ds) as [|k] eqn:Ek; [lia|].
  rewrite make_token_loop_nil
    by (cbn [rest]; rewrite <- Ek; apply skipn_all).
  reflexivity.
Qed.

Lemma fresh_text (str_size : nat) (ds : list ascii) :
  Forall (fun c => is_nul c = false) ds ->
  (List.length ds < str_size)%nat ->
  c_string (ds ++ skipn (List.length ds) (repeat NUL str_size)) = Some ds.
Proof.
  intros Hnn Hlen. rewrite c_string_app by assumption.
  assert (Hn : nth_error (repeat NUL str_size) (List.length ds) = Some NUL).
  { rewrite nth_error_repeat by assumption. reflexivity. }
  rewrite (skipn_nth_cons _ _ _ Hn). simpl. now rewrite app_nil_r.
Qed.

(** X13.  On the machine as loaded, [expr] evaluates a decimal literal (a
    single 0, or a digit from 1 to 9 followed by digits) of value below 2^32
    that fits the [str] member with its terminator to that value, and leaves
    the flag as the caller passed it. *)
Theorem decimal_literal_value (str_size : nat) (ds : list ascii) (n : Z)
    (s : bool) :
  decimal_literal ds = true -> parse_decimal ds = Some n -> n < 2 ^ 32 ->
  (List.length ds < str_size)%nat ->
  value_flag (expr (pristine str_size) (string_of_list_ascii ds) s)
  = Ret (Vint n, s).
Proof.
  intros Hlit Hval Hn Hlen.
  destruct (first_match_decimal ds Hlit) as (r & Hfm & Hty).
  pose proof (digits_no_nul ds (decimal_literal_digits ds Hlit)) as Hnn.
  unfold expr.
  rewrite (make_token_one_number str_size ds r Hfm Hty Hnn ltac:(lia)).
  cbn [bind negb].
  set (t0 := {| type := TK_NUMBER;
                str := ds ++ skipn (List.length ds) (repeat NUL str_size);
                precedence := OP_LV0 |}).
  set (ts := t0 :: repeat (zero_token str_size) 31).
  assert (Hr : recognise_unary {| tokens := ts; nr_token := 1; printed := [] |}
               = Ret {| tokens := ts; nr_token := 1; printed := [] |})
    by reflexivity.
  rewrite Hr. cbn [bind tokens nr_token].
  change (Z.to_nat 1) with 1%nat. change (1 - 1) with 0.
  rewrite (eval_number_token isa_reg_str2val vaddr_read 1 ts 0 t0 ds s);
    [| reflexivity | reflexivity | now apply fresh_text].
  destruct (parse_decimal_scan ds n Hval Hn) as (_ & Hc & Hscan).
  rewrite Hc, Hscan. reflexivity.
Qed.

Lemma xdigit_cases (c : ascii) :
  is_xdigit c = true ->
  In c ["0"; "1"; "2"; "3"; "4"; "5"; "6"; "7"; "8"; "9";
        "a"; "b"; "c"; "d"; "e"; "f"; "A"; "B"; "C"; "D"; "E"; "F"]%char.
Proof.
  destruct c as [b0 b1 b2 b3 b4 b5 b6 b7].
  destruct b0, b1, b2, b3, b4, b5, b6, b7; intros H;
    try discriminate H; simpl; auto 25.
Qed.

Ltac xdigit_case c H :=
  let Hin := fresh "Hin" in
  pose proof (xdigit_cases c H) as Hin; simpl in Hin;
  repeat (destruct Hin as [Hin|Hin]; [subst c|]); [..|contradiction].

Lemma longest_star_xdigits (ds : list ascii) :
  forallb is_xdigit ds = true ->
  forall n best, longest (Star xdigit) ds n best = Some (n + List.length ds)%nat.
Proof.
  induction ds as [|c ds IH]; intros H n best.
  - simpl. f_equal. lia.
  - simpl in H. apply andb_true_iff in H. destruct H as [Hc Hds].
    change (longest (Star xdigit) (c :: ds) n best)
      with (longest (deriv (Star xdigit) c) ds (S n) (Some n)).
    assert (Hd : deriv (Star xdigit) c = Star xdigit)
      by (xdigit_case c Hc; reflexivity).
    rewrite Hd, (IH Hds). f_equal. simpl. lia.
Qed.

(** A hexadecimal literal is matched whole, by a number rule. *)
Lemma first_match_hexadecimal (ds : list ascii) :
  hexadecimal_literal ds = true ->
  exists r, first_match rules ds = Some (r, List.length ds) /\
            token_type r = TK_NUMBER.
Proof.
  destruct ds as [|z [|x [|h hs]]]; try discriminate.
  cbn [hexadecimal_literal forallb]. intros H.
  apply andb_true_iff in H. destruct H as [H Hhs].
  apply andb_true_iff in Hhs. destruct Hhs as [Hh Hhs].
  apply andb_true_iff in H. destruct H as [Hz Hx].
  apply Ascii.eqb_eq in Hz. subst z. apply is_x_cases in Hx.
  eexists. split.
  - unfold rules.
    repeat (rewrite first_match_skip by reflexivity).
    apply first_match_take. cbn [regex_of].
    match goal with
    | |- regexec_at0 ?R (?z :: x :: h :: hs) = _ =>
        assert (Hd : regexec_at0 R (z :: x :: h :: hs) =
                     longest (Star xdigit) hs 3 None)
          by (destruct Hx; subst x; xdigit_case h Hh; reflexivity)
    end.
    rewrite Hd, (longest_star_xdigits hs Hhs). reflexivity.
  - reflexivity.
Qed.

Lemma xdigits_no_nul (ds : list ascii) :
  forallb is_xdigit ds = true -> Forall (fun c => is_nul c = false) ds.
Proof.
  induction ds as [|c ds IH]; intros H; [constructor|].
  simpl in H. apply andb_true_iff in H. destruct H as [Hc Hds].
  constructor; [|now apply IH]. xdigit_case c Hc; reflexivity.
Qed.

Lemma hexadecimal_literal_shape (ds : list ascii) :
  hexadecimal_literal ds = true ->
  hex_literal ds = true /\ Forall (fun c => is_nul c = false) ds.
Proof.
  destruct ds as [|z [|x [|h hs]]]; try discriminate.
  cbn [hexadecimal_literal hex_literal]. intros H.
  apply andb_true_iff in H. destruct H as [H Hhs].
  split; [assumption|].
  apply andb_true_iff in H. destruct H as [Hz Hx].
  apply Ascii.eqb_eq in Hz. subst z. apply is_x_cases in Hx.
  constructor; [reflexivity|].
  constructor; [destruct Hx; subst x; reflexivity|].
  now apply xdigits_no_nul.
Qed.

(** X14.  On the machine as loaded, [expr] evaluates a hexadecimal literal
    ([0x] or [0X] and one hexadecimal digit or more) of value below 2^32 that
    fits the [str] member with its terminator to the value of its digits, and
    leaves the flag as the caller passed it. *)
Theorem hexadecimal_literal_value (str_size : nat) (ds : list ascii) (n : Z)
    (s : bool) :
  hexadecimal_literal ds = true -> parse_hex ds = Some n -> n < 2 ^ 32 ->
  (List.length ds < str_size)%nat ->
  value_flag (expr (pristine str_size) (string_of_list_ascii ds) s)
  = Ret (Vint n, s).
Proof.
  intros Hlit Hval Hn Hlen.
  destruct (first_match_hexadecimal ds Hlit) as (r & Hfm & Hty).
  destruct (hexadecimal_literal_shape ds Hlit) as [Hhex Hnn].
  unfold expr.
  rewrite (make_token_one_number str_size ds r Hfm Hty Hnn ltac:(lia)).
  cbn [bind negb].
  set (t0 := {| type := TK_NUMBER;
                str := ds ++ skipn (List.length ds) (repeat NUL str_size);
                precedence := OP_LV0 |}).
  set (ts := t0 :: repeat (zero_token str_size) 31).
  assert (Hr : recognise_unary {| tokens := ts; nr_token := 1; printed := [] |}
               = Ret {| tokens := ts; nr_token := 1; printed := [] |})
    by reflexivity.
  rewrite Hr. cbn [bind tokens nr_token].
  change (Z.to_nat 1) with 1%nat. change (1 - 1) with 0.
  rewrite (eval_number_token isa_reg_str2val vaddr_read 1 ts 0 t0 ds s);
    [| reflexivity | reflexivity | now apply fresh_text].
  destruct (parse_hex_scan ds n Hhex Hval Hn) as (Hc & Hscan).
  rewrite Hc, Hscan. reflexivity.
Qed.

(** ** The one panic *)










(** ** Spaces before the expression *)

Lemma longest_void (s : list ascii) (n : nat) (best : option nat) :
  longest Void s n best = best.
Proof. destruct s; reflexivity. Qed.

Lemma longest_star_leading (s : list ascii) :
  forall n best,
  longest (Star (Chr " ")) s n best = Some (n + leading_blanks s)%nat.
Proof.
  induction s as [|c s IH]; intros n best.
  - simpl. f_equal. lia.
  - change (longest (Star (Chr " ")) (c :: s) n best)
      with (longest (deriv (Star (Chr " ")) c) s (S n) (Some n)).
    cbn [deriv leading_blanks]. destruct (Ascii.eqb c " ").
    + cbn [seq]. rewrite IH. f_equal. lia.
    + cbn [seq]. rewrite longest_void. f_equal. lia.
Qed.

Lemma first_match_leading (s : list ascii) :
  exists r, first_match rules (" "%char :: s) = Some (r, S (leading_blanks s)) /\
            token_type r = TK_NOTYPE.
Proof.
  eexists. split.
  - unfold rules. cbn [first_match regex_of].
    change (regexec_at0 (Plus (Chr " ")) (" "%char :: s))
      with (longest (Star (Chr " ")) s 1 None).
    rewrite longest_star_leading. reflexivity.
  - reflexivity.
Qed.

(** The loop looks at the characters from the cursor on and at the tokens;
    the position and the text of the whole expression only go into what it
    prints. *)
Lemma make_token_loop_insensitive (fuel : nat) (e e' : string) :
  forall c c',
  rest c = rest c' -> tokens (mach c) = tokens (mach c') ->
  nr_token (mach c) = nr_token (mach c') ->
  token_part (make_token_loop fuel e c) = token_part (make_token_loop fuel e' c').
Proof.
  induction fuel as [|fuel IH]; intros c c' Hr Ht Hn; [reflexivity|].
  cbn [make_token_loop]. rewrite <- Hr. destruct (rest c) as [|a l] eqn:Er.
  - simpl. now rewrite Ht, Hn.
  - unfold lex_one. rewrite <- Hr, Er, <- Ht, <- Hn.
    destruct (first_match rules (a :: l)) as [[r len]|].
    + destruct (record_token _ _ _ _ _) as [[ts nr]| | | |]; try reflexivity.
      cbn [bind]. apply IH; reflexivity.
    + reflexivity.
Qed.

Lemma make_token_loop_fuel (fuel : nat) (e : string) :
  forall fuel' c,
  (List.length (rest c) < fuel)%nat -> (List.length (rest c) < fuel')%nat ->
  make_token_loop fuel e c = make_token_loop fuel' e c.
Proof.
  induction fuel as [|fuel IH]; intros fuel' c Hf Hf'; [lia|].
  destruct fuel' as [|fuel']; [lia|].
  cbn [make_token_loop]. destruct (rest c) as [|a l] eqn:Er; [reflexivity|].
  unfold lex_one. rewrite Er.
  destruct (first_match rules (a :: l)) as [[r len]|] eqn:E; [|reflexivity].
  apply rules_match_bounds in E.
  destruct (record_token _ _ _ _ _) as [[ts nr]| | | |]; try reflexivity.
  cbn [bind]. cbn [List.length] in *.
  apply IH; cbn [rest]; rewrite length_skipn; cbn [List.length]; lia.
Qed.

Lemma make_token_loop_blank (f : nat) (e e' : string) (c c' : cursor)
    (s : list ascii) :
  rest c = " "%char :: s -> rest c' = s ->
  tokens (mach c) = tokens (mach c') ->
  nr_token (mach c) = nr_token (mach c') ->
  (List.length s < f)%nat ->
  token_part (make_token_loop (S f) e c) = token_part (make_token_loop f e' c').
Proof.
  intros Hr Hr' Ht Hn Hf.
  destruct (first_match_leading s) as (r & Hm & Hty).
  rewrite make_token_loop_cons by (rewrite Hr; discriminate).
  unfold lex_one at 1. rewrite Hr, Hm, Hty.
  cbn [record_token Z.eqb TK_NOTYPE Pos.eqb bind].
  destruct (leading_blanks s) as [|j] eqn:El.
  - apply make_token_loop_insensitive; cbn [rest mach tokens nr_token skipn];
      congruence.
  - destruct s as [|a s']; [discriminate El|].
    cbn [leading_blanks] in El.
    destruct (Ascii.eqb a " ") eqn:Ea; [|discriminate El].
    apply Ascii.eqb_eq in Ea. subst a. injection El as El.
    destruct (first_match_leading s') as (r' & Hm' & Hty').
    destruct f as [|f0]; [cbn [List.length] in Hf; lia|].
    rewrite (make_token_loop_cons f0 e' c') by (rewrite Hr'; discriminate).
    unfold lex_one. rewrite Hr', Hm', Hty', El.
    cbn [record_token Z.eqb TK_NOTYPE Pos.eqb bind].
    rewrite (make_token_loop_fuel (S f0) e f0).
    + apply make_token_loop_insensitive; cbn [rest mach tokens nr_token skipn];
        congruence.
    + cbn [rest skipn]. rewrite length_skipn. cbn [List.length] in Hf. lia.
    + cbn [rest skipn]. rewrite length_skipn. cbn [List.length] in Hf.
      assert (Hb : (j <= List.length s')%nat).
      { apply rules_match_bounds in Hm'. cbn [List.length] in Hm'. lia. }
      lia.
Qed.

Lemma make_token_blank (m : machine) (e : string) :
  token_part (make_token m (String " " e)) = token_part (make_token m e).
Proof.
  unfold make_token.
  change (c_chars (list_ascii_of_string (String " " e)))
    with (" "%char :: c_chars (list_ascii_of_string e)).
  cbn [List.length].
  apply (make_token_loop_blank _ _ _ _ _ (c_chars (list_ascii_of_string e)));
    try reflexivity.
  lia.
Qed.

(** [expr] takes its value and flag from the result of [make_token], the
    array and [nr_token]. *)
Lemma expr_token_part (m m' : machine) (e e' : string) (s : bool) :
  token_part (make_token m e) = token_part (make_token m' e') ->
  value_flag (expr m e s) = value_flag (expr m' e' s).
Proof.
  unfold expr. intros H.
  destruct (make_token m e) as [[ok m1]| | | |];
    destruct (make_token m' e') as [[ok' m1']| | | |];
    cbn [token_part bind] in H; try discriminate H; try reflexivity;
    try (injection H as ->; reflexivity).
  injection H as Hok Ht Hn. subst ok'.
  cbn [bind]. destruct (negb ok); [reflexivity|].
  unfold recognise_unary. rewrite Ht, Hn.
  destruct (mark_unary _ _ _) as [ts| | | |]; try reflexivity.
  cbn [bind tokens nr_token].
  destruct (eval _ _ _ _ _) as [[v s']| | | |]; reflexivity.
Qed.

(** X16.  Spaces before the expression change nothing but what is printed:
    [make_token] gives the same result, the same array and the same
    [nr_token] as on the expression without them, and [expr] the same value
    and flag. *)
Theorem leading_blanks_are_skipped (m : machine) (n : nat) (e : string)
    (s : bool) :
  token_part (make_token m (string_of_list_ascii (blank n) ++ e)) =
  token_part (make_token m e) /\
  value_flag (expr m (string_of_list_ascii (blank n) ++ e)%string s) =
  value_flag (expr m e s).
Proof.
  assert (H : token_part (make_token m (string_of_list_ascii (blank n) ++ e)) =
              token_part (make_token m e)).
  { induction n as [|n IH]; [reflexivity|].
    change (string_of_list_ascii (blank (S n)) ++ e)%string
      with (String " " (string_of_list_ascii (blank n) ++ e)).
    now rewrite make_token_blank. }
  split; [exact H | now apply expr_token_part].
Qed.

End Further.

(** ** The further properties on particular expressions *)

Lemma check_parentheses_verdicts_witness :
  check_parentheses (array_of "(1+2)") 0 4 None = Ret (true, None) /\
  check_parentheses (array_of "1+2") 0 2 None = Ret (false, Some NOT_SURROUND) /\
  check_parentheses (array_of "(1+2") 0 3 None = Ret (false, Some BAD_EXPR).
Proof.
  split; [|split].
  - apply (proj1 (check_parentheses_verdicts (array_of "(1+2)") 0 4 None
                    ltac:(lia) ltac:(lia) ltac:(vm_compute; lia))).
    split; [|vm_compute; reflexivity].
    apply balanced_check; [vm_compute; discriminate | vm_compute; reflexivity].
  - apply (proj1 (proj2 (check_parentheses_verdicts (array_of "1+2") 0 2 None
                    ltac:(lia) ltac:(lia) ltac:(vm_compute; lia)))).
    split; [|vm_compute; reflexivity].
    apply balanced_check; [vm_compute; discriminate | vm_compute; reflexivity].
  - apply (proj1 (proj2 (proj2 (check_parentheses_verdicts (array_of "(1+2") 0 3
                    None ltac:(lia) ltac:(lia) ltac:(vm_compute; lia))))).
    apply not_balanced_check; vm_compute; discriminate.
Defined.

Lemma eval_unwraps_witness :
  eval pc_only flat_memory 5 (array_of "(1+2)") 0 4 true =
  eval pc_only flat_memory 4 (array_of "(1+2)") (0 + 1) (4 - 1) true.
Proof.
  apply eval_unwraps.
  - lia.
  - lia.
  - vm_compute. lia.
  - apply balanced_check; [vm_compute; discriminate | vm_compute; reflexivity].
  - vm_compute. reflexivity.
Defined.

(** The array that holds the tokens of "1+2" after a call on "7*(8-9)". *)
Lemma eval_reads_its_range_witness :
  eval pc_only flat_memory 4 (array_of "1+2") 0 2 true =
  eval pc_only flat_memory 4
    (firstn 3 (array_of "1+2") ++ skipn 3 (array_of "7*(8-9)")) 0 2 true.
Proof.
  apply eval_reads_its_range.
  - apply well_levelled_check. vm_compute. reflexivity.
  - intros i Hi.
    assert (Hc : i = 0 \/ i = 1 \/ i = 2) by lia.
    destruct Hc as [->|[->| ->]]; reflexivity.
Defined.

Lemma eval_recursion_ends_witness :
  eval pc_only flat_memory 4 (array_of "1+2") 0 2 true <> OutOfFuel /\
  eval pc_only flat_memory 9 (array_of "1+2") 0 2 true =
  eval pc_only flat_memory 4 (array_of "1+2") 0 2 true.
Proof.
  apply eval_recursion_ends.
  - apply well_levelled_check. vm_compute. reflexivity.
  - vm_compute. lia.
  - vm_compute. lia.
Defined.

Lemma make_token_frame_witness :
  (List.length (tokens (lexed "1+2")) = 32%nat /\
   nr_token (lexed "1+2") <= 3 /\
   nth_error (tokens (lexed "1+2")) 3 = nth_error (tokens (pristine 32)) 3 /\
   printed (lexed "1+2") = []) /\
  (nr_token (lexed "1 @ 2") <= 5 /\
   exists pos, 0 <= pos < 5 /\
     printed (lexed "1 @ 2") =
     [] ++ [ {| at_position := pos; shown := "1 @ 2"; caret_column := pos |} ]).
Proof.
  split.
  - destruct (make_token_frame (pristine 32) (lexed "1+2") "1+2" true eq_refl)
      as (Hl & _ & _ & Hn & Hfr & Hp).
    split; [exact Hl|]. split; [exact Hn|]. split; [|exact Hp].
    apply Hfr. vm_compute. lia.
  - destruct (make_token_frame (pristine 32) (lexed "1 @ 2") "1 @ 2" false
                eq_refl) as (_ & _ & _ & Hn & _ & Hp).
    split; [exact Hn | exact Hp].
Defined.

Lemma scanned_tokens_are_levelled_witness :
  exists t, tok (tokens (lexed "-1*")) 2 = Ret t /\
            type t = ch "*" /\ kind_levelled t /\
            type t <> TK_MINUS /\ type t <> TK_DEREFERENCE.
Proof.
  eexists. split; [vm_compute; reflexivity|]. split; [reflexivity|].
  apply (proj1 (scanned_tokens_are_levelled (pristine 32) (lexed "-1*") "-1*"
                  true eq_refl) 2).
  - change (0 <= 2 < 3). lia.
  - vm_compute. reflexivity.
Defined.

Lemma literal_text_keeps_old_tail_witness :
  exists ts' t',
    put_literal (array_of "12345") 0 TK_NUMBER (list_ascii_of_string "7") 1
      = Ret (ts', 0 + 1) /\
    tok ts' 0 = Ret t' /\
    c_string (str t') = Some (list_ascii_of_string "72345").
Proof.
  destruct (literal_text_keeps_old_tail (array_of "12345") 0 TK_NUMBER
              {| type := TK_NUMBER;
                 str := list_ascii_of_string "12345" ++ repeat NUL 27;
                 precedence := 0 |}
              (list_ascii_of_string "7") 1 eq_refl)
    as (ts' & t' & Hput & Htok & _ & _ & Htext & _).
  - vm_compute. lia.
  - vm_compute. lia.
  - exists ts', t'. split; [exact Hput|]. split; [exact Htok|].
    rewrite Htext. reflexivity.
Defined.

Lemma make_token_fits_witness :
  exists ok m', make_token (pristine 32) "1+2" = Ret (ok, m').
Proof.
  apply make_token_fits.
  - vm_compute. lia.
  - apply Forall_forall. intros t Ht. apply repeat_spec in Ht. subst t.
    vm_compute. lia.
Defined.

Lemma recognise_unary_idempotent_witness :
  recognise_unary
    {| tokens := array_of "-1*-(*2)"; nr_token := 8; printed := [] |} =
  Ret {| tokens := array_of "-1*-(*2)"; nr_token := 8; printed := [] |}.
Proof.
  apply (recognise_unary_idempotent (lexed "-1*-(*2)")).
  - vm_compute. lia.
  - reflexivity.
Defined.

Lemma process_invariants_witness :
  nr_token (after (after (pristine 32) "12345") "-7*(") = 4 /\
  List.length (tokens (after (after (pristine 32) "12345") "-7*(")) = 32%nat /\
  well_levelled (tokens (after (after (pristine 32) "12345") "-7*(")) /\
  digit_headed (tokens (after (after (pristine 32) "12345") "-7*(")) /\
  forall e s,
    expr pc_only flat_memory (after (after (pristine 32) "12345") "-7*(") e s
    <> OutOfFuel.
Proof.
  split; [reflexivity|].
  apply (process_invariants pc_only flat_memory 32).
  apply (reachable_call pc_only flat_memory 32
           (after (pristine 32) "12345") _ "-7*(" true false (Vint 0)).
  - apply (reachable_call pc_only flat_memory 32
             (pristine 32) _ "12345" true true (Vint 12345)).
    + apply reachable_loaded.
    + vm_compute. reflexivity.
  - vm_compute. reflexivity.
Defined.

Lemma decimal_literal_value_witness :
  value_flag (expr pc_only flat_memory (pristine 32)
                (string_of_list_ascii (list_ascii_of_string "4294967295")) false)
  = Ret (Vint 4294967295, false).
Proof.
  apply decimal_literal_value.
  - reflexivity.
  - reflexivity.
  - lia.
  - vm_compute. lia.
Defined.

Lemma hexadecimal_literal_value_witness :
  value_flag (expr pc_only flat_memory (pristine 32)
                (string_of_list_ascii (list_ascii_of_string "0xfF")) true)
  = Ret (Vint 255, true).
Proof.
  apply hexadecimal_literal_value.
  - reflexivity.
  - reflexivity.
  - lia.
  - vm_compute. lia.
Defined.

